(** * EncodingInformation: the MI-versus-classification notebook

    A shallow embedding of the statistics and artifact-lookup code of
    [lensless_imager/01_09_2024_mi_vs_classification_plots_updated_mi_cifar10.ipynb].

    Conventions of the model.
    - A one-dimensional [float64] array is a [list Q]: every finite double
      is a rational, and the arithmetic is carried out exactly.  Rounding
      is not modelled.  The special values that the notebook's operations
      can create from finite inputs (a quotient by zero, the mean of an
      empty array) are the constructors of [float64].  A rational has one
      zero: where the sign of a zero matters, in a division by the
      minimum of an array, it is an argument of its own ([zero_sign]).
    - A Python exception is a constructor of [exn]; code that may raise
      returns a [result].
    - A notebook cell runs on the variables of the session, which survive
      an exception: a cell is a function from the variables to the new
      variables and a [result]. *)

From Stdlib Require Import ZArith QArith Qround Lqa Lia List Ascii DecimalString
  DecimalPos DecimalZ.
From stdpp Require Import gmap strings list sorting.

Set Default Proof Using "Type".

(** ** Python exceptions *)

Inductive exn : Type :=
| FileNotFoundError (path : string)
| ValueError (msg : string)
| IndexError
| AxisError
| UnboundLocalError (name : string).

Inductive result (A : Type) : Type :=
| Ok (a : A)
| Raise (e : exn).
Arguments Ok {A} a.
Arguments Raise {A} e.

#[export] Instance result_ret : MRet result := λ A a, Ok a.
#[export] Instance result_bind : MBind result := λ A B f r,
  match r with
  | Ok a => f a
  | Raise e => Raise e
  end.
#[export] Instance result_fmap : FMap result := λ A B f r,
  match r with
  | Ok a => Ok (f a)
  | Raise e => Raise e
  end.

(** ** numpy on flat arrays *)

Abbreviation ndarray := (list Q).

Inductive float64 : Type :=
| NaN
| PInf
| NInf
| Fin (q : Q).

(** Equality of doubles up to the representation of the rational. *)
Definition float64_eq (x y : float64) : Prop :=
  match x, y with
  | NaN, NaN | PInf, PInf | NInf, NInf => True
  | Fin p, Fin q => (p == q)%Q
  | _, _ => False
  end.

Definition option_Qeq (x y : option Q) : Prop :=
  match x, y with
  | Some p, Some q => (p == q)%Q
  | None, None => True
  | _, _ => False
  end.

Definition Qltb (x y : Q) : bool := negb (Qle_bool y x).

(** [x > t] for a double [x] and a finite [t]: false on [NaN]. *)
Definition float64_gt (x : float64) (t : Q) : bool :=
  match x with
  | NaN => false
  | PInf => true
  | NInf => false
  | Fin q => Qltb t q
  end.

(** The sign of a zero.  Binary64 has two zeros, equal under every
    comparison, where a rational has one; as a divisor the sign of the
    zero decides between the two infinities. *)
Inductive zero_sign : Type :=
| PosZero
| NegZero.

(** [a / b] on [np.float64] scalars, [b_sign] being the sign of [b] when
    [b] is a zero: a zero divisor gives an infinity or [NaN] (with a
    [RuntimeWarning]), never an exception. *)
Definition np_divide (a b : Q) (b_sign : zero_sign) : float64 :=
  if Qeq_bool b 0 then
    if Qeq_bool a 0 then NaN
    else
      match b_sign with
      | PosZero => if Qltb 0 a then PInf else NInf
      | NegZero => if Qltb 0 a then NInf else PInf
      end
  else Fin (a / b).

Definition zero_size (op : string) : exn :=
  ValueError ("zero-size array to reduction operation " +:+ op +:+
              " which has no identity").

Fixpoint reduce_min (acc : Q) (a : ndarray) : Q :=
  match a with
  | [] => acc
  | v :: a' => reduce_min (if Qltb v acc then v else acc) a'
  end.

Fixpoint reduce_max (acc : Q) (a : ndarray) : Q :=
  match a with
  | [] => acc
  | v :: a' => reduce_max (if Qltb acc v then v else acc) a'
  end.

(** [np.min(a)] and [np.max(a)]. *)
Definition np_min (a : ndarray) : result Q :=
  match a with
  | [] => Raise (zero_size "minimum")
  | v :: a' => Ok (reduce_min v a')
  end.

Definition np_max (a : ndarray) : result Q :=
  match a with
  | [] => Raise (zero_size "maximum")
  | v :: a' => Ok (reduce_max v a')
  end.

Definition Qsum (a : ndarray) : Q := foldr Qplus 0%Q a.

(** [np.mean(a)]: the mean of an empty array is [NaN] (numpy warns
    "Mean of empty slice" and carries on).  The sum and the quotient are
    the exact ones: binary64 rounds them, so the mean of the notebook is
    this one up to rounding, and it need not lie between the smallest and
    the largest entry (the mean of three entries 0.1 is
    0.10000000000000002). *)
Definition np_mean (a : ndarray) : float64 :=
  match a with
  | [] => NaN
  | _ => Fin (Qsum a / inject_Z (Z.of_nat (length a)))
  end.

(** [np.min(rows, axis=1)] on a Python list of flat arrays.  The list is
    first converted to one array: an empty list gives a one-dimensional
    array, which has no axis 1; rows of different lengths cannot be
    stacked (numpy 1.24 and later raise [ValueError]); a stack with no
    columns has nothing to reduce. *)
Definition same_length (rows : list ndarray) : bool :=
  match rows with
  | [] => true
  | r :: rows' => forallb (λ r', Nat.eqb (length r') (length r)) rows'
  end.

Definition np_min_axis1 (rows : list ndarray) : result ndarray :=
  match rows with
  | [] => Raise AxisError
  | _ =>
    if same_length rows
    then mapM (M := result) np_min rows
    else Raise (ValueError "inhomogeneous shape")
  end.

(** *** [np.percentile], default method ([linear]) *)

Fixpoint insert_sorted (v : Q) (a : ndarray) : ndarray :=
  match a with
  | [] => [v]
  | w :: a' => if Qle_bool v w then v :: a else w :: insert_sorted v a'
  end.

Definition np_sort (a : ndarray) : ndarray := foldr insert_sorted [] a.

(** Python indexing: a negative index counts from the end. *)
Definition getitem (a : ndarray) (i : Z) : option Q :=
  if (i <? 0)%Z then
    if (i + Z.of_nat (length a) <? 0)%Z then None
    else a !! Z.to_nat (i + Z.of_nat (length a))
  else a !! Z.to_nat i.

(** [_get_indexes]: the neighbours of the virtual index, the last
    element (index -1) at or above the upper end, the first below 0. *)
Definition get_indexes (virtual_index : Q) (values_count : nat) : Z * Z :=
  if Qle_bool (inject_Z (Z.of_nat values_count) - 1) virtual_index
  then ((-1)%Z, (-1)%Z)
  else if Qltb virtual_index 0 then (0%Z, 0%Z)
  else (Qfloor virtual_index, (Qfloor virtual_index + 1)%Z).

(** [_lerp(a, b, t)]: [a + (b - a) * t], computed from [b] when
    [t >= 0.5]. *)
Definition lerp (a b t : Q) : Q :=
  let diff_b_a := (b - a)%Q in
  if Qle_bool (1 # 2) t
  then (b - diff_b_a * (1 - t))%Q
  else (a + diff_b_a * t)%Q.

Definition percentile_linear (a : ndarray) (q : Q) : option Q :=
  let arr := np_sort a in
  let values_count := length arr in
  let virtual_index := ((inject_Z (Z.of_nat values_count) - 1) * (q / 100))%Q in
  let '(previous_index, next_index) := get_indexes virtual_index values_count in
  previous ← getitem arr previous_index;
  next ← getitem arr next_index;
  let gamma := (virtual_index - inject_Z previous_index)%Q in
  Some (lerp previous next gamma).

Section Percentile.
(** What [np.percentile] does with an empty array depends on the numpy
    release ([nan] with a warning, or an [IndexError] from indexing the
    last element); it is left open, and the properties below hold
    whatever it is. *)
Variable percentile_of_empty : result float64.

Definition np_percentile (a : ndarray) (q : Q) : result float64 :=
  if Qltb q 0 || Qltb 100 q
  then Raise (ValueError "Percentiles must be in the range [0, 100]")
  else
    match a with
    | [] => percentile_of_empty
    | _ =>
      match percentile_linear a q with
      | Some v => Ok (Fin v)
      | None => Raise IndexError
      end
    end.
End Percentile.

(** ** Outlier clipping (the mean-with-error-bars cell)

    [if np.max(x) / np.min(x) > 2: x[x > 2 * np.min(x)] = np.min(x)]
    The notebook writes the threshold as the literal 2, see
    [pixelcnn_clip]. *)

(** [x[mask] = value] *)
Definition setitem_mask (x : ndarray) (mask : list bool) (value : Q) : ndarray :=
  zip_with (λ v (m : bool), if m then value else v) x mask.

(** [min_sign] is the sign of [np.min(x)] when that minimum is a zero:
    an array of rationals does not tell it, and which of the zeros of an
    array [np.min] returns is not fixed by their values. *)
Definition outlier_clip_signed (min_sign : zero_sign) (ratio_threshold : Q)
    (x : ndarray) : result ndarray :=
  hi ← np_max x;
  lo ← np_min x;
  if float64_gt (np_divide hi lo min_sign) ratio_threshold
  then
    let mask := map (λ v, Qltb (ratio_threshold * lo) v) x in
    Ok (setitem_mask x mask lo)
  else Ok x.

(** The clipping of an array whose minimum is not the negative zero. *)
Definition outlier_clip : Q → ndarray → result ndarray :=
  outlier_clip_signed PosZero.

Definition pixelcnn_clip : ndarray → result ndarray := outlier_clip 2.

(** ** Artifact paths *)

(** A value handed to [str.format]: the notebook formats integers
    (photon counts, the bias) and strings (PSF and model names). *)
Inductive pyval : Type :=
| PyInt (z : Z)
| PyStr (s : string).

Definition str (v : pyval) : string :=
  match v with
  | PyInt z => NilZero.string_of_int (Z.to_int z)
  | PyStr s => s
  end.

(** [str.format] for templates whose only fields are the
    automatic [{}]: each field takes the next argument; too few arguments
    raise [IndexError], a brace that opens or closes no field raises
    [ValueError], surplus arguments are ignored. *)
Fixpoint format (template : string) (args : list pyval) : result string :=
  match template with
  | EmptyString => Ok EmptyString
  | String "{"%char (String "}"%char rest) =>
    match args with
    | [] => Raise IndexError
    | v :: args' => (λ s, str v +:+ s) <$> format rest args'
    end
  | String "{"%char _ => Raise (ValueError "expected '}' before end of string")
  | String "}"%char _ => Raise (ValueError "Single '}' encountered in format string")
  | String c rest => String c <$> format rest args
  end.

Definition gaussian_mi_path (mi_folder : string) (photon_count : Z)
    (psf_name : string) : result string :=
  (λ s, mi_folder +:+ s) <$>
  format "cifar10_mi_estimates/gaussian_mi_estimate_{}_photon_count_{}_psf.npy"
         [PyInt photon_count; PyStr psf_name].

Definition pixelcnn_mi_path (mi_folder : string) (photon_count : Z)
    (psf_name : string) : result string :=
  (λ s, mi_folder +:+ s) <$>
  format "cifar10_mi_estimates/pixelcnn_mi_estimate_{}_photon_count_{}_psf.npy"
         [PyInt photon_count; PyStr psf_name].

Definition classifier_path (classifier_folder : string) (photon_count : Z)
    (psf_name : string) (bias : Z) (model : string) : result string :=
  (λ s, classifier_folder +:+ s) <$>
  format "classifier_results/cifar_test_accuracy_{}_mean_photon_count_{}_psf_{}_bias_{}_model.npy"
         [PyInt photon_count; PyStr psf_name; PyInt bias; PyStr model].

(** The naming convention as the specification words it. *)
Definition spec_mi_path (root dataset estimator : string) (photon_count : Z)
    (psf_name : string) : string :=
  root +:+ "/" +:+ dataset +:+ "_mi_estimates/" +:+ estimator +:+
  "_mi_estimate_" +:+ str (PyInt photon_count) +:+ "_photon_count_" +:+
  psf_name +:+ "_psf.npy".

Definition spec_classifier_path (root dataset : string) (photon_count : Z)
    (psf_name : string) (bias : Z) (model : string) : string :=
  root +:+ "/classifier_results/" +:+ dataset +:+ "_test_accuracy_" +:+
  str (PyInt photon_count) +:+ "_mean_photon_count_" +:+ psf_name +:+
  "_psf_" +:+ str (PyInt bias) +:+ "_bias_" +:+ model +:+ "_model.npy".

(** ** Notebook constants (the parameter cell) *)

Definition bias : Z := 10.
Definition mean_photon_count_list : list Z :=
  [20; 40; 60; 80; 100; 150; 200; 250; 300]%Z.
Definition psf_names : list string := ["one"; "four"; "diffuser"].
Definition mi_folder : string := "".
Definition classifier_folder : string := "".

(** The PSF labels of the specification. *)
Definition psf_label_set : gset string :=
  {[ "one"; "four"; "diffuser"; "uc"; "two" ]}.

(** ** [marker_for_psf]

    The chain of [if]/[elif] has no [else]: when no branch runs, the
    local [marker] was never bound and [return marker] raises
    [UnboundLocalError]. *)
Definition marker_for_psf (psf_name : string) : result string :=
  let marker : option string :=
    if String.eqb psf_name "one" then Some "o"
    else if String.eqb psf_name "four" then Some "s"
    else if String.eqb psf_name "diffuser" then Some "*"
    else if String.eqb psf_name "uc" then Some "x"
    else if String.eqb psf_name "two" then Some "d"
    else None in
  match marker with
  | Some m => Ok m
  | None => Raise (UnboundLocalError "marker")
  end.

(** ** Notebook cells

    The variables of a cell and the trace of the paths given to
    [np.load] make the state; an exception leaves the state as it was
    when it was raised. *)

Record world (V : Type) : Type := World { vars : V; opened : list string }.
Arguments World {V} vars opened.
Arguments vars {V} w.
Arguments opened {V} w.

Definition cell (V A : Type) : Type := world V → world V * result A.

#[export] Instance cell_ret {V} : MRet (cell V) := λ A a w, (w, Ok a).
#[export] Instance cell_bind {V} : MBind (cell V) := λ A B f m w,
  match m w with
  | (w', Ok a) => f a w'
  | (w', Raise e) => (w', Raise e)
  end.

Definition lift {V A} (r : result A) : cell V A := λ w, (w, r).
Definition get {V A} (f : V → A) : cell V A := λ w, (w, Ok (f (vars w))).
Definition modify {V} (f : V → V) : cell V unit :=
  λ w, (World (f (vars w)) (opened w), Ok ()).

Fixpoint for_each {V X} (xs : list X) (body : X → cell V unit) : cell V unit :=
  match xs with
  | [] => mret ()
  | x :: xs' => _ ← body x; for_each xs' body
  end.

(** [enumerate(xs)] *)
Definition enumerate {X} (xs : list X) : list (nat * X) :=
  zip (seq 0 (length xs)) xs.

(** The artifact store: the arrays saved under each path. *)
Abbreviation files := (gmap string ndarray).

(** [np.load(path)]: a fresh array with the saved contents, or
    [FileNotFoundError]. *)
Definition np_load {V} (fs : files) (path : string) : cell V ndarray :=
  λ w,
    let w' := World (vars w) (opened w ++ [path]) in
    match fs !! path with
    | Some a => (w', Ok a)
    | None => (w', Raise (FileNotFoundError path))
    end.

(** *** Minimum plot with no error bars *)
Module MinimumPlot.

Record variables : Type := Variables {
  gaussian_across_photons : list ndarray;
  pixelcnn_across_photons : list ndarray;
  gaussian_mi_estimates_across_psfs : list ndarray;
  pixelcnn_mi_estimates_across_psfs : list ndarray
}.

Definition set_gaussian_across_photons (l : list ndarray) (v : variables) :=
  Variables l (pixelcnn_across_photons v)
            (gaussian_mi_estimates_across_psfs v)
            (pixelcnn_mi_estimates_across_psfs v).
Definition set_pixelcnn_across_photons (l : list ndarray) (v : variables) :=
  Variables (gaussian_across_photons v) l
            (gaussian_mi_estimates_across_psfs v)
            (pixelcnn_mi_estimates_across_psfs v).
Definition set_gaussian_mi_estimates_across_psfs (l : list ndarray) (v : variables) :=
  Variables (gaussian_across_photons v) (pixelcnn_across_photons v) l
            (pixelcnn_mi_estimates_across_psfs v).
Definition set_pixelcnn_mi_estimates_across_psfs (l : list ndarray) (v : variables) :=
  Variables (gaussian_across_photons v) (pixelcnn_across_photons v)
            (gaussian_mi_estimates_across_psfs v) l.

Section Run.
Variable fs : files.
Variables (mi_folder : string) (psf_names : list string)
          (mean_photon_count_list : list Z).

Definition load_photon_count (psf_name : string) (photon_count : Z)
    : cell variables unit :=
  gaussian_path ← lift (gaussian_mi_path mi_folder photon_count psf_name);
  gaussian_mi_estimate ← np_load fs gaussian_path;
  pixelcnn_path ← lift (pixelcnn_mi_path mi_folder photon_count psf_name);
  pixelcnn_mi_estimate ← np_load fs pixelcnn_path;
  _ ← modify (λ v, set_gaussian_across_photons
                     (gaussian_across_photons v ++ [gaussian_mi_estimate]) v);
  modify (λ v, set_pixelcnn_across_photons
                 (pixelcnn_across_photons v ++ [pixelcnn_mi_estimate]) v).

Definition load_psf (psf_name : string) : cell variables unit :=
  _ ← modify (set_gaussian_across_photons []);
  _ ← modify (set_pixelcnn_across_photons []);
  _ ← for_each mean_photon_count_list (load_photon_count psf_name);
  gaussian_rows ← get gaussian_across_photons;
  gaussian_mins ← lift (np_min_axis1 gaussian_rows);
  pixelcnn_rows ← get pixelcnn_across_photons;
  pixelcnn_mins ← lift (np_min_axis1 pixelcnn_rows);
  _ ← modify (λ v, set_gaussian_mi_estimates_across_psfs
                     (gaussian_mi_estimates_across_psfs v ++ [gaussian_mins]) v);
  modify (λ v, set_pixelcnn_mi_estimates_across_psfs
                 (pixelcnn_mi_estimates_across_psfs v ++ [pixelcnn_mins]) v).

Definition run : cell variables unit :=
  _ ← modify (set_gaussian_mi_estimates_across_psfs []);
  _ ← modify (set_pixelcnn_mi_estimates_across_psfs []);
  for_each psf_names load_psf.
End Run.

(** The cell with the notebook's constants. *)
Definition notebook (fs : files) : cell variables unit :=
  run fs mi_folder psf_names mean_photon_count_list.

End MinimumPlot.

(** *** Mean plot with error bars

    The clipping assigns into the loaded array in place, so the arrays of
    this cell live in a heap of array objects (an object is its position
    in the heap) and the two lists hold references. *)
Module MeanPlot.

Record variables : Type := Variables {
  heap : list ndarray;
  gaussian_across_photons : list nat;
  pixelcnn_across_photons : list nat;
  (** the arguments of each call to [confidence_bars], as the arrays
      stood when it was called *)
  confidence_bars_calls : list (list ndarray * Z)
}.

Definition set_heap (h : list ndarray) (v : variables) :=
  Variables h (gaussian_across_photons v) (pixelcnn_across_photons v)
            (confidence_bars_calls v).
Definition set_gaussian_across_photons (l : list nat) (v : variables) :=
  Variables (heap v) l (pixelcnn_across_photons v) (confidence_bars_calls v).
Definition set_pixelcnn_across_photons (l : list nat) (v : variables) :=
  Variables (heap v) (gaussian_across_photons v) l (confidence_bars_calls v).
Definition set_confidence_bars_calls (l : list (list ndarray * Z)) (v : variables) :=
  Variables (heap v) (gaussian_across_photons v) (pixelcnn_across_photons v) l.

(** A new array object. *)
Definition alloc (a : ndarray) : cell variables nat :=
  ref ← get (λ v, length (heap v));
  _ ← modify (λ v, set_heap (heap v ++ [a]) v);
  mret ref.

Definition deref (ref : nat) : cell variables ndarray :=
  h ← get heap;
  match h !! ref with
  | Some a => mret a
  | None => lift (Raise IndexError)
  end.

Definition store (ref : nat) (a : ndarray) : cell variables unit :=
  modify (λ v, set_heap (<[ref := a]> (heap v)) v).

(** The contents of a list of arrays. *)
Definition snapshot (h : list ndarray) (refs : list nat) : option (list ndarray) :=
  mapM (M := option) (λ ref, h !! ref) refs.

Section Run.
Variable fs : files.
Variables (mi_folder : string) (psf_names : list string)
          (mean_photon_count_list : list Z).
(** [confidence_bars] comes from [lensless_helpers], which is not part
    of the sources at hand; the cell only hands it the arrays. *)
Variable confidence_bars :
  list ndarray → Z → result (list Q * list Q * list Q).

Definition call_confidence_bars (refs : list nat) (num_trials : Z)
    : cell variables (list Q * list Q * list Q) :=
  h ← get heap;
  match snapshot h refs with
  | Some arrays =>
    _ ← modify (λ v, set_confidence_bars_calls
                       (confidence_bars_calls v ++ [(arrays, num_trials)]) v);
    lift (confidence_bars arrays num_trials)
  | None => lift (Raise IndexError)
  end.

Definition load_photon_count (psf_name : string) (photon_count : Z)
    : cell variables unit :=
  gaussian_path ← lift (gaussian_mi_path mi_folder photon_count psf_name);
  gaussian_contents ← np_load fs gaussian_path;
  gaussian_mi_estimate ← alloc gaussian_contents;
  pixelcnn_path ← lift (pixelcnn_mi_path mi_folder photon_count psf_name);
  pixelcnn_contents ← np_load fs pixelcnn_path;
  pixelcnn_mi_estimate ← alloc pixelcnn_contents;
  x ← deref pixelcnn_mi_estimate;
  clipped ← lift (pixelcnn_clip x);
  _ ← store pixelcnn_mi_estimate clipped;
  _ ← modify (λ v, set_gaussian_across_photons
                     (gaussian_across_photons v ++ [gaussian_mi_estimate]) v);
  modify (λ v, set_pixelcnn_across_photons
                 (pixelcnn_across_photons v ++ [pixelcnn_mi_estimate]) v).

Definition plot_psf (psf_name : string) : cell variables unit :=
  _ ← modify (set_gaussian_across_photons []);
  _ ← modify (set_pixelcnn_across_photons []);
  _ ← for_each mean_photon_count_list (load_photon_count psf_name);
  gaussian_refs ← get gaussian_across_photons;
  _ ← call_confidence_bars gaussian_refs 9;
  pixelcnn_refs ← get pixelcnn_across_photons;
  _ ← call_confidence_bars pixelcnn_refs 9;
  mret ().

Definition run : cell variables unit := for_each psf_names plot_psf.
End Run.

Definition notebook (fs : files) confidence_bars : cell variables unit :=
  run fs mi_folder psf_names mean_photon_count_list confidence_bars.

End MeanPlot.

(** *** Loading the classification results *)
Module Classifier.

Record variables : Type := Variables {
  classifier_across_photons : list ndarray;
  classifier_all_trials_across_psfs : list (list ndarray)
}.

Definition set_classifier_across_photons (l : list ndarray) (v : variables) :=
  Variables l (classifier_all_trials_across_psfs v).
Definition set_classifier_all_trials_across_psfs (l : list (list ndarray))
    (v : variables) :=
  Variables (classifier_across_photons v) l.

(** [np.array(rows)] on a list of flat arrays: the rows must have one
    length to be stacked. *)
Definition np_array (rows : list ndarray) : result (list ndarray) :=
  if same_length rows then Ok rows
  else Raise (ValueError "inhomogeneous shape").

(** [np.array(grids)] on a list of two-dimensional arrays: the grids
    must have one shape. *)
Definition same_shape (grids : list (list ndarray)) : bool :=
  match grids with
  | [] => true
  | g :: grids' =>
    forallb (λ g', bool_decide (length <$> g' = length <$> g)) grids'
  end.

Definition np_array3 (grids : list (list ndarray)) : result (list (list ndarray)) :=
  if same_shape grids then Ok grids
  else Raise (ValueError "inhomogeneous shape").

Section Run.
Variable fs : files.
Variables (classifier_folder : string) (psf_names : list string)
          (mean_photon_count_list : list Z) (bias : Z).

Definition load_photon_count (psf_name : string) (photon_count : Z)
    : cell variables unit :=
  path ← lift (classifier_path classifier_folder photon_count psf_name bias "cnn");
  result ← np_load fs path;
  modify (λ v, set_classifier_across_photons
                 (classifier_across_photons v ++ [result]) v).

Definition load_psf (psf_name : string) : cell variables unit :=
  _ ← modify (set_classifier_across_photons []);
  _ ← for_each mean_photon_count_list (load_photon_count psf_name);
  rows ← get classifier_across_photons;
  stacked ← lift (np_array rows);
  _ ← modify (set_classifier_across_photons stacked);
  modify (λ v, set_classifier_all_trials_across_psfs
                 (classifier_all_trials_across_psfs v ++ [stacked]) v).

Definition run : cell variables unit :=
  _ ← modify (set_classifier_all_trials_across_psfs []);
  _ ← for_each psf_names load_psf;
  grids ← get classifier_all_trials_across_psfs;
  stacked ← lift (np_array3 grids);
  modify (set_classifier_all_trials_across_psfs stacked).
End Run.

Definition notebook (fs : files) : cell variables unit :=
  run fs classifier_folder psf_names mean_photon_count_list bias.

End Classifier.

(** *** Classifier error bars against the MI estimates

    [np.percentile(trials, 100 - 100 * (1 + confidence_level) / 2)] and
    [np.percentile(trials, 100 * (1 + confidence_level) / 2)] *)

Definition lower_rank (confidence_level : Q) : Q :=
  (100 - 100 * (1 + confidence_level) / 2)%Q.
Definition upper_rank (confidence_level : Q) : Q :=
  (100 * (1 + confidence_level) / 2)%Q.

(** [a[i][j]] *)
Definition getitem2 {A} (a : list (list A)) (i j : nat) : result A :=
  match a !! i with
  | Some row =>
    match row !! j with
    | Some x => Ok x
    | None => Raise IndexError
    end
  | None => Raise IndexError
  end.

Module ErrorBars.

Record variables : Type := Variables {
  mi_means_across_photons : list Q;
  classifier_means_across_photons : list float64;
  classifier_lower_across_photons : list float64;
  classifier_upper_across_photons : list float64;
  (** what [ax.plot] and [ax.fill_between] were given for each PSF: the
      MI values, the means, the lower and the upper bounds *)
  plotted : list (list Q * list float64 * list float64 * list float64)
}.

Definition set_mi_means_across_photons (l : list Q) (v : variables) :=
  Variables l (classifier_means_across_photons v)
            (classifier_lower_across_photons v)
            (classifier_upper_across_photons v) (plotted v).
Definition set_classifier_means_across_photons (l : list float64) (v : variables) :=
  Variables (mi_means_across_photons v) l
            (classifier_lower_across_photons v)
            (classifier_upper_across_photons v) (plotted v).
Definition set_classifier_lower_across_photons (l : list float64) (v : variables) :=
  Variables (mi_means_across_photons v) (classifier_means_across_photons v) l
            (classifier_upper_across_photons v) (plotted v).
Definition set_classifier_upper_across_photons (l : list float64) (v : variables) :=
  Variables (mi_means_across_photons v) (classifier_means_across_photons v)
            (classifier_lower_across_photons v) l (plotted v).
Definition set_plotted l (v : variables) :=
  Variables (mi_means_across_photons v) (classifier_means_across_photons v)
            (classifier_lower_across_photons v)
            (classifier_upper_across_photons v) l.

Section Run.
Variable percentile_of_empty : result float64.
Variable confidence_level : Q.
Variables (mi_list_use : list ndarray)
          (classifier_all_trials_across_psfs : list (list ndarray)).
Variables (psf_names : list string) (mean_photon_count_list : list Z)
          (valid_psfs : list nat) (valid_photon_counts : list Z).

Definition photon_step (psf_idx : nat) (psf_name : string)
    (photon : nat * Z) : cell variables unit :=
  let '(photon_idx, photon_count) := photon in
  if bool_decide (photon_count ∈ valid_photon_counts) then
    mi_value ← lift (getitem2 mi_list_use psf_idx photon_idx);
    classifier_10_trials ←
      lift (getitem2 classifier_all_trials_across_psfs psf_idx photon_idx);
    let classifier_mean := np_mean classifier_10_trials in
    _ ← lift (marker_for_psf psf_name);
    _ ← modify (λ v, set_mi_means_across_photons
                       (mi_means_across_photons v ++ [mi_value]) v);
    _ ← modify (λ v, set_classifier_means_across_photons
                       (classifier_means_across_photons v ++ [classifier_mean]) v);
    lower ← lift (np_percentile percentile_of_empty classifier_10_trials
                                (lower_rank confidence_level));
    _ ← modify (λ v, set_classifier_lower_across_photons
                       (classifier_lower_across_photons v ++ [lower]) v);
    upper ← lift (np_percentile percentile_of_empty classifier_10_trials
                                (upper_rank confidence_level));
    modify (λ v, set_classifier_upper_across_photons
                   (classifier_upper_across_photons v ++ [upper]) v)
  else mret ().

Definition psf_step (psf : nat * string) : cell variables unit :=
  let '(psf_idx, psf_name) := psf in
  if bool_decide (psf_idx ∈ valid_psfs) then
    _ ← modify (set_mi_means_across_photons []);
    _ ← modify (set_classifier_means_across_photons []);
    _ ← modify (set_classifier_lower_across_photons []);
    _ ← modify (set_classifier_upper_across_photons []);
    _ ← for_each (enumerate mean_photon_count_list)
                 (photon_step psf_idx psf_name);
    modify (λ v, set_plotted
                   (plotted v ++ [(mi_means_across_photons v,
                                   classifier_means_across_photons v,
                                   classifier_lower_across_photons v,
                                   classifier_upper_across_photons v)]) v)
  else mret ().

Definition run : cell variables unit :=
  for_each (enumerate psf_names) psf_step.
End Run.

(** The cell with the notebook's settings: [confidence_level = 0.9],
    every PSF and every photon count selected. *)
Definition notebook percentile_of_empty mi_list_use classifier_all_trials_across_psfs
    : cell variables unit :=
  run percentile_of_empty (9 # 10) mi_list_use classifier_all_trials_across_psfs
      psf_names mean_photon_count_list [0; 1; 2]%nat
      [20; 40; 60; 80; 100; 150; 200; 250; 300]%Z.

End ErrorBars.

(** The trials of the conditions that the cell selects: those whose
    photon count is among [valid_photon_counts]. *)
Definition selected_trials (valid_photon_counts mean_photon_count_list : list Z)
    (trials_per_condition : list ndarray) : list ndarray :=
  snd <$> filter (λ p, p.1 ∈ valid_photon_counts)
                 (zip mean_photon_count_list trials_per_condition).

(** The sample 1, 2, ..., 100. *)
Definition uniform_sample : ndarray :=
  (λ n, inject_Z (Z.of_nat n)) <$> seq 1 100.

(** ** What the cells are expected to read

    The names of the artifacts in closed form (see [gaussian_mi_path_Ok]
    and its siblings), and the contents saved under a name. *)

Definition gaussian_file (folder : string) (photon_count : Z) (psf_name : string)
    : string :=
  folder +:+ "cifar10_mi_estimates/gaussian_mi_estimate_" +:+
  str (PyInt photon_count) +:+ "_photon_count_" +:+ psf_name +:+ "_psf.npy".

Definition pixelcnn_file (folder : string) (photon_count : Z) (psf_name : string)
    : string :=
  folder +:+ "cifar10_mi_estimates/pixelcnn_mi_estimate_" +:+
  str (PyInt photon_count) +:+ "_photon_count_" +:+ psf_name +:+ "_psf.npy".

Definition classifier_file (folder : string) (photon_count : Z) (psf_name : string)
    (bias : Z) (model : string) : string :=
  folder +:+ "classifier_results/cifar_test_accuracy_" +:+
  str (PyInt photon_count) +:+ "_mean_photon_count_" +:+ psf_name +:+
  "_psf_" +:+ str (PyInt bias) +:+ "_bias_" +:+ model +:+ "_model.npy".

Definition stored (fs : files) (path : string) : ndarray :=
  default [] (fs !! path).

(** The MI artifacts of a PSF, in the order in which the loops open
    them. *)
Definition mi_files (folder : string) (psf_name : string)
    (photon_counts : list Z) : list string :=
  photon_counts ≫= λ photon_count,
    [gaussian_file folder photon_count psf_name;
     pixelcnn_file folder photon_count psf_name].

Definition gaussian_arrays (fs : files) (folder : string) (psf_name : string)
    (photon_counts : list Z) : list ndarray :=
  (λ photon_count, stored fs (gaussian_file folder photon_count psf_name))
    <$> photon_counts.

Definition pixelcnn_arrays (fs : files) (folder : string) (psf_name : string)
    (photon_counts : list Z) : list ndarray :=
  (λ photon_count, stored fs (pixelcnn_file folder photon_count psf_name))
    <$> photon_counts.

Definition classifier_arrays (fs : files) (folder : string) (bias : Z)
    (psf_name : string) (photon_counts : list Z) : list ndarray :=
  (λ photon_count,
     stored fs (classifier_file folder photon_count psf_name bias "cnn"))
    <$> photon_counts.

(** The array after the clipping of the mean-plot cell (an empty array
    makes the cell raise and is never handed on). *)
Definition clipped (a : ndarray) : ndarray :=
  match pixelcnn_clip a with
  | Ok r => r
  | Raise _ => a
  end.

(** The calls of [confidence_bars] that the mean-plot cell makes when
    nothing raises: per PSF, the Gaussian arrays as they were saved, then
    the PixelCNN arrays after the clipping. *)
Definition expected_calls (fs : files) (folder : string) (psf_names : list string)
    (photon_counts : list Z) : list (list ndarray * Z) :=
  psf_names ≫= λ psf_name,
    [(gaussian_arrays fs folder psf_name photon_counts, 9%Z);
     (clipped <$> pixelcnn_arrays fs folder psf_name photon_counts, 9%Z)].

(** A small artifact store: the MI files of PSF [one] at 20 and 40
    photons and of PSF [four] at 20 photons, two trials each. *)
Definition example_files : files :=
  list_to_map ((λ path, (path, [1; 2]%Q)) <$>
               (mi_files "" "one" [20; 40]%Z ++ mi_files "" "four" [20]%Z)).

(** Classifier results with three trials per file. *)
Definition example_classifier_files : files :=
  list_to_map ((λ pc, (classifier_file "" pc "one" 10 "cnn", [1; 2; 3]%Q)) <$>
               [20; 40]%Z).

(** MI estimates with an outlying trial in both estimators. *)
Definition example_outlier_files : files :=
  list_to_map [(gaussian_file "" 20 "one", [1; 5]%Q);
               (pixelcnn_file "" 20 "one", [1; 5]%Q)].

(** ** The bar charts and the scatter plots *)

(** The markers and the legend labels of the scatter plots. *)
Definition marker_list : list string := ["^"; "s"; "D"].
Definition psf_name_labels : list string := ["One Lens"; "Four Lens"; "Diffuser"].

(** [np.argwhere(np.array(xs) == x)[0][0]]: the first index that holds
    [x]; when no entry is [x], [argwhere] returns no row and [[0]] raises
    [IndexError]. *)
Fixpoint argwhere_first (xs : list Z) (x : Z) : result nat :=
  match xs with
  | [] => Raise IndexError
  | y :: xs' =>
    if bool_decide (y = x) then Ok 0%nat else S <$> argwhere_first xs' x
  end.

(** [a[i]] on a list or on the first axis of an array, for an index that
    is not negative. *)
Definition getitem1 {A} (a : list A) (i : nat) : result A :=
  match a !! i with
  | Some x => Ok x
  | None => Raise IndexError
  end.

(** [a[:, j]] on an array made by [np.array] from a list of rows: the
    entry [j] of every row.  The array of an empty list has one
    dimension and takes no second index. *)
Definition column (a : list ndarray) (j : nat) : result ndarray :=
  match a with
  | [] => Raise IndexError
  | _ => mapM (M := result) (λ row, getitem1 row j) a
  end.

(** The bar-chart cells: the heights handed to [plt.bar]. *)
Definition mi_photon_val (mean_photon_count_list : list Z)
    (pixelcnn_mi_estimates_across_psfs : list ndarray) (photon_level : Z)
    : result ndarray :=
  photon_level_idx ← argwhere_first mean_photon_count_list photon_level;
  column pixelcnn_mi_estimates_across_psfs photon_level_idx.

(** [[a[i] for i in range(len(a)) if i % mod_idx_plot == mod_idx_shift]],
    with [mod_idx_plot] one of the positive literals of the cells. *)
Definition select_indices (mod_idx_plot : positive) (mod_idx_shift : nat)
    (a : ndarray) : ndarray :=
  omap (λ i, a !! i)
       (filter (λ i, i mod Pos.to_nat mod_idx_plot = mod_idx_shift)
               (seq 0 (length a))).

(** *** The scatter plots of accuracy against MI

    One turn of the loop over the two estimators.  The state keeps the
    legend handles and what [plt.plot] was given: for a marker, the two
    coordinates, the format and the photon count that picks the colour;
    for a dashed line, its abscissas and ordinates. *)
Module ScatterPlot.

Record variables : Type := Variables {
  psf_label_list : list (string * string);
  markers : list (Q * Q * string * Z);
  lines : list (list Q * list Q)
}.

Definition set_psf_label_list l (v : variables) :=
  Variables l (markers v) (lines v).
Definition set_markers l (v : variables) :=
  Variables (psf_label_list v) l (lines v).
Definition set_lines l (v : variables) :=
  Variables (psf_label_list v) (markers v) l.

Section Run.
Variables (mod_idx_plot : positive) (mod_idx_shift : nat).
Variables (psf_names : list string) (mean_photon_count_list : list Z).
Variable classifier_across_psfs : list ndarray.
Variable mi_estimate_list : list ndarray.

Definition legend_step (i : nat) : cell variables unit :=
  marker ← lift (getitem1 marker_list i);
  label ← lift (getitem1 psf_name_labels i);
  modify (λ v, set_psf_label_list (psf_label_list v ++ [(marker, label)]) v).

Definition marker_step (photon_level_idx : nat)
    (mi_photon_val mean_list_fixed_photon_level : ndarray)
    (label : nat * string) : cell variables unit :=
  let '(i, txt) := label in
  x ← lift (getitem1 mi_photon_val i);
  y ← lift (getitem1 mean_list_fixed_photon_level i);
  marker ← lift (getitem1 marker_list i);
  photons ← lift (getitem1 mean_photon_count_list photon_level_idx);
  modify (λ v, set_markers (markers v ++ [(x, y, marker, photons)]) v).

Definition photon_level_step (photon_level : Z) : cell variables unit :=
  photon_level_idx ← lift (argwhere_first mean_photon_count_list photon_level);
  mi_photon_val ← lift (column mi_estimate_list photon_level_idx);
  if bool_decide (photon_level_idx mod Pos.to_nat mod_idx_plot = mod_idx_shift)
  then
    mean_list_fixed_photon_level ←
      lift (column classifier_across_psfs photon_level_idx);
    for_each (enumerate psf_name_labels)
             (marker_step photon_level_idx mi_photon_val
                          mean_list_fixed_photon_level)
  else mret ().

(** [plt.plot(xs, ys)] refuses sequences of different lengths. *)
Definition line_step (psf : nat * string) : cell variables unit :=
  let '(psf_idx, psf_name) := psf in
  classification_accuracy_across_photons_fixed_psf ←
    lift (getitem1 classifier_across_psfs psf_idx);
  mi_psf_val ← lift (getitem1 mi_estimate_list psf_idx);
  let classification_accuracy_across_select_indices :=
    select_indices mod_idx_plot mod_idx_shift
                   classification_accuracy_across_photons_fixed_psf in
  let mi_across_photon_select_indices :=
    select_indices mod_idx_plot mod_idx_shift mi_psf_val in
  if bool_decide (length mi_across_photon_select_indices =
                  length classification_accuracy_across_select_indices)
  then modify (λ v, set_lines
                      (lines v ++ [(mi_across_photon_select_indices,
                                    classification_accuracy_across_select_indices)]) v)
  else lift (Raise (ValueError "x and y must have same first dimension")).

Definition figure : cell variables unit :=
  _ ← modify (set_psf_label_list []);
  _ ← for_each (seq 0 (length psf_name_labels)) legend_step;
  _ ← for_each mean_photon_count_list photon_level_step;
  for_each (enumerate psf_names) line_step.
End Run.

End ScatterPlot.

(** [c] does not occur in [s]. *)
Fixpoint char_free (c : ascii) (s : string) : Prop :=
  match s with
  | EmptyString => True
  | String c' s' => c' ≠ c ∧ char_free c s'
  end.

(** The percentile of trials that are not empty, for a rank within
    [0, 100]. *)
Definition percentile_value (trials : ndarray) (q : Q) : float64 :=
  match percentile_linear trials q with
  | Some v => Fin v
  | None => NaN
  end.

(** The band that the error-bar cell draws for a PSF when nothing
    raises: for each selected photon count in order, the MI estimate,
    the mean of the trials and their two percentiles. *)
Definition expected_band (confidence_level : Q) (valid_photon_counts : list Z)
    (mean_photon_count_list : list Z) (mi_row : ndarray) (trials_row : list ndarray)
    : list Q * list float64 * list float64 * list float64 :=
  let selected :=
    filter (λ c, c.1 ∈ valid_photon_counts)
           (zip mean_photon_count_list (zip mi_row trials_row)) in
  ((λ c, c.2.1) <$> selected,
   (λ c, np_mean c.2.2) <$> selected,
   (λ c, percentile_value c.2.2 (lower_rank confidence_level)) <$> selected,
   (λ c, percentile_value c.2.2 (upper_rank confidence_level)) <$> selected).

(** The percentile as the specification has it, by the standard linear
    interpolation: with the values in ascending order and
    [h = (n - 1) * q / 100], the [q]-th percentile lies between the
    values of ranks [floor h] and [floor h + 1], at the fraction
    [h - floor h] of the way. *)
Definition spec_percentile (values : ndarray) (q v : Q) : Prop :=
  ∃ (ascending : ndarray) (below above : Q),
    ascending ≡ₚ values ∧ StronglySorted Qle ascending ∧
    let h := ((inject_Z (Z.of_nat (length values)) - 1) * q / 100)%Q in
    let k := Z.to_nat (Qfloor h) in
    ascending !! k = Some below ∧
    ascending !! Nat.min (S k) (length values - 1) = Some above ∧
    (v == below + (h - inject_Z (Qfloor h)) * (above - below))%Q.

(** * Properties *)

(** ** Comparisons on rationals *)

Lemma Qltb_lt (x y : Q) : Qltb x y = true ↔ (x < y)%Q.
Proof.
  unfold Qltb. rewrite negb_true_iff. split.
  - intros H. apply Qnot_le_lt. intros Hle.
    apply Qle_bool_iff in Hle. congruence.
  - intros H. destruct (Qle_bool y x) eqn:E; [|done].
    apply Qle_bool_iff in E. lra.
Qed.

Lemma Qltb_ge (x y : Q) : Qltb x y = false ↔ (y <= x)%Q.
Proof.
  unfold Qltb. rewrite negb_false_iff. apply Qle_bool_iff.
Qed.

#[export] Instance Qltb_proper : Proper (Qeq ==> Qeq ==> eq) Qltb.
Proof.
  intros x x' Hx y y' Hy. unfold Qltb. f_equal. by apply Qleb_comp.
Qed.

Ltac Qcases b :=
  let E := fresh "E" in
  destruct b eqn:E;
  [ first [ apply Qltb_lt in E | apply Qle_bool_iff in E | apply Qeq_bool_iff in E ]
  | first [ apply Qltb_ge in E
          | apply not_true_iff_false in E; rewrite Qle_bool_iff in E
          | apply Qeq_bool_neq in E ] ].

(** ** Minimum and maximum of an array *)

Lemma reduce_min_le_acc (a : ndarray) (acc : Q) : (reduce_min acc a <= acc)%Q.
Proof.
  revert acc. induction a as [|v a IH]; intros acc; simpl; [lra|].
  Qcases (Qltb v acc); specialize (IH (if Qltb v acc then v else acc));
    rewrite ?(proj2 (Qltb_lt _ _)), ?(proj2 (Qltb_ge _ _)) in IH by done; lra.
Qed.

Lemma reduce_min_lower (a : ndarray) (acc v : Q) :
  v ∈ a → (reduce_min acc a <= v)%Q.
Proof.
  revert acc. induction a as [|w a IH]; intros acc Hin; [by apply elem_of_nil in Hin|].
  apply elem_of_cons in Hin as [->|Hin]; simpl.
  - pose proof (reduce_min_le_acc a (if Qltb w acc then w else acc)) as H.
    Qcases (Qltb w acc); lra.
  - by apply IH.
Qed.

Lemma reduce_min_elem (a : ndarray) (acc : Q) :
  reduce_min acc a = acc ∨ reduce_min acc a ∈ a.
Proof.
  revert acc. induction a as [|w a IH]; intros acc; simpl; [by left|].
  destruct (IH (if Qltb w acc then w else acc)) as [->|Hin].
  - destruct (Qltb w acc); [right; left | by left].
  - right. by right.
Qed.

Lemma reduce_max_ge_acc (a : ndarray) (acc : Q) : (acc <= reduce_max acc a)%Q.
Proof.
  revert acc. induction a as [|v a IH]; intros acc; simpl; [lra|].
  specialize (IH (if Qltb acc v then v else acc)).
  Qcases (Qltb acc v); lra.
Qed.

Lemma reduce_max_upper (a : ndarray) (acc v : Q) :
  v ∈ a → (v <= reduce_max acc a)%Q.
Proof.
  revert acc. induction a as [|w a IH]; intros acc Hin; [by apply elem_of_nil in Hin|].
  apply elem_of_cons in Hin as [->|Hin]; simpl.
  - pose proof (reduce_max_ge_acc a (if Qltb acc w then w else acc)) as H.
    Qcases (Qltb acc w); lra.
  - by apply IH.
Qed.

Lemma reduce_max_elem (a : ndarray) (acc : Q) :
  reduce_max acc a = acc ∨ reduce_max acc a ∈ a.
Proof.
  revert acc. induction a as [|w a IH]; intros acc; simpl; [by left|].
  destruct (IH (if Qltb acc w then w else acc)) as [->|Hin].
  - destruct (Qltb acc w); [right; left | by left].
  - right. by right.
Qed.

Lemma np_min_Ok (a : ndarray) (lo : Q) :
  np_min a = Ok lo → lo ∈ a ∧ ∀ v, v ∈ a → (lo <= v)%Q.
Proof.
  destruct a as [|w a]; simpl; [done|]. intros [= <-]. split.
  - destruct (reduce_min_elem a w) as [->|Hin]; [left | by right].
  - intros v [->|Hin]%elem_of_cons.
    + apply reduce_min_le_acc.
    + by apply reduce_min_lower.
Qed.

Lemma np_max_Ok (a : ndarray) (hi : Q) :
  np_max a = Ok hi → hi ∈ a ∧ ∀ v, v ∈ a → (v <= hi)%Q.
Proof.
  destruct a as [|w a]; simpl; [done|]. intros [= <-]. split.
  - destruct (reduce_max_elem a w) as [->|Hin]; [left | by right].
  - intros v [->|Hin]%elem_of_cons.
    + apply reduce_max_ge_acc.
    + by apply reduce_max_upper.
Qed.

Lemma np_min_nonempty (a : ndarray) : a ≠ [] → ∃ lo, np_min a = Ok lo.
Proof. destruct a; [done|]. simpl. eauto. Qed.

Lemma np_max_nonempty (a : ndarray) : a ≠ [] → ∃ hi, np_max a = Ok hi.
Proof. destruct a; [done|]. simpl. eauto. Qed.

Lemma np_min_Ok_nonempty (a : ndarray) (lo : Q) : np_min a = Ok lo → a ≠ [].
Proof. by destruct a. Qed.

(** ** Outlier clipping *)

Lemma setitem_mask_map (x : ndarray) (f : Q → bool) (value : Q) :
  setitem_mask x (map f x) value = map (λ v, if f v then value else v) x.
Proof.
  unfold setitem_mask. induction x as [|v x IH]; simpl; [done|]. by rewrite IH.
Qed.

Lemma np_divide_nonzero (a b : Q) (b_sign : zero_sign) :
  ¬ (b == 0)%Q → np_divide a b b_sign = Fin (a / b).
Proof.
  intros Hb. unfold np_divide. Qcases (Qeq_bool b 0); [done|done].
Qed.

Lemma outlier_clip_signed_unfold (min_sign : zero_sign) (t : Q) (x : ndarray)
    (hi lo : Q) :
  np_max x = Ok hi → np_min x = Ok lo →
  outlier_clip_signed min_sign t x =
    if float64_gt (np_divide hi lo min_sign) t
    then Ok (map (λ v, if Qltb (t * lo) v then lo else v) x)
    else Ok x.
Proof.
  intros Hhi Hlo. unfold outlier_clip_signed. rewrite Hhi, Hlo. simpl.
  by rewrite setitem_mask_map.
Qed.

Lemma outlier_clip_unfold (t : Q) (x : ndarray) (hi lo : Q) :
  np_max x = Ok hi → np_min x = Ok lo →
  outlier_clip t x =
    if float64_gt (np_divide hi lo PosZero) t
    then Ok (map (λ v, if Qltb (t * lo) v then lo else v) x)
    else Ok x.
Proof. apply outlier_clip_signed_unfold. Qed.

(** C1. After the clipping of a sequence of positive values, the largest
    value is at most [ratio_threshold] times the smallest, for every
    threshold above 1 (the notebook's threshold is 2). *)
Theorem outlier_clip_ratio_bound (ratio_threshold : Q) (v : ndarray) (lo : Q) :
  (1 < ratio_threshold)%Q → np_min v = Ok lo → (0 < lo)%Q →
  ∃ r hi' lo',
    outlier_clip ratio_threshold v = Ok r ∧
    np_max r = Ok hi' ∧ np_min r = Ok lo' ∧
    (0 < lo')%Q ∧ (hi' / lo' <= ratio_threshold)%Q.
Proof.
  intros Ht Hlo Hpos.
  destruct (np_max_nonempty v) as [hi Hhi]; [by eapply np_min_Ok_nonempty|].
  rewrite (outlier_clip_unfold _ _ _ _ Hhi Hlo).
  rewrite np_divide_nonzero by lra. simpl.
  Qcases (Qltb ratio_threshold (hi / lo)).
  - set (r := map _ v).
    assert (r ≠ []) as Hr.
    { subst r. apply np_min_Ok_nonempty in Hlo. by destruct v. }
    destruct (np_max_nonempty r Hr) as [hi' Hhi'].
    destruct (np_min_nonempty r Hr) as [lo' Hlo'].
    assert (∀ w, w ∈ r → (lo <= w ∧ w <= ratio_threshold * lo)%Q) as Hbounds.
    { intros w (u & -> & Hu)%list_elem_of_fmap.
      apply np_min_Ok in Hlo as [_ Hlo]. specialize (Hlo u Hu).
      Qcases (Qltb (ratio_threshold * lo) u); nra. }
    apply np_max_Ok in Hhi' as Hhi''. destruct Hhi'' as [Hin_hi _].
    apply np_min_Ok in Hlo' as Hlo''. destruct Hlo'' as [Hin_lo _].
    apply Hbounds in Hin_hi, Hin_lo.
    exists r, hi', lo'. repeat split; [done..|lra|].
    apply Qle_shift_div_r; nra.
  - exists v, hi, lo. repeat split; done.
Qed.

Lemma outlier_clip_ratio_bound_witness :
  ∃ r hi' lo',
    outlier_clip 2 [1; 3; 2; 5]%Q = Ok r ∧
    np_max r = Ok hi' ∧ np_min r = Ok lo' ∧
    (0 < lo')%Q ∧ (hi' / lo' <= 2)%Q.
Proof.
  apply (outlier_clip_ratio_bound 2 [1; 3; 2; 5]%Q 1); [lra|reflexivity|lra].
Defined.

(** C2 as the specification states it does not hold: with a minimum of
    zero and a positive maximum the quotient is [+inf], the branch is
    taken and the positive values are overwritten. *)
Lemma outlier_clip_zero_min_counterexample :
  ¬ (∀ (values : ndarray) (lo : Q),
       np_min values = Ok lo → (lo <= 0)%Q →
       pixelcnn_clip values = Ok values).
Proof.
  intros H. specialize (H [0; 1]%Q 0%Q eq_refl). 
  assert (0 <= 0)%Q as H0 by lra. specialize (H H0).
  vm_compute in H. discriminate H.
Qed.

Lemma Qdiv_le_1_neg (hi lo : Q) : (lo < 0)%Q → (lo <= hi)%Q → (hi / lo <= 1)%Q.
Proof.
  intros Hlo Hle.
  assert (hi / lo == (- hi) / (- lo))%Q as -> by (field; lra).
  apply Qle_shift_div_r; lra.
Qed.

(** C2, amended. The quotient is always evaluated and never raises. With
    a negative minimum, or with no positive value at all, the test fails
    and the array is left as it is.  With a minimum of zero and a
    positive maximum the sign of the zero decides: for the positive zero
    the quotient is [+inf] and every positive value is replaced by the
    minimum; for the negative zero the quotient is [-inf] and the array
    is left as it is. *)
Theorem outlier_clip_nonpositive_min (min_sign : zero_sign) (ratio_threshold : Q)
    (v : ndarray) (lo hi : Q) :
  (1 <= ratio_threshold)%Q →
  np_min v = Ok lo → np_max v = Ok hi → (lo <= 0)%Q →
  (∃ r, outlier_clip_signed min_sign ratio_threshold v = Ok r) ∧
  ((lo < 0 ∨ hi <= 0)%Q → outlier_clip_signed min_sign ratio_threshold v = Ok v) ∧
  ((lo == 0 ∧ 0 < hi)%Q →
     np_divide hi lo PosZero = PInf ∧
     outlier_clip_signed PosZero ratio_threshold v =
       Ok (map (λ x, if Qltb 0 x then lo else x) v) ∧
     np_divide hi lo NegZero = NInf ∧
     outlier_clip_signed NegZero ratio_threshold v = Ok v).
Proof.
  intros Ht Hlo Hhi Hle.
  rewrite !(outlier_clip_signed_unfold _ _ _ _ _ Hhi Hlo).
  assert (lo <= hi)%Q as Hlohi.
  { apply np_max_Ok in Hhi as [Hin _]. apply np_min_Ok in Hlo as [_ Hlo]. auto. }
  split; [destruct (float64_gt _ _); eauto|]. split.
  - intros Hcase. unfold np_divide.
    Qcases (Qeq_bool lo 0).
    + assert (hi == 0)%Q as Hz by (destruct Hcase; lra).
      apply Qeq_bool_iff in Hz. by rewrite Hz.
    + simpl. assert (lo < 0)%Q as Hneg by lra.
      pose proof (Qdiv_le_1_neg hi lo Hneg Hlohi) as Hq.
      rewrite (proj2 (Qltb_ge _ _)); [done|lra].
  - intros [Hz Hhipos]. unfold np_divide.
    rewrite (proj2 (Qeq_bool_iff lo 0) Hz).
    Qcases (Qeq_bool hi 0); [lra|].
    rewrite (proj2 (Qltb_lt 0 hi) Hhipos). simpl. split; [done|].
    split; [|done].
    f_equal. apply map_ext. intros x.
    assert (ratio_threshold * lo == 0)%Q as -> by (rewrite Hz; ring). done.
Qed.

Lemma outlier_clip_nonpositive_min_witness :
  (∃ r, outlier_clip_signed NegZero 2 [0; 1; 3]%Q = Ok r) ∧
  ((0 < 0 ∨ 3 <= 0)%Q → outlier_clip_signed NegZero 2 [0; 1; 3]%Q = Ok [0; 1; 3]%Q) ∧
  ((0 == 0 ∧ 0 < 3)%Q →
     np_divide 3 0 PosZero = PInf ∧
     outlier_clip_signed PosZero 2 [0; 1; 3]%Q =
       Ok (map (λ x, if Qltb 0 x then 0%Q else x) [0; 1; 3]%Q) ∧
     np_divide 3 0 NegZero = NInf ∧
     outlier_clip_signed NegZero 2 [0; 1; 3]%Q = Ok [0; 1; 3]%Q).
Proof.
  apply (outlier_clip_nonpositive_min NegZero 2 [0; 1; 3]%Q 0 3);
    [lra|reflexivity|reflexivity|lra].
Defined.

(** ** The marker of a PSF *)

Lemma psf_label_set_elem (psf_name : string) :
  psf_name ∈ psf_label_set ↔
  psf_name = "one" ∨ psf_name = "four" ∨ psf_name = "diffuser" ∨
  psf_name = "uc" ∨ psf_name = "two".
Proof.
  unfold psf_label_set. rewrite !elem_of_union, !elem_of_singleton. tauto.
Qed.

Lemma marker_for_psf_Ok (psf_name : string) :
  psf_name ∈ psf_label_set → ∃ marker, marker_for_psf psf_name = Ok marker.
Proof.
  intros [->|[->|[->|[->| ->]]]]%psf_label_set_elem; by eexists.
Qed.

(** C9. Outside the five labels [marker_for_psf] raises (the local
    [marker] is unbound at the [return]); on the five labels it returns
    markers that differ from one label to the next. *)
Theorem marker_for_psf_labels :
  (∀ psf_name, psf_name ∉ psf_label_set →
     marker_for_psf psf_name = Raise (UnboundLocalError "marker")) ∧
  (∀ a b, a ∈ psf_label_set → b ∈ psf_label_set →
     ∃ ma mb, marker_for_psf a = Ok ma ∧ marker_for_psf b = Ok mb ∧
              (a ≠ b → ma ≠ mb)).
Proof.
  split.
  - intros psf_name Hout. rewrite psf_label_set_elem in Hout.
    unfold marker_for_psf.
    repeat match goal with
    | |- context [String.eqb psf_name ?s] =>
        destruct (String.eqb_spec psf_name s); [exfalso; tauto|]
    end.
    done.
  - intros a b Ha%psf_label_set_elem Hb%psf_label_set_elem.
    destruct Ha as [->|[->|[->|[->| ->]]]];
      destruct Hb as [->|[->|[->|[->| ->]]]];
      (eexists _, _; split; [reflexivity|split; [reflexivity|]]);
      intros Hne; try done; by vm_compute.
Qed.

Lemma marker_for_psf_labels_witness :
  marker_for_psf "three" = Raise (UnboundLocalError "marker") ∧
  ∃ ma mb, marker_for_psf "one" = Ok ma ∧ marker_for_psf "uc" = Ok mb ∧
           ("one" ≠ "uc" → ma ≠ mb).
Proof.
  split.
  - apply (proj1 marker_for_psf_labels "three"). by vm_compute.
  - apply (proj2 marker_for_psf_labels "one" "uc"); by vm_compute.
Defined.

(** ** Artifact paths *)

Lemma string_app_assoc (s1 s2 s3 : string) :
  (s1 +:+ s2) +:+ s3 = s1 +:+ (s2 +:+ s3).
Proof.
  induction s1 as [|c s1 IH]; [done|].
  change (String c ((s1 +:+ s2) +:+ s3) = String c (s1 +:+ (s2 +:+ s3))).
  by rewrite IH.
Qed.

Lemma gaussian_mi_path_Ok (folder : string) (photon_count : Z) (psf_name : string) :
  gaussian_mi_path folder photon_count psf_name =
  Ok (gaussian_file folder photon_count psf_name).
Proof. reflexivity. Qed.

Lemma pixelcnn_mi_path_Ok (folder : string) (photon_count : Z) (psf_name : string) :
  pixelcnn_mi_path folder photon_count psf_name =
  Ok (pixelcnn_file folder photon_count psf_name).
Proof. reflexivity. Qed.

Lemma classifier_path_Ok (folder : string) (photon_count : Z) (psf_name : string)
    (bias : Z) (model : string) :
  classifier_path folder photon_count psf_name bias model =
  Ok (classifier_file folder photon_count psf_name bias model).
Proof. reflexivity. Qed.

(** C6 as the specification states it does not hold.  With the folder
    the notebook uses (the empty string) the paths are relative, while
    [<root>/...] starts with a separator; and when the folder is the root
    followed by the separator, no dataset label fits both conventions:
    the MI files say [cifar10], the classifier files say [cifar]. *)
Lemma artifact_path_counterexample :
  (¬ ∃ dataset,
     gaussian_mi_path mi_folder 20 "one" =
       Ok (spec_mi_path mi_folder dataset "gaussian" 20 "one")) ∧
  (¬ ∃ dataset,
     gaussian_mi_path "results/" 20 "one" =
       Ok (spec_mi_path "results" dataset "gaussian" 20 "one") ∧
     classifier_path "results/" 20 "one" bias "cnn" =
       Ok (spec_classifier_path "results" dataset 20 "one" bias "cnn")).
Proof.
  split.
  - intros [dataset H]. vm_compute in H. discriminate H.
  - intros [dataset [Hmi Hcl]].
    apply (f_equal (λ r, match r with Ok s => s | Raise _ => "" end)) in Hmi, Hcl.
    cbv in Hmi, Hcl.
    do 6 (destruct dataset as [|? dataset]; cbv in Hmi, Hcl;
          [try discriminate Hmi; discriminate Hcl|]).
    congruence.
Qed.

(** C6, amended. The folder is prepended as it is, with no separator of
    its own.  When the folder is the root followed by [/], the MI paths
    follow the convention with the dataset label [cifar10] and the
    classifier path follows it with the dataset label [cifar] and the
    model [cnn]. *)
Theorem artifact_path_convention (root folder : string) (photon_count : Z)
    (psf_name : string) (bias : Z) :
  gaussian_mi_path (root +:+ "/") photon_count psf_name =
    Ok (spec_mi_path root "cifar10" "gaussian" photon_count psf_name) ∧
  pixelcnn_mi_path (root +:+ "/") photon_count psf_name =
    Ok (spec_mi_path root "cifar10" "pixelcnn" photon_count psf_name) ∧
  classifier_path (root +:+ "/") photon_count psf_name bias "cnn" =
    Ok (spec_classifier_path root "cifar" photon_count psf_name bias "cnn") ∧
  gaussian_mi_path folder photon_count psf_name =
    Ok (folder +:+ "cifar10_mi_estimates/gaussian_mi_estimate_" +:+
        str (PyInt photon_count) +:+ "_photon_count_" +:+ psf_name +:+ "_psf.npy") ∧
  pixelcnn_mi_path folder photon_count psf_name =
    Ok (folder +:+ "cifar10_mi_estimates/pixelcnn_mi_estimate_" +:+
        str (PyInt photon_count) +:+ "_photon_count_" +:+ psf_name +:+ "_psf.npy") ∧
  classifier_path folder photon_count psf_name bias "cnn" =
    Ok (folder +:+ "classifier_results/cifar_test_accuracy_" +:+
        str (PyInt photon_count) +:+ "_mean_photon_count_" +:+ psf_name +:+
        "_psf_" +:+ str (PyInt bias) +:+ "_bias_cnn_model.npy").
Proof.
  rewrite !gaussian_mi_path_Ok, !pixelcnn_mi_path_Ok, !classifier_path_Ok.
  unfold gaussian_file, pixelcnn_file, classifier_file.
  unfold spec_mi_path, spec_classifier_path.
  rewrite !string_app_assoc.
  repeat split; reflexivity.
Qed.

(** ** Minimum across trials *)

Lemma mapM_result_Forall2 {A B} (f : A → result B) (l : list A) :
  Forall (λ x, ∃ y, f x = Ok y) l →
  ∃ ys, mapM (M := result) f l = Ok ys ∧ Forall2 (λ x y, f x = Ok y) l ys.
Proof.
  induction 1 as [|x l [y Hy] _ (ys & Hys & IH)]; simpl.
  - exists []. by split.
  - exists (y :: ys). rewrite Hy. simpl. rewrite Hys. simpl.
    split; [done|]. by constructor.
Qed.

Lemma same_length_Forall (rows : list ndarray) (n : nat) :
  Forall (λ row, length row = n) rows → same_length rows = true.
Proof.
  destruct 1 as [|r rows Hr Hrows]; simpl; [done|].
  apply forallb_forall. intros r' Hin.
  rewrite Forall_forall in Hrows. apply list_elem_of_In in Hin.
  apply Nat.eqb_eq. rewrite Hr. by apply Hrows.
Qed.

(** C4. On a rectangular grid with at least one condition and at least
    one trial per condition, [np.min(grid, axis=1)] returns, condition by
    condition, a trial value that no trial of the condition is below. *)
Theorem minimum_aggregate_rectangular :
  (∀ (grid : list ndarray) (n : nat),
     grid ≠ [] → (0 < n)%nat → Forall (λ row, length row = n) grid →
     ∃ mins, np_min_axis1 grid = Ok mins ∧ length mins = length grid ∧
       ∀ i row, grid !! i = Some row →
         ∃ m, mins !! i = Some m ∧ m ∈ row ∧ ∀ v, v ∈ row → (m <= v)%Q) ∧
  np_min_axis1 [[5; 3; 9]; [2; 8; 1]]%Q = Ok [3; 1]%Q.
Proof.
  split; [|reflexivity].
  intros grid n Hne Hn Hrect.
  destruct (mapM_result_Forall2 np_min grid) as (mins & Hmins & Hall).
  { eapply Forall_impl; [exact Hrect|]. intros row Hrow. simpl in Hrow.
    apply np_min_nonempty. destruct row; simpl in *; [lia|done]. }
  exists mins. unfold np_min_axis1.
  rewrite (same_length_Forall grid n Hrect).
  destruct grid as [|row0 grid']; [done|]. split; [done|].
  split; [symmetry; by eapply Forall2_length|].
  intros i row Hrow.
  destruct (Forall2_lookup_l _ _ _ _ _ Hall Hrow) as (m & Hm & Hmin).
  exists m. split; [done|]. by apply np_min_Ok.
Qed.

Lemma minimum_aggregate_rectangular_witness :
  ∃ mins, np_min_axis1 [[4; 7]; [6; 2]]%Q = Ok mins ∧
    length mins = length [[4; 7]; [6; 2]]%Q ∧
    ∀ i row, [[4; 7]; [6; 2]]%Q !! i = Some row →
      ∃ m, mins !! i = Some m ∧ m ∈ row ∧ ∀ v, v ∈ row → (m <= v)%Q.
Proof.
  apply (proj1 minimum_aggregate_rectangular [[4; 7]; [6; 2]]%Q 2%nat).
  - discriminate.
  - lia.
  - repeat constructor.
Defined.

(** ** Percentiles *)

Lemma lower_rank_eq (cl : Q) : (lower_rank cl == 50 - 50 * cl)%Q.
Proof. unfold lower_rank. field. Qed.

Lemma upper_rank_eq (cl : Q) : (upper_rank cl == 50 + 50 * cl)%Q.
Proof. unfold upper_rank. field. Qed.

Lemma rank_bounds (cl : Q) :
  (0 < cl)%Q → (cl < 1)%Q →
  (0 <= lower_rank cl <= 100)%Q ∧ (0 <= upper_rank cl <= 100)%Q.
Proof.
  intros. rewrite lower_rank_eq, upper_rank_eq. split; split; lra.
Qed.

Lemma length_insert_sorted (v : Q) (a : ndarray) :
  length (insert_sorted v a) = S (length a).
Proof.
  induction a as [|w a IH]; simpl; [done|].
  destruct (Qle_bool v w); simpl; by rewrite ?IH.
Qed.

Lemma length_np_sort (a : ndarray) : length (np_sort a) = length a.
Proof.
  induction a as [|v a IH]; simpl; [done|].
  by rewrite length_insert_sorted, IH.
Qed.

Lemma getitem_last (a : ndarray) : a ≠ [] → is_Some (getitem a (-1)).
Proof.
  intros Ha. unfold getitem.
  assert (0 < length a)%nat by (destruct a; simpl; [done|lia]).
  replace (-1 <? 0)%Z with true by (symmetry; by apply Z.ltb_lt).
  replace (-1 + Z.of_nat (length a) <? 0)%Z with false
    by (symmetry; apply Z.ltb_ge; lia).
  apply lookup_lt_is_Some_2. lia.
Qed.

Lemma getitem_nonneg (a : ndarray) (i : Z) :
  (0 ≤ i < Z.of_nat (length a))%Z → is_Some (getitem a i).
Proof.
  intros [Hlo Hhi]. unfold getitem.
  replace (i <? 0)%Z with false by (symmetry; apply Z.ltb_ge; lia).
  apply lookup_lt_is_Some_2. lia.
Qed.

Lemma get_indexes_in_range (virtual_index : Q) (n : nat) :
  (0 < n)%nat →
  let '(previous_index, next_index) := get_indexes virtual_index n in
  (previous_index = (-1)%Z ∧ next_index = (-1)%Z) ∨
  ((0 ≤ previous_index < Z.of_nat n)%Z ∧ (0 ≤ next_index < Z.of_nat n)%Z).
Proof.
  intros Hn. unfold get_indexes.
  Qcases (Qle_bool (inject_Z (Z.of_nat n) - 1) virtual_index); [by left|].
  Qcases (Qltb virtual_index 0); [right; lia|].
  right.
  pose proof (Qfloor_le virtual_index) as Hfl.
  pose proof (Qlt_floor virtual_index) as Hfu.
  assert (inject_Z 0 < inject_Z (Qfloor virtual_index + 1))%Q as H0.
  { change (inject_Z 0) with 0%Q. lra. }
  assert (inject_Z (Qfloor virtual_index) < inject_Z (Z.of_nat n - 1))%Q as H1.
  { unfold Z.sub. rewrite inject_Z_plus, inject_Z_opp.
    change (inject_Z 1) with 1%Q. lra. }
  rewrite <- Zlt_Qlt in H0, H1. lia.
Qed.

Lemma percentile_linear_nil (q : Q) : percentile_linear [] q = None.
Proof.
  unfold percentile_linear. simpl np_sort. simpl length.
  destruct (get_indexes _ _) as [previous_index next_index].
  assert (getitem [] previous_index = None) as ->; [|done].
  unfold getitem. simpl length.
  destruct (previous_index <? 0)%Z; [|done].
  by destruct (previous_index + Z.of_nat 0 <? 0)%Z.
Qed.

Lemma percentile_linear_total (a : ndarray) (q : Q) :
  a ≠ [] → ∃ v, percentile_linear a q = Some v.
Proof.
  intros Ha. unfold percentile_linear.
  assert (np_sort a ≠ []) as Hs.
  { intros Hnil. apply (f_equal length) in Hnil.
    rewrite length_np_sort in Hnil. by destruct a. }
  assert (0 < length (np_sort a))%nat as Hn
    by (destruct (np_sort a); simpl; [done|lia]).
  pose proof (get_indexes_in_range
    ((inject_Z (Z.of_nat (length (np_sort a))) - 1) * (q / 100))
    (length (np_sort a)) Hn) as Hidx.
  destruct (get_indexes _ _) as [previous_index next_index].
  assert (is_Some (getitem (np_sort a) previous_index) ∧
          is_Some (getitem (np_sort a) next_index)) as [[p Hp] [x Hx]].
  { destruct Hidx as [[-> ->]|[Hp Hx]].
    - split; by apply getitem_last.
    - split; by apply getitem_nonneg. }
  rewrite Hp, Hx. simpl. eauto.
Qed.

Lemma np_percentile_Ok (pe : result float64) (a : ndarray) (q : Q) :
  a ≠ [] → (0 <= q <= 100)%Q →
  ∃ v, percentile_linear a q = Some v ∧ np_percentile pe a q = Ok (Fin v).
Proof.
  intros Ha [Hq0 Hq100]. destruct (percentile_linear_total a q Ha) as [v Hv].
  exists v. split; [done|]. unfold np_percentile.
  rewrite (proj2 (Qltb_ge q 0) Hq0), (proj2 (Qltb_ge 100 q) Hq100). simpl.
  destruct a; [done|]. by rewrite Hv.
Qed.

Lemma lerp_same (x t : Q) : (lerp x x t == x)%Q.
Proof. unfold lerp. destruct (Qle_bool _ _); ring. Qed.

(** One trial: every percentile is the trial itself. *)
Lemma percentile_linear_singleton (x q : Q) :
  ∃ v, percentile_linear [x] q = Some v ∧ (v == x)%Q.
Proof.
  unfold percentile_linear. simpl np_sort. simpl length.
  assert ((inject_Z (Z.of_nat 1) - 1) * (q / 100) == 0)%Q as Hv0.
  { change (inject_Z (Z.of_nat 1)) with 1%Q. ring. }
  unfold get_indexes.
  rewrite (proj2 (Qle_bool_iff _ _)).
  2:{ rewrite Hv0. change (inject_Z (Z.of_nat 1)) with 1%Q. lra. }
  simpl. eexists. split; [reflexivity|]. apply lerp_same.
Qed.

#[export] Instance lerp_proper : Proper (Qeq ==> Qeq ==> Qeq ==> Qeq) lerp.
Proof.
  intros a a' Ha b b' Hb t t' Ht. unfold lerp.
  rewrite (Qleb_comp (1 # 2) (1 # 2) (Qeq_refl _) t t' Ht).
  destruct (Qle_bool _ _); by rewrite Ha, Hb, Ht.
Qed.

(** The percentile depends on the rank as a number, not on how the rank
    was computed. *)
Lemma percentile_linear_rank (a : ndarray) (q q' : Q) :
  (q == q')%Q → option_Qeq (percentile_linear a q) (percentile_linear a q').
Proof.
  intros Hq. unfold percentile_linear.
  set (n := length (np_sort a)).
  assert ((inject_Z (Z.of_nat n) - 1) * (q / 100) ==
          (inject_Z (Z.of_nat n) - 1) * (q' / 100))%Q as Hv by (by rewrite Hq).
  assert (get_indexes ((inject_Z (Z.of_nat n) - 1) * (q / 100)) n =
          get_indexes ((inject_Z (Z.of_nat n) - 1) * (q' / 100)) n) as Hidx.
  { unfold get_indexes.
    rewrite (Qleb_comp _ _ (Qeq_refl _) _ _ Hv).
    rewrite (Qltb_proper _ _ Hv 0%Q 0%Q (Qeq_refl _)).
    by rewrite (Qfloor_comp _ _ Hv). }
  rewrite <- Hidx. destruct (get_indexes _ n) as [previous_index next_index].
  destruct (getitem _ previous_index) as [p|]; simpl; [|done].
  destruct (getitem _ next_index) as [x|]; simpl; [|done].
  by rewrite Hv.
Qed.

(** ** Running a loop *)

Lemma for_each_cons {V X} (x : X) (xs : list X) (body : X → cell V unit)
    (w : world V) :
  for_each (x :: xs) body w =
    match body x w with
    | (w', Ok _) => for_each xs body w'
    | (w', Raise e) => (w', Raise e)
    end.
Proof. reflexivity. Qed.

Lemma for_each_nil {V X} (body : X → cell V unit) (w : world V) :
  for_each [] body w = (w, Ok ()).
Proof. reflexivity. Qed.

Lemma bind_modify {V B} (f : V → V) (k : unit → cell V B) (w : world V) :
  (modify f ≫= k) w = k () (World (f (vars w)) (opened w)).
Proof. reflexivity. Qed.

Lemma bind_get {V A B} (f : V → A) (k : A → cell V B) (w : world V) :
  (get f ≫= k) w = k (f (vars w)) w.
Proof. reflexivity. Qed.

Lemma bind_lift_Ok {V A B} (a : A) (k : A → cell V B) (w : world V) :
  (lift (Ok a) ≫= k) w = k a w.
Proof. reflexivity. Qed.

Lemma bind_lift_Raise {V A B} (e : exn) (k : A → cell V B) (w : world V) :
  (lift (Raise e) ≫= k) w = (w, Raise e).
Proof. reflexivity. Qed.

Lemma bind_Ok {V A B} (m : cell V A) (k : A → cell V B) (w w' : world V) (a : A) :
  m w = (w', Ok a) → (m ≫= k) w = k a w'.
Proof. intros H. unfold mbind, cell_bind. by rewrite H. Qed.

Lemma bind_Raise {V A B} (m : cell V A) (k : A → cell V B) (w w' : world V)
    (e : exn) :
  m w = (w', Raise e) → (m ≫= k) w = (w', Raise e).
Proof. intros H. unfold mbind, cell_bind. by rewrite H. Qed.

(** ** The error-bar cell *)

Lemma photon_step_skipped pe cl mi grid valid psf_idx psf_name i pc w :
  pc ∉ valid →
  ErrorBars.photon_step pe cl mi grid valid psf_idx psf_name (i, pc) w = (w, Ok ()).
Proof.
  intros Hout. unfold ErrorBars.photon_step. by rewrite bool_decide_false.
Qed.

Lemma photon_step_selected pe cl mi grid valid psf_idx psf_name i pc mv t mk w :
  pc ∈ valid →
  getitem2 mi psf_idx i = Ok mv →
  getitem2 grid psf_idx i = Ok t →
  marker_for_psf psf_name = Ok mk →
  ErrorBars.photon_step pe cl mi grid valid psf_idx psf_name (i, pc) w =
    let v1 :=
      ErrorBars.set_classifier_means_across_photons
        (ErrorBars.classifier_means_across_photons (vars w) ++ [np_mean t])
        (ErrorBars.set_mi_means_across_photons
           (ErrorBars.mi_means_across_photons (vars w) ++ [mv]) (vars w)) in
    match np_percentile pe t (lower_rank cl) with
    | Raise e => (World v1 (opened w), Raise e)
    | Ok lo =>
      let v2 :=
        ErrorBars.set_classifier_lower_across_photons
          (ErrorBars.classifier_lower_across_photons v1 ++ [lo]) v1 in
      match np_percentile pe t (upper_rank cl) with
      | Raise e => (World v2 (opened w), Raise e)
      | Ok hi =>
        (World (ErrorBars.set_classifier_upper_across_photons
                  (ErrorBars.classifier_upper_across_photons v2 ++ [hi]) v2)
               (opened w), Ok ())
      end
    end.
Proof.
  intros Hin Hmi Ht Hmk. unfold ErrorBars.photon_step.
  rewrite bool_decide_true by done.
  unfold mbind, cell_bind, lift, modify. rewrite Hmi, Ht, Hmk. simpl.
  destruct (np_percentile pe t (lower_rank cl)); [|done]. simpl.
  destruct (np_percentile pe t (upper_rank cl)); done.
Qed.

Section PhotonLoop.
Variables (pe : result float64) (cl : Q).
Variables (mi : list ndarray) (grid : list (list ndarray)) (valid : list Z).
Variables (psf_idx : nat) (psf_name : string).
Hypothesis cl_range : (0 < cl)%Q ∧ (cl < 1)%Q.
Hypothesis psf_name_label : psf_name ∈ psf_label_set.

Let step := ErrorBars.photon_step pe cl mi grid valid psf_idx psf_name.

(** A condition that the arrays cover: its trials are there and not
    empty, and so is its MI value. *)
Let covered (c : nat * Z * ndarray) : Prop :=
  getitem2 grid psf_idx c.1.1 = Ok c.2 ∧ c.2 ≠ [] ∧
  ∃ mv, getitem2 mi psf_idx c.1.1 = Ok mv.

Let bound (rank : Q) (t : ndarray) (b : float64) : Prop :=
  ∃ v, percentile_linear t rank = Some v ∧ b = Fin v.

Lemma photon_loop (conds : list (nat * Z * ndarray)) (w : world ErrorBars.variables) :
  Forall covered conds →
  ∃ w' lowers uppers,
    for_each (fst <$> conds) step w = (w', Ok ()) ∧
    ErrorBars.classifier_means_across_photons (vars w') =
      ErrorBars.classifier_means_across_photons (vars w) ++
      (np_mean <$> (snd <$> filter (λ c, c.1.2 ∈ valid) conds)) ∧
    ErrorBars.classifier_lower_across_photons (vars w') =
      ErrorBars.classifier_lower_across_photons (vars w) ++ lowers ∧
    ErrorBars.classifier_upper_across_photons (vars w') =
      ErrorBars.classifier_upper_across_photons (vars w) ++ uppers ∧
    Forall2 (bound (lower_rank cl))
            (snd <$> filter (λ c, c.1.2 ∈ valid) conds) lowers ∧
    Forall2 (bound (upper_rank cl))
            (snd <$> filter (λ c, c.1.2 ∈ valid) conds) uppers.
Proof using cl_range psf_name_label.
  intros Hall. revert w.
  induction Hall as [|[[i pc] t] conds (Ht & Hne & mv & Hmv) _ IH]; intros w.
  { exists w, [], []. simpl. rewrite !app_nil_r. by repeat split. }
  destruct (marker_for_psf_Ok psf_name psf_name_label) as [mk Hmk].
  simpl in Ht, Hmv, Hne. rewrite fmap_cons, for_each_cons. simpl fst.
  destruct (decide (pc ∈ valid)) as [Hin|Hout].
  - unfold step at 1.
    rewrite (photon_step_selected _ _ _ _ _ _ _ _ _ mv t mk w Hin Hmv Ht Hmk).
    destruct (rank_bounds cl (proj1 cl_range) (proj2 cl_range)) as [Hlo Hhi].
    destruct (np_percentile_Ok pe t _ Hne Hlo) as (lo & Hplo & ->).
    destruct (np_percentile_Ok pe t _ Hne Hhi) as (hi & Hphi & ->).
    cbv beta iota zeta.
    match goal with |- context [for_each _ step ?w1] =>
      destruct (IH w1) as (w' & lowers & uppers & Hrun & Hm & Hl & Hu & Hbl & Hbu)
    end.
    exists w', (Fin lo :: lowers), (Fin hi :: uppers).
    rewrite Hrun, Hm, Hl, Hu.
    rewrite filter_cons_True by done. simpl.
    rewrite <- !app_assoc. simpl.
    repeat split; [constructor; [by exists lo|done]|constructor; [by exists hi|done]].
  - unfold step at 1. rewrite (photon_step_skipped _ _ _ _ _ _ _ _ _ _ Hout).
    destruct (IH w) as (w' & lowers & uppers & Hrun & Hm & Hl & Hu & Hbl & Hbu).
    exists w', lowers, uppers. rewrite filter_cons_False by done.
    by repeat split.
Qed.
End PhotonLoop.

Lemma selected_trials_enumerate (valid : list Z) (idx : list nat) (pcs : list Z)
    (row : list ndarray) :
  length idx = length pcs →
  (filter (λ c : nat * Z * ndarray, c.1.2 ∈ valid) (zip (zip idx pcs) row)).*2 =
  selected_trials valid pcs row.
Proof.
  unfold selected_trials. revert pcs row.
  induction idx as [|i idx IH]; intros [|pc pcs] [|t row] Hlen;
    simplify_eq/=; try done.
  destruct (decide (pc ∈ valid)) as [Hin|Hout].
  - rewrite !filter_cons_True by done. simpl. f_equal. by apply IH.
  - rewrite !filter_cons_False by done. by apply IH.
Qed.

Lemma enumerate_lookup {X} (xs : list X) (j : nat) (p : nat * X) :
  enumerate xs !! j = Some p → p.1 = j ∧ xs !! j = Some p.2.
Proof.
  unfold enumerate. intros (i & x & -> & Hi & Hx)%lookup_zip_with_Some.
  apply lookup_seq in Hi as [-> _]. done.
Qed.

Lemma length_enumerate {X} (xs : list X) : length (enumerate xs) = length xs.
Proof.
  unfold enumerate. rewrite length_zip_with, length_seq. lia.
Qed.

Lemma insert_sorted_elem (v w : Q) (a : ndarray) :
  w ∈ insert_sorted v a ↔ w = v ∨ w ∈ a.
Proof.
  induction a as [|u a IH]; simpl.
  - rewrite list_elem_of_singleton, elem_of_nil. tauto.
  - destruct (Qle_bool v u); rewrite !elem_of_cons, ?IH; tauto.
Qed.

Lemma insert_sorted_sorted (v : Q) (a : ndarray) :
  StronglySorted Qle a → StronglySorted Qle (insert_sorted v a).
Proof.
  induction 1 as [|w a Hsorted IH Hall]; simpl.
  - by repeat constructor.
  - Qcases (Qle_bool v w).
    + constructor; [by constructor|]. constructor; [done|].
      eapply Forall_impl; [exact Hall|]. intros u Hu. simpl in Hu. lra.
    + constructor; [done|]. apply Forall_forall.
      intros u [->|Hu]%insert_sorted_elem; [lra|].
      rewrite Forall_forall in Hall. by apply Hall.
Qed.

Lemma np_sort_sorted (a : ndarray) : StronglySorted Qle (np_sort a).
Proof.
  induction a as [|v a IH]; simpl; [constructor|]. by apply insert_sorted_sorted.
Qed.

Lemma insert_sorted_perm (v : Q) (a : ndarray) : insert_sorted v a ≡ₚ v :: a.
Proof.
  induction a as [|w a IH]; simpl; [done|].
  destruct (Qle_bool v w); [done|]. rewrite IH. apply Permutation_swap.
Qed.

Lemma np_sort_perm (a : ndarray) : np_sort a ≡ₚ a.
Proof.
  induction a as [|v a IH]; simpl; [done|].
  by rewrite insert_sorted_perm, IH.
Qed.

Lemma getitem_nonneg_lookup (s : ndarray) (k : Z) :
  (0 ≤ k)%Z → getitem s k = s !! Z.to_nat k.
Proof.
  intros Hk. unfold getitem.
  by replace (k <? 0)%Z with false by (symmetry; apply Z.ltb_ge; lia).
Qed.

Lemma getitem_last_lookup (s : ndarray) (x : Q) :
  getitem s (-1) = Some x → s !! (length s - 1)%nat = Some x ∧ s ≠ [].
Proof.
  unfold getitem. replace (-1 <? 0)%Z with true by done.
  destruct (_ <? 0)%Z eqn:E; [done|]. apply Z.ltb_ge in E.
  replace (Z.to_nat (-1 + Z.of_nat (length s))) with (length s - 1)%nat by lia.
  intros H. split; [done|]. intros ->. simpl in E. lia.
Qed.

Lemma lerp_eq (a b t : Q) : (lerp a b t == a + (b - a) * t)%Q.
Proof. unfold lerp. destruct (Qle_bool _ _); ring. Qed.

(** [percentile_linear] computes the percentile of the specification. *)
Lemma percentile_linear_spec (a : ndarray) (q v : Q) :
  a ≠ [] → (0 <= q <= 100)%Q →
  percentile_linear a q = Some v → spec_percentile a q v.
Proof.
  intros Ha [Hq0 Hq100] Hv. unfold percentile_linear in Hv.
  rewrite length_np_sort in Hv.
  set (n := length a) in *.
  assert (0 < n)%nat as Hn by (subst n; destruct a; simpl; [done|lia]).
  assert (1 <= inject_Z (Z.of_nat n))%Q as HnQ.
  { change 1%Q with (inject_Z 1). rewrite <- Zle_Qle. lia. }
  set (h := ((inject_Z (Z.of_nat n) - 1) * (q / 100))%Q) in *.
  assert ((inject_Z (Z.of_nat n) - 1) * q / 100 == h)%Q as Hh
    by (subst h; field).
  assert (0 <= h)%Q as Hh0.
  { subst h. apply Qmult_le_0_compat; [lra|].
    apply Qle_shift_div_l; lra. }
  assert (h <= inject_Z (Z.of_nat n) - 1)%Q as Hhn.
  { subst h.
    assert (q / 100 <= 1)%Q by (apply Qle_shift_div_r; lra).
    assert (0 <= q / 100)%Q by (apply Qle_shift_div_l; lra). nra. }
  exists (np_sort a).
  unfold get_indexes in Hv.
  Qcases (Qle_bool (inject_Z (Z.of_nat n) - 1) h).
  - destruct (getitem (np_sort a) (-1)) as [p|] eqn:Hp; [|done].
    assert (lerp p p (h - inject_Z (-1)) = v) as <- by (by injection Hv).
    clear Hv.
    apply getitem_last_lookup in Hp as [Hp _]. rewrite length_np_sort in Hp.
    exists p, p. split; [apply np_sort_perm|]. split; [apply np_sort_sorted|].
    cbv zeta. fold n.
    assert (Qfloor ((inject_Z (Z.of_nat n) - 1) * q / 100) = (Z.of_nat n - 1)%Z)
      as ->.
    { rewrite <- (Qfloor_Z (Z.of_nat n - 1)). apply Qfloor_comp.
      rewrite Hh. unfold Zminus. rewrite inject_Z_plus.
      change (inject_Z (- (1))%Z) with (- (1))%Q. lra. }
    replace (Z.to_nat (Z.of_nat n - 1)) with (n - 1)%nat by lia.
    replace (Nat.min (S (n - 1)) (n - 1)) with (n - 1)%nat by lia.
    split; [done|]. split; [done|]. rewrite lerp_same. ring.
  - Qcases (Qltb h 0); [lra|].
    assert (0 ≤ Qfloor h)%Z as Hfl0.
    { change 0%Z with (Qfloor 0). by apply Qfloor_resp_le. }
    rewrite !getitem_nonneg_lookup in Hv by lia.
    destruct (np_sort a !! Z.to_nat (Qfloor h)) as [p|] eqn:Hp; [|done].
    destruct (np_sort a !! Z.to_nat (Qfloor h + 1)) as [x|] eqn:Hx; [|done].
    assert (lerp p x (h - inject_Z (Qfloor h)) = v) as <- by (by injection Hv).
    clear Hv.
    exists p, x. split; [apply np_sort_perm|]. split; [apply np_sort_sorted|].
    cbv zeta. fold n.
    rewrite (Qfloor_comp _ _ Hh).
    assert (S (Z.to_nat (Qfloor h)) = Z.to_nat (Qfloor h + 1)) as HS by lia.
    apply lookup_lt_Some in Hx as Hlt. rewrite length_np_sort in Hlt. fold n in Hlt.
    replace (Nat.min (S (Z.to_nat (Qfloor h))) (n - 1))
      with (Z.to_nat (Qfloor h + 1)) by lia.
    split; [done|]. split; [done|]. rewrite lerp_eq, Hh. ring.
Qed.

(** C3. For a confidence level strictly between 0 and 1 and trial
    sequences that are not empty, the loop appends, for each selected
    condition in order, the arithmetic mean of the trials and their
    percentiles of ranks [100 - 100 * (1 + confidence_level) / 2] and
    [100 * (1 + confidence_level) / 2], a percentile being the linear
    interpolation between the neighbouring values of the trials in
    ascending order; at 0.9 the ranks are 5 and 95; a single trial is its
    own mean and both bounds; on 1, ..., 100, in any of the two orders,
    the bounds are 5.95 and 95.05. *)
Theorem confidence_interval_percentile_bounds :
  (∀ pe cl mi grid valid pcs psf_idx psf_name row mi_row w,
     (0 < cl)%Q → (cl < 1)%Q →
     psf_name ∈ psf_label_set →
     grid !! psf_idx = Some row → mi !! psf_idx = Some mi_row →
     length row = length pcs → length mi_row = length pcs →
     Forall (λ t, t ≠ []) row →
     ∃ w' lowers uppers,
       for_each (enumerate pcs)
                (ErrorBars.photon_step pe cl mi grid valid psf_idx psf_name) w
         = (w', Ok ()) ∧
       ErrorBars.classifier_means_across_photons (vars w') =
         ErrorBars.classifier_means_across_photons (vars w) ++
         ((λ t, Fin (foldr Qplus 0%Q t / inject_Z (Z.of_nat (length t)))) <$>
            selected_trials valid pcs row) ∧
       ErrorBars.classifier_lower_across_photons (vars w') =
         ErrorBars.classifier_lower_across_photons (vars w) ++ lowers ∧
       ErrorBars.classifier_upper_across_photons (vars w') =
         ErrorBars.classifier_upper_across_photons (vars w) ++ uppers ∧
       Forall2 (λ t b, ∃ v, b = Fin v ∧
                            spec_percentile t (100 - 100 * (1 + cl) / 2) v)
               (selected_trials valid pcs row) lowers ∧
       Forall2 (λ t b, ∃ v, b = Fin v ∧
                            spec_percentile t (100 * (1 + cl) / 2) v)
               (selected_trials valid pcs row) uppers) ∧
  (∀ pe t q, t ≠ [] → (0 <= q <= 100)%Q →
     ∃ v, np_percentile pe t q = Ok (Fin v) ∧ spec_percentile t q v) ∧
  ((lower_rank (9 # 10) == 5)%Q ∧ (upper_rank (9 # 10) == 95)%Q ∧
   ∀ a, option_Qeq (percentile_linear a (lower_rank (9 # 10))) (percentile_linear a 5) ∧
        option_Qeq (percentile_linear a (upper_rank (9 # 10))) (percentile_linear a 95)) ∧
  (∀ x q, float64_eq (np_mean [x]) (Fin x) ∧
          ∃ v, percentile_linear [x] q = Some v ∧ (v == x)%Q) ∧
  option_Qeq (percentile_linear uniform_sample 5) (Some (595 # 100)) ∧
  option_Qeq (percentile_linear uniform_sample 95) (Some (9505 # 100)) ∧
  option_Qeq (percentile_linear (reverse uniform_sample) 5) (Some (595 # 100)) ∧
  option_Qeq (percentile_linear (reverse uniform_sample) 95) (Some (9505 # 100)).
Proof.
  split; [|split; [|split; [|split; [|split; [|split; [|split]]]]]].
  - intros pe cl mi grid valid pcs psf_idx psf_name row mi_row w
           Hcl0 Hcl1 Hlabel Hrow Hmi Hlen Hlenmi Hne.
    destruct (photon_loop pe cl mi grid valid psf_idx psf_name
                (conj Hcl0 Hcl1) Hlabel (zip (enumerate pcs) row) w)
      as (w' & lowers & uppers & Hrun & Hm & Hl & Hu & Hbl & Hbu).
    { apply Forall_lookup. intros j [[i pc] t] Hj.
      apply lookup_zip_with_Some in Hj as (p & t' & [= <- <-] & Hp & Ht).
      apply enumerate_lookup in Hp as [Hi Hpc]. simpl in Hi, Hpc. subst i.
      simpl. unfold getitem2. rewrite Hrow, Hmi, Ht.
      destruct (lookup_lt_is_Some_2 mi_row j) as [mv Hmv].
      { apply lookup_lt_Some in Hpc. lia. }
      rewrite Hmv. repeat split; [|by exists mv].
      rewrite Forall_forall in Hne. apply Hne.
      eapply list_elem_of_lookup_2, Ht. }
    rewrite fst_zip in Hrun by (rewrite length_enumerate; lia).
    unfold enumerate in Hm, Hbl, Hbu.
    rewrite selected_trials_enumerate in Hm, Hbl, Hbu by (by rewrite length_seq).
    assert (Forall (λ t, t ≠ []) (selected_trials valid pcs row)) as Hsel.
    { clear -Hbl. induction Hbl as [|t b ts bs (v & Hv & _) _ IH];
        constructor; [|done].
      intros ->. by rewrite percentile_linear_nil in Hv. }
    destruct (rank_bounds cl Hcl0 Hcl1) as [Hlo Hhi].
    exists w', lowers, uppers. split; [done|]. split; [|split; [done|split; [done|]]].
    + rewrite Hm. f_equal. apply Forall_fmap_ext_1.
      eapply Forall_impl; [exact Hsel|]. intros [|x t] Ht; done.
    + split.
      * clear -Hbl Hsel Hlo. induction Hbl as [|t b ts bs (v & Hv & ->) _ IH];
          constructor.
        -- apply Forall_cons in Hsel as [Ht _]. exists v. split; [done|].
           by apply (percentile_linear_spec t (lower_rank cl) v).
        -- apply Forall_cons in Hsel as [_ Hsel]. by apply IH.
      * clear -Hbu Hsel Hhi. induction Hbu as [|t b ts bs (v & Hv & ->) _ IH];
          constructor.
        -- apply Forall_cons in Hsel as [Ht _]. exists v. split; [done|].
           by apply (percentile_linear_spec t (upper_rank cl) v).
        -- apply Forall_cons in Hsel as [_ Hsel]. by apply IH.
  - intros pe t q Ht Hq.
    destruct (np_percentile_Ok pe t q Ht Hq) as (v & Hv & Hp).
    exists v. split; [done|]. by apply percentile_linear_spec.
  - split; [by rewrite lower_rank_eq|]. split; [by rewrite upper_rank_eq|].
    intros a. split; apply percentile_linear_rank.
    + rewrite lower_rank_eq. reflexivity.
    + rewrite upper_rank_eq. reflexivity.
  - intros x q. split; [|apply percentile_linear_singleton].
    simpl. field.
  - vm_compute. reflexivity.
  - vm_compute. reflexivity.
  - vm_compute. reflexivity.
  - vm_compute. reflexivity.
Qed.

Lemma confidence_interval_percentile_bounds_witness :
  ∃ w' lowers uppers,
    for_each (enumerate [20; 40]%Z)
             (ErrorBars.photon_step (Raise IndexError) (9 # 10) [[1; 2]]%Q
                [[[5; 3]; [7]]]%Q [20; 40]%Z 0 "one")
             (World (ErrorBars.Variables [] [] [] [] []) [])
      = (w', Ok ()) ∧
    ErrorBars.classifier_means_across_photons (vars w') =
      [] ++ ((λ t, Fin (foldr Qplus 0%Q t / inject_Z (Z.of_nat (length t)))) <$>
               selected_trials [20; 40]%Z [20; 40]%Z [[5; 3]; [7]]%Q) ∧
    ErrorBars.classifier_lower_across_photons (vars w') = [] ++ lowers ∧
    ErrorBars.classifier_upper_across_photons (vars w') = [] ++ uppers ∧
    Forall2 (λ t b, ∃ v, b = Fin v ∧
                         spec_percentile t (100 - 100 * (1 + (9 # 10)) / 2) v)
            (selected_trials [20; 40]%Z [20; 40]%Z [[5; 3]; [7]]%Q) lowers ∧
    Forall2 (λ t b, ∃ v, b = Fin v ∧
                         spec_percentile t (100 * (1 + (9 # 10)) / 2) v)
            (selected_trials [20; 40]%Z [20; 40]%Z [[5; 3]; [7]]%Q) uppers.
Proof.
  apply (proj1 confidence_interval_percentile_bounds
           (Raise IndexError) (9 # 10) [[1; 2]]%Q [[[5; 3]; [7]]]%Q
           [20; 40]%Z [20; 40]%Z 0%nat "one" [[5; 3]; [7]]%Q [1; 2]%Q).
  - reflexivity.
  - reflexivity.
  - apply psf_label_set_elem. by left.
  - reflexivity.
  - reflexivity.
  - reflexivity.
  - reflexivity.
  - by repeat constructor.
Defined.

(** ** Empty trial lists *)

(** C8 as the specification states it does not hold: whatever
    [np.percentile] does with an empty array, the step of the error-bar
    cell has by then taken the mean of the empty trial list, which is
    [NaN], and recorded it as the central estimate. *)
Lemma empty_trials_counterexample :
  ¬ ∃ (pe : result float64) (e : exn),
      let after :=
        ErrorBars.photon_step pe (9 # 10) [[1]]%Q [[[]]] [20]%Z 0 "one"
          (0%nat, 20%Z) (World (ErrorBars.Variables [] [] [] [] []) []) in
      after.2 = Raise e ∧
      NaN ∉ ErrorBars.classifier_means_across_photons (vars after.1).
Proof.
  intros (pe & e & _ & Hnan). apply Hnan. clear.
  rewrite (photon_step_selected pe (9 # 10) [[1]]%Q [[[]]] [20]%Z 0 "one"
             0 20%Z 1%Q [] "o"); [|by left|done..].
  cbv zeta. unfold np_percentile. simpl.
  destruct pe as [lo|e]; simpl; by left.
Qed.

Lemma np_percentile_nil (pe : result float64) (q : Q) :
  (0 <= q <= 100)%Q → np_percentile pe [] q = pe.
Proof.
  intros [H0 H100]. unfold np_percentile.
  by rewrite (proj2 (Qltb_ge q 0) H0), (proj2 (Qltb_ge 100 q) H100).
Qed.

(** C8, amended. On trial lists that are all empty the minimum across
    trials raises numpy's [ValueError] for a reduction of nothing (the
    notebook defines no error of its own).  The mean of an empty trial
    list is [NaN], with no exception: the error-bar step records it as the
    central estimate, and whether the step then ends normally is decided
    by [np.percentile] alone. *)
Theorem empty_trials_aggregation :
  (∀ grid : list ndarray,
     grid ≠ [] → Forall (λ row, row = []) grid →
     np_min_axis1 grid = Raise (zero_size "minimum")) ∧
  np_mean [] = NaN ∧
  (∀ pe cl mi grid valid psf_idx psf_name i pc mv w,
     (0 < cl)%Q → (cl < 1)%Q →
     pc ∈ valid → psf_name ∈ psf_label_set →
     getitem2 mi psf_idx i = Ok mv →
     getitem2 grid psf_idx i = Ok [] →
     let after :=
       ErrorBars.photon_step pe cl mi grid valid psf_idx psf_name (i, pc) w in
     ErrorBars.classifier_means_across_photons (vars after.1) =
       ErrorBars.classifier_means_across_photons (vars w) ++ [NaN] ∧
     after.2 = (pe ≫= λ _, Ok ())).
Proof.
  split; [|split; [done|]].
  - intros grid Hne Hall. unfold np_min_axis1.
    rewrite (same_length_Forall grid 0).
    2:{ eapply Forall_impl; [exact Hall|]. by intros row ->. }
    destruct Hall as [|row grid' -> _]; done.
  - intros pe cl mi grid valid psf_idx psf_name i pc mv w
           Hcl0 Hcl1 Hin Hlabel Hmv Ht.
    destruct (marker_for_psf_Ok psf_name Hlabel) as [mk Hmk].
    destruct (rank_bounds cl Hcl0 Hcl1) as [Hlo Hhi].
    cbv zeta.
    rewrite (photon_step_selected pe cl mi grid valid psf_idx psf_name
               i pc mv [] mk w Hin Hmv Ht Hmk).
    rewrite !np_percentile_nil by done. cbv zeta.
    destruct pe as [lo|e]; done.
Qed.

Lemma empty_trials_aggregation_witness :
  np_min_axis1 [[]; []] = Raise (zero_size "minimum") ∧
  let after :=
    ErrorBars.photon_step (Raise IndexError) (9 # 10) [[1]]%Q [[[]]] [20]%Z 0 "one"
      (0%nat, 20%Z) (World (ErrorBars.Variables [] [] [] [] []) []) in
  ErrorBars.classifier_means_across_photons (vars after.1) = [] ++ [NaN] ∧
  after.2 = (Raise IndexError ≫= λ _ : float64, Ok ()).
Proof.
  split.
  - apply (proj1 empty_trials_aggregation [[]; []]); [done|by repeat constructor].
  - apply (proj2 (proj2 empty_trials_aggregation)
             (Raise IndexError) (9 # 10) [[1]]%Q [[[]]] [20]%Z 0%nat "one"
             0%nat 20%Z 1%Q).
    + reflexivity.
    + reflexivity.
    + by left.
    + apply psf_label_set_elem. by left.
    + reflexivity.
    + reflexivity.
Defined.

(** ** Loading artifacts *)

Lemma np_load_Some {V} (fs : files) (path : string) (a : ndarray) (w : world V) :
  fs !! path = Some a →
  np_load fs path w = (World (vars w) (opened w ++ [path]), Ok a).
Proof. intros H. unfold np_load. by rewrite H. Qed.

Lemma np_load_None {V} (fs : files) (path : string) (w : world V) :
  fs !! path = None →
  np_load fs path w =
    (World (vars w) (opened w ++ [path]), Raise (FileNotFoundError path)).
Proof. intros H. unfold np_load. by rewrite H. Qed.

Lemma stored_Some (fs : files) (path : string) (a : ndarray) :
  fs !! path = Some a → stored fs path = a.
Proof. intros H. unfold stored. by rewrite H. Qed.

Lemma for_each_app {V X} (xs ys : list X) (body : X → cell V unit)
    (w w1 : world V) :
  for_each xs body w = (w1, Ok ()) →
  for_each (xs ++ ys) body w = for_each ys body w1.
Proof.
  revert w. induction xs as [|x xs IH]; intros w; simpl app.
  - rewrite for_each_nil. by intros [= ->].
  - rewrite !for_each_cons. destruct (body x w) as [w2 [[]|e]]; [apply IH|done].
Qed.

Lemma for_each_raise {V X} (x : X) (xs : list X) (body : X → cell V unit)
    (w w1 : world V) (e : exn) :
  body x w = (w1, Raise e) → for_each (x :: xs) body w = (w1, Raise e).
Proof. intros H. by rewrite for_each_cons, H. Qed.

Lemma mi_files_cons (folder psf_name : string) (pc : Z) (pcs : list Z) :
  mi_files folder psf_name (pc :: pcs) =
  gaussian_file folder pc psf_name :: pixelcnn_file folder pc psf_name ::
  mi_files folder psf_name pcs.
Proof. reflexivity. Qed.

Lemma mi_files_present (fs : files) (folder psf_name : string) (pcs : list Z) :
  (∀ path, path ∈ mi_files folder psf_name pcs → is_Some (fs !! path)) →
  ∀ pc, pc ∈ pcs →
    is_Some (fs !! gaussian_file folder pc psf_name) ∧
    is_Some (fs !! pixelcnn_file folder pc psf_name).
Proof.
  intros H pc Hpc. split; apply H; unfold mi_files;
    apply list_elem_of_bind; exists pc; (split; [|done]).
  - by left.
  - right. by left.
Qed.

(** *** The minimum-plot cell *)

Section MinimumPlotLoads.
Variables (fs : files) (folder : string) (pcs : list Z).

Let photon := MinimumPlot.load_photon_count fs folder.
Let psf_body := MinimumPlot.load_psf fs folder pcs.

Lemma minimum_photon_ok psf_name pc ga pa eg ep op :
  is_Some (fs !! gaussian_file folder pc psf_name) →
  is_Some (fs !! pixelcnn_file folder pc psf_name) →
  photon psf_name pc (World (MinimumPlot.Variables ga pa eg ep) op) =
    (World (MinimumPlot.Variables
              (ga ++ [stored fs (gaussian_file folder pc psf_name)])
              (pa ++ [stored fs (pixelcnn_file folder pc psf_name)]) eg ep)
           (op ++ [gaussian_file folder pc psf_name;
                   pixelcnn_file folder pc psf_name]), Ok ()).
Proof.
  intros [g Hg] [p Hp]. unfold photon, MinimumPlot.load_photon_count.
  rewrite gaussian_mi_path_Ok, pixelcnn_mi_path_Ok.
  unfold mbind, cell_bind, lift.
  rewrite (np_load_Some _ _ _ _ Hg). rewrite (np_load_Some _ _ _ _ Hp).
  rewrite (stored_Some _ _ _ Hg), (stored_Some _ _ _ Hp).
  unfold modify. simpl. by rewrite <- app_assoc.
Qed.

Lemma minimum_photon_missing psf_name pc attempted missing ga pa eg ep op :
  fs !! missing = None →
  (attempted = [gaussian_file folder pc psf_name] ∧
   missing = gaussian_file folder pc psf_name) ∨
  (attempted = [gaussian_file folder pc psf_name;
                pixelcnn_file folder pc psf_name] ∧
   is_Some (fs !! gaussian_file folder pc psf_name) ∧
   missing = pixelcnn_file folder pc psf_name) →
  photon psf_name pc (World (MinimumPlot.Variables ga pa eg ep) op) =
    (World (MinimumPlot.Variables ga pa eg ep) (op ++ attempted),
     Raise (FileNotFoundError missing)).
Proof.
  intros Hmiss Hcase. unfold photon, MinimumPlot.load_photon_count.
  rewrite gaussian_mi_path_Ok, pixelcnn_mi_path_Ok.
  unfold mbind, cell_bind, lift.
  destruct Hcase as [[-> ->]|(-> & [g Hg] & ->)].
  - by rewrite (np_load_None _ _ _ Hmiss).
  - rewrite (np_load_Some _ _ _ _ Hg). rewrite (np_load_None _ _ _ Hmiss).
    simpl. by rewrite <- app_assoc.
Qed.

Lemma minimum_photons_ok psf_name (done : list Z) ga pa eg ep op :
  (∀ path, path ∈ mi_files folder psf_name done → is_Some (fs !! path)) →
  for_each done (photon psf_name) (World (MinimumPlot.Variables ga pa eg ep) op) =
    (World (MinimumPlot.Variables
              (ga ++ gaussian_arrays fs folder psf_name done)
              (pa ++ pixelcnn_arrays fs folder psf_name done) eg ep)
           (op ++ mi_files folder psf_name done), Ok ()).
Proof.
  revert ga pa op. induction done as [|pc done IH]; intros ga pa op Hall.
  { rewrite for_each_nil. simpl. by rewrite !app_nil_r. }
  pose proof (mi_files_present fs folder psf_name (pc :: done) Hall pc) as [Hg Hp];
    [by left|].
  rewrite for_each_cons, (minimum_photon_ok _ _ _ _ _ _ _ Hg Hp).
  rewrite IH.
  2:{ intros path Hin. apply Hall. rewrite mi_files_cons. by do 2 right. }
  rewrite mi_files_cons. unfold gaussian_arrays, pixelcnn_arrays.
  rewrite !fmap_cons, <- !app_assoc. done.
Qed.

Lemma minimum_psf_ok psf_name mg mp ga pa eg ep op :
  (∀ path, path ∈ mi_files folder psf_name pcs → is_Some (fs !! path)) →
  np_min_axis1 (gaussian_arrays fs folder psf_name pcs) = Ok mg →
  np_min_axis1 (pixelcnn_arrays fs folder psf_name pcs) = Ok mp →
  psf_body psf_name (World (MinimumPlot.Variables ga pa eg ep) op) =
    (World (MinimumPlot.Variables
              (gaussian_arrays fs folder psf_name pcs)
              (pixelcnn_arrays fs folder psf_name pcs)
              (eg ++ [mg]) (ep ++ [mp]))
           (op ++ mi_files folder psf_name pcs), Ok ()).
Proof.
  intros Hall Hmg Hmp. unfold psf_body, MinimumPlot.load_psf.
  rewrite !bind_modify. cbn [vars opened].
  rewrite (bind_Ok _ _ _ _ _ (minimum_photons_ok psf_name pcs [] [] eg ep op Hall)).
  rewrite bind_get. cbn. rewrite Hmg, bind_lift_Ok.
  rewrite bind_get. cbn. rewrite Hmp, bind_lift_Ok.
  by rewrite bind_modify.
Qed.

Lemma minimum_psf_missing psf_name done pc rest attempted missing ga pa eg ep op :
  pcs = done ++ pc :: rest →
  (∀ path, path ∈ mi_files folder psf_name done → is_Some (fs !! path)) →
  fs !! missing = None →
  (attempted = [gaussian_file folder pc psf_name] ∧
   missing = gaussian_file folder pc psf_name) ∨
  (attempted = [gaussian_file folder pc psf_name;
                pixelcnn_file folder pc psf_name] ∧
   is_Some (fs !! gaussian_file folder pc psf_name) ∧
   missing = pixelcnn_file folder pc psf_name) →
  psf_body psf_name (World (MinimumPlot.Variables ga pa eg ep) op) =
    (World (MinimumPlot.Variables
              (gaussian_arrays fs folder psf_name done)
              (pixelcnn_arrays fs folder psf_name done) eg ep)
           (op ++ mi_files folder psf_name done ++ attempted),
     Raise (FileNotFoundError missing)).
Proof.
  intros -> Hall Hmiss Hcase. unfold psf_body, MinimumPlot.load_psf.
  rewrite !bind_modify. cbn [vars opened].
  pose proof (for_each_app done (pc :: rest) _ _ _
                (minimum_photons_ok psf_name done [] [] eg ep op Hall)) as Hrun.
  rewrite (for_each_raise _ _ _ _ _ _
             (minimum_photon_missing psf_name pc attempted missing _ _ _ _ _
                Hmiss Hcase)) in Hrun.
  rewrite (bind_Raise _ _ _ _ _ Hrun). cbn. by rewrite <- app_assoc.
Qed.
End MinimumPlotLoads.

Lemma minimum_psfs_ok (fs : files) (folder : string) (pcs : list Z)
    (psfs : list string) ga pa eg ep op :
  (∀ psf_name path, psf_name ∈ psfs → path ∈ mi_files folder psf_name pcs →
     is_Some (fs !! path)) →
  (∀ psf_name, psf_name ∈ psfs →
     ∃ mg mp, np_min_axis1 (gaussian_arrays fs folder psf_name pcs) = Ok mg ∧
              np_min_axis1 (pixelcnn_arrays fs folder psf_name pcs) = Ok mp) →
  ∃ ga' pa' mgs mps,
    for_each psfs (MinimumPlot.load_psf fs folder pcs)
             (World (MinimumPlot.Variables ga pa eg ep) op) =
      (World (MinimumPlot.Variables ga' pa' (eg ++ mgs) (ep ++ mps))
             (op ++ (psfs ≫= λ psf_name, mi_files folder psf_name pcs)), Ok ()) ∧
    Forall2 (λ psf_name m,
               np_min_axis1 (gaussian_arrays fs folder psf_name pcs) = Ok m)
            psfs mgs ∧
    Forall2 (λ psf_name m,
               np_min_axis1 (pixelcnn_arrays fs folder psf_name pcs) = Ok m)
            psfs mps.
Proof.
  revert ga pa eg ep op.
  induction psfs as [|psf_name psfs IH]; intros ga pa eg ep op Hfiles Hmins.
  { exists ga, pa, [], []. rewrite for_each_nil. simpl.
    rewrite !app_nil_r. by repeat split. }
  destruct (Hmins psf_name) as (mg & mp & Hmg & Hmp); [by left|].
  rewrite for_each_cons.
  rewrite (minimum_psf_ok fs folder pcs psf_name mg mp);
    [|intros path Hpath; apply (Hfiles psf_name); [by left|done]|done..].
  destruct (IH (gaussian_arrays fs folder psf_name pcs)
               (pixelcnn_arrays fs folder psf_name pcs)
               (eg ++ [mg]) (ep ++ [mp])
               (op ++ mi_files folder psf_name pcs))
    as (ga' & pa' & mgs & mps & Hrun & Hgs & Hps).
  { intros p path Hp. apply Hfiles. by right. }
  { intros p Hp. apply Hmins. by right. }
  exists ga', pa', (mg :: mgs), (mp :: mps). rewrite Hrun.
  rewrite <- !app_assoc. simpl. repeat split; by constructor.
Qed.

(** C5 as the specification states it does not hold: the PSFs that were
    read before the missing file have left their minima in the session. *)
Lemma missing_artifact_counterexample :
  ¬ (∀ (fs : files) (w w' : world MinimumPlot.variables) (e : exn),
       MinimumPlot.notebook fs w = (w', Raise e) → vars w' = vars w).
Proof.
  intros H.
  specialize (H (list_to_map ((λ path, (path, [1; 2]%Q)) <$>
                              mi_files mi_folder "one" mean_photon_count_list))
                (World (MinimumPlot.Variables [] [] [] []) [])).
  match type of H with
  | ∀ w' e, ?run = _ → _ =>
    let r := eval vm_compute in run in
    match r with
    | (?w1, Raise ?e1) => specialize (H w1 e1)
    end
  end.
  assert (Hrun := H ltac:(vm_compute; reflexivity)).
  apply (f_equal MinimumPlot.gaussian_mi_estimates_across_psfs) in Hrun.
  vm_compute in Hrun. discriminate Hrun.
Qed.

(** C5, amended. When a file is missing, [np.load] raises
    [FileNotFoundError] for that path and the cell stops there: the files
    opened are those before it in the order of the loops and the missing
    one, and nothing stands in for the missing results.  The failing load
    changes no variable, but the session keeps what was gathered before
    it: the minima of the PSFs that were read in full, and the arrays of
    the interrupted PSF. *)
Theorem missing_artifact_aborts (fs : files) (folder : string)
    (psfs_done : list string) (psf_name : string) (psfs_rest : list string)
    (pcs_done : list Z) (pc : Z) (pcs_rest : list Z)
    (attempted : list string) (missing : string)
    (w : world MinimumPlot.variables) :
  let pcs := pcs_done ++ pc :: pcs_rest in
  (∀ p path, p ∈ psfs_done → path ∈ mi_files folder p pcs → is_Some (fs !! path)) →
  (∀ p, p ∈ psfs_done →
     ∃ mg mp, np_min_axis1 (gaussian_arrays fs folder p pcs) = Ok mg ∧
              np_min_axis1 (pixelcnn_arrays fs folder p pcs) = Ok mp) →
  (∀ path, path ∈ mi_files folder psf_name pcs_done → is_Some (fs !! path)) →
  fs !! missing = None →
  (attempted = [gaussian_file folder pc psf_name] ∧
   missing = gaussian_file folder pc psf_name) ∨
  (attempted = [gaussian_file folder pc psf_name;
                pixelcnn_file folder pc psf_name] ∧
   is_Some (fs !! gaussian_file folder pc psf_name) ∧
   missing = pixelcnn_file folder pc psf_name) →
  ∃ w',
    MinimumPlot.run fs folder (psfs_done ++ psf_name :: psfs_rest) pcs w =
      (w', Raise (FileNotFoundError missing)) ∧
    opened w' =
      opened w ++ (psfs_done ≫= λ p, mi_files folder p pcs) ++
      mi_files folder psf_name pcs_done ++ attempted ∧
    Forall2 (λ p m, np_min_axis1 (gaussian_arrays fs folder p pcs) = Ok m)
            psfs_done
            (MinimumPlot.gaussian_mi_estimates_across_psfs (vars w')) ∧
    Forall2 (λ p m, np_min_axis1 (pixelcnn_arrays fs folder p pcs) = Ok m)
            psfs_done
            (MinimumPlot.pixelcnn_mi_estimates_across_psfs (vars w')) ∧
    MinimumPlot.gaussian_across_photons (vars w') =
      gaussian_arrays fs folder psf_name pcs_done ∧
    MinimumPlot.pixelcnn_across_photons (vars w') =
      pixelcnn_arrays fs folder psf_name pcs_done ∧
    np_load fs missing w' =
      (World (vars w') (opened w' ++ [missing]), Raise (FileNotFoundError missing)).
Proof.
  intros pcs Hfiles Hmins Hdone Hmiss Hcase.
  destruct w as [[ga pa eg ep] op]. unfold MinimumPlot.run.
  rewrite !bind_modify. cbn [vars opened].
  destruct (minimum_psfs_ok fs folder pcs psfs_done ga pa [] [] op Hfiles Hmins)
    as (ga' & pa' & mgs & mps & Hrun & Hgs & Hps).
  change (MinimumPlot.set_pixelcnn_mi_estimates_across_psfs [] _)
    with (MinimumPlot.Variables ga pa [] []).
  rewrite (for_each_app _ _ _ _ _ Hrun).
  rewrite (for_each_raise _ _ _ _ _ _
             (minimum_psf_missing fs folder pcs psf_name pcs_done pc pcs_rest
                attempted missing _ _ _ _ _ eq_refl Hdone Hmiss Hcase)).
  eexists. split; [reflexivity|].
  split; [cbn; by rewrite <- !app_assoc|].
  do 4 (split; [done|]). by apply np_load_None.
Qed.

Lemma missing_artifact_aborts_witness :
  ∃ w',
    MinimumPlot.run example_files "" (["one"] ++ "four" :: ["diffuser"])
                    ([20] ++ 40 :: [])%Z
                    (World (MinimumPlot.Variables [] [] [] []) []) =
      (w', Raise (FileNotFoundError (gaussian_file "" 40 "four"))) ∧
    opened w' =
      [] ++ (["one"] ≫= λ p, mi_files "" p ([20] ++ 40 :: [])%Z) ++
      mi_files "" "four" [20]%Z ++ [gaussian_file "" 40 "four"] ∧
    Forall2 (λ p m, np_min_axis1
                      (gaussian_arrays example_files "" p ([20] ++ 40 :: [])%Z) = Ok m)
            ["one"]
            (MinimumPlot.gaussian_mi_estimates_across_psfs (vars w')) ∧
    Forall2 (λ p m, np_min_axis1
                      (pixelcnn_arrays example_files "" p ([20] ++ 40 :: [])%Z) = Ok m)
            ["one"]
            (MinimumPlot.pixelcnn_mi_estimates_across_psfs (vars w')) ∧
    MinimumPlot.gaussian_across_photons (vars w') =
      gaussian_arrays example_files "" "four" [20]%Z ∧
    MinimumPlot.pixelcnn_across_photons (vars w') =
      pixelcnn_arrays example_files "" "four" [20]%Z ∧
    np_load example_files (gaussian_file "" 40 "four") w' =
      (World (vars w') (opened w' ++ [gaussian_file "" 40 "four"]),
       Raise (FileNotFoundError (gaussian_file "" 40 "four"))).
Proof.
  apply (missing_artifact_aborts example_files "" ["one"] "four" ["diffuser"]
           [20]%Z 40%Z [] [gaussian_file "" 40 "four"]
           (gaussian_file "" 40 "four")).
  - intros p path [->|[]%elem_of_nil]%elem_of_cons Hpath.
    repeat (apply elem_of_cons in Hpath as [->|Hpath]);
      [eexists; vm_compute; reflexivity..|by apply elem_of_nil in Hpath].
  - intros p [->|[]%elem_of_nil]%elem_of_cons.
    eexists _, _. split; vm_compute; reflexivity.
  - intros path Hpath.
    repeat (apply elem_of_cons in Hpath as [->|Hpath]);
      [eexists; vm_compute; reflexivity..|by apply elem_of_nil in Hpath].
  - vm_compute. reflexivity.
  - left. split; reflexivity.
Defined.

(** *** The classifier cell *)

Lemma lengths_replicate (rows : list ndarray) (n : nat) :
  Forall (λ row, length row = n) rows →
  length <$> rows = replicate (length rows) n.
Proof.
  induction 1 as [|row rows Hrow _ IH]; [done|].
  rewrite fmap_cons. simpl. by rewrite Hrow, IH.
Qed.

Section ClassifierLoads.
Variables (fs : files) (folder : string) (bias : Z).

Lemma classifier_photons_ok psf_name (pcs : list Z) ca all op :
  (∀ pc, pc ∈ pcs →
     is_Some (fs !! classifier_file folder pc psf_name bias "cnn")) →
  for_each pcs (Classifier.load_photon_count fs folder bias psf_name)
           (World (Classifier.Variables ca all) op) =
    (World (Classifier.Variables
              (ca ++ classifier_arrays fs folder bias psf_name pcs) all)
           (op ++ ((λ pc, classifier_file folder pc psf_name bias "cnn") <$> pcs)),
     Ok ()).
Proof.
  revert ca op. induction pcs as [|pc pcs IH]; intros ca op Hall.
  { rewrite for_each_nil. simpl. by rewrite !app_nil_r. }
  destruct (Hall pc) as [a Ha]; [by left|].
  rewrite for_each_cons. unfold Classifier.load_photon_count at 1.
  rewrite classifier_path_Ok, bind_lift_Ok.
  rewrite (bind_Ok _ _ _ _ _ (np_load_Some fs _ a _ Ha)).
  unfold modify. cbn [vars opened].
  change (Classifier.set_classifier_across_photons _ _)
    with (Classifier.Variables (ca ++ [a]) all).
  rewrite IH by (intros pc' Hpc'; apply Hall; by right).
  unfold classifier_arrays. rewrite !fmap_cons, <- !app_assoc.
  by rewrite (stored_Some _ _ _ Ha).
Qed.

Lemma classifier_arrays_lengths psf_name (pcs : list Z) (n : nat) :
  (∀ pc, pc ∈ pcs →
     ∃ a, fs !! classifier_file folder pc psf_name bias "cnn" = Some a ∧
          length a = n) →
  Forall (λ row, length row = n) (classifier_arrays fs folder bias psf_name pcs).
Proof.
  intros Hall. unfold classifier_arrays. apply Forall_fmap, Forall_forall.
  intros pc Hpc. destruct (Hall pc Hpc) as (a & Ha & Hlen). simpl.
  by rewrite (stored_Some _ _ _ Ha).
Qed.

Lemma classifier_psfs_ok (psfs : list string) (pcs : list Z) (n : nat) ca all op :
  (∀ psf_name pc, psf_name ∈ psfs → pc ∈ pcs →
     ∃ a, fs !! classifier_file folder pc psf_name bias "cnn" = Some a ∧
          length a = n) →
  ∃ ca' op',
    for_each psfs (Classifier.load_psf fs folder pcs bias)
             (World (Classifier.Variables ca all) op) =
      (World (Classifier.Variables ca'
                (all ++ ((λ psf_name, classifier_arrays fs folder bias psf_name pcs)
                           <$> psfs))) op', Ok ()).
Proof.
  revert ca all op. induction psfs as [|psf_name psfs IH]; intros ca all op Hall.
  { exists ca, op. rewrite for_each_nil. simpl. by rewrite app_nil_r. }
  rewrite for_each_cons. unfold Classifier.load_psf at 1.
  rewrite bind_modify. cbn [vars opened].
  assert (∀ pc, pc ∈ pcs →
            is_Some (fs !! classifier_file folder pc psf_name bias "cnn")) as Hpres.
  { intros pc Hpc. destruct (Hall psf_name pc) as (a & Ha & _); [by left|done|].
    by exists a. }
  rewrite (bind_Ok _ _ _ _ _ (classifier_photons_ok psf_name pcs [] all op Hpres)).
  rewrite bind_get. cbn [vars Classifier.classifier_across_photons app].
  unfold Classifier.np_array.
  rewrite (same_length_Forall _ n)
    by (apply classifier_arrays_lengths; intros pc Hpc; apply Hall; [by left|done]).
  rewrite bind_lift_Ok, bind_modify. unfold modify. cbn [vars opened].
  match goal with |- context [for_each psfs _ (World ?v ?o)] =>
    destruct (IH (classifier_arrays fs folder bias psf_name pcs)
                 (all ++ [classifier_arrays fs folder bias psf_name pcs]) o)
      as (ca' & op' & Hrun)
  end.
  { intros p pc Hp Hpc. apply Hall; [by right|done]. }
  exists ca', op'. rewrite fmap_cons.
  rewrite <- app_assoc in Hrun. exact Hrun.
Qed.

Lemma classifier_same_shape (psfs : list string) (pcs : list Z) (n : nat) :
  (∀ psf_name pc, psf_name ∈ psfs → pc ∈ pcs →
     ∃ a, fs !! classifier_file folder pc psf_name bias "cnn" = Some a ∧
          length a = n) →
  Classifier.same_shape
    ((λ psf_name, classifier_arrays fs folder bias psf_name pcs) <$> psfs) = true.
Proof.
  intros Hall.
  assert (∀ psf_name, psf_name ∈ psfs →
            length <$> classifier_arrays fs folder bias psf_name pcs =
            replicate (length pcs) n) as Hshape.
  { intros psf_name Hpsf.
    pose proof (classifier_arrays_lengths psf_name pcs n
                  (λ pc Hpc, Hall psf_name pc Hpsf Hpc)) as Hlen.
    rewrite (lengths_replicate _ n Hlen).
    unfold classifier_arrays. by rewrite length_fmap. }
  destruct psfs as [|psf_name psfs]; [done|]. simpl.
  apply forallb_forall. intros g Hg%list_elem_of_In.
  apply list_elem_of_fmap in Hg as (p & -> & Hp).
  apply bool_decide_eq_true.
  rewrite (Hshape p) by (by right). rewrite (Hshape psf_name) by (by left). done.
Qed.
End ClassifierLoads.

(** C7 as the specification states it does not hold: an array of three
    trials is loaded like any other, whatever number of trials was
    expected. *)
Lemma shape_mismatch_counterexample :
  ¬ (∀ (fs : files) (path : string) (a : ndarray) (expected : nat)
       (w : world Classifier.variables),
       fs !! path = Some a → length a ≠ expected →
       ∃ e, (np_load fs path w).2 = Raise e).
Proof.
  intros H.
  destruct (H {[ classifier_file "" 20 "one" 10 "cnn" := [1; 2; 3]%Q ]}
              (classifier_file "" 20 "one" 10 "cnn") [1; 2; 3]%Q 10%nat
              (World (Classifier.Variables [] []) []))
    as [e He].
  - by vm_compute.
  - simpl. lia.
  - vm_compute in He. discriminate He.
Qed.

(** C7, amended. The loading compares the length of an array with no
    expected number of trials: when every classifier file is there and the
    arrays have one length, whatever it is, the cell ends normally and
    holds each array as it was saved. *)
Theorem classifier_load_any_trial_count (fs : files) (folder : string) (bias : Z)
    (psfs : list string) (pcs : list Z) (n : nat)
    (w : world Classifier.variables) :
  (∀ psf_name pc, psf_name ∈ psfs → pc ∈ pcs →
     ∃ a, fs !! classifier_file folder pc psf_name bias "cnn" = Some a ∧
          length a = n) →
  ∃ w',
    Classifier.run fs folder psfs pcs bias w = (w', Ok ()) ∧
    Classifier.classifier_all_trials_across_psfs (vars w') =
      (λ psf_name, classifier_arrays fs folder bias psf_name pcs) <$> psfs ∧
    ∀ psf_name pc a, psf_name ∈ psfs → pc ∈ pcs →
      fs !! classifier_file folder pc psf_name bias "cnn" = Some a →
      np_load fs (classifier_file folder pc psf_name bias "cnn") w =
        (World (vars w)
               (opened w ++ [classifier_file folder pc psf_name bias "cnn"]), Ok a).
Proof.
  intros Hall. destruct w as [[ca all] op]. unfold Classifier.run.
  rewrite bind_modify. cbn [vars opened].
  destruct (classifier_psfs_ok fs folder bias psfs pcs n ca [] op Hall)
    as (ca' & op' & Hrun).
  change (Classifier.set_classifier_all_trials_across_psfs [] _)
    with (Classifier.Variables ca []).
  rewrite (bind_Ok _ _ _ _ _ Hrun). rewrite bind_get.
  cbn [vars Classifier.classifier_all_trials_across_psfs app].
  unfold Classifier.np_array3.
  rewrite (classifier_same_shape fs folder bias psfs pcs n Hall).
  rewrite bind_lift_Ok. eexists. split; [reflexivity|]. split; [done|].
  intros psf_name pc a _ _ Ha. by apply np_load_Some.
Qed.

Lemma classifier_load_any_trial_count_witness :
  ∃ w',
    Classifier.run example_classifier_files "" ["one"] [20; 40]%Z 10
                   (World (Classifier.Variables [] []) []) = (w', Ok ()) ∧
    Classifier.classifier_all_trials_across_psfs (vars w') =
      (λ psf_name, classifier_arrays example_classifier_files "" 10 psf_name
                     [20; 40]%Z) <$> ["one"] ∧
    ∀ psf_name pc a, psf_name ∈ ["one"] → pc ∈ [20; 40]%Z →
      example_classifier_files !! classifier_file "" pc psf_name 10 "cnn" = Some a →
      np_load example_classifier_files (classifier_file "" pc psf_name 10 "cnn")
              (World (Classifier.Variables [] []) []) =
        (World (Classifier.Variables [] [])
               ([] ++ [classifier_file "" pc psf_name 10 "cnn"]), Ok a).
Proof.
  apply (classifier_load_any_trial_count example_classifier_files "" 10
           ["one"] [20; 40]%Z 3).
  intros psf_name pc [->|[]%elem_of_nil]%elem_of_cons Hpc.
  repeat (apply elem_of_cons in Hpc as [->|Hpc]);
    [eexists; split; vm_compute; reflexivity..|by apply elem_of_nil in Hpc].
Defined.

(** *** The mean-plot cell *)

Lemma pixelcnn_clip_nonempty (a : ndarray) :
  a ≠ [] → pixelcnn_clip a = Ok (clipped a).
Proof.
  intros Ha. unfold clipped.
  destruct (np_max_nonempty a Ha) as [hi Hhi].
  destruct (np_min_nonempty a Ha) as [lo Hlo].
  unfold pixelcnn_clip. rewrite (outlier_clip_unfold _ _ _ _ Hhi Hlo).
  by destruct (float64_gt _ _).
Qed.

Lemma insert_last {A} (l : list A) (x y : A) :
  <[length l := y]> (l ++ [x]) = l ++ [y].
Proof.
  rewrite insert_app_r_alt by lia. by rewrite Nat.sub_diag.
Qed.

Section MeanPlotLoads.
Variables (fs : files) (folder : string).
Variable confidence_bars : list ndarray → Z → result (list Q * list Q * list Q).

Lemma alloc_eq (a : ndarray) h gr pr calls op :
  MeanPlot.alloc a (World (MeanPlot.Variables h gr pr calls) op) =
    (World (MeanPlot.Variables (h ++ [a]) gr pr calls) op, Ok (length h)).
Proof. reflexivity. Qed.

Lemma deref_eq (ref : nat) (a : ndarray) h gr pr calls op :
  h !! ref = Some a →
  MeanPlot.deref ref (World (MeanPlot.Variables h gr pr calls) op) =
    (World (MeanPlot.Variables h gr pr calls) op, Ok a).
Proof.
  intros H. unfold MeanPlot.deref. rewrite bind_get.
  cbn [vars MeanPlot.heap]. by rewrite H.
Qed.

Lemma store_eq (ref : nat) (a : ndarray) h gr pr calls op :
  MeanPlot.store ref a (World (MeanPlot.Variables h gr pr calls) op) =
    (World (MeanPlot.Variables (<[ref := a]> h) gr pr calls) op, Ok ()).
Proof. reflexivity. Qed.

Lemma mean_photon_ok psf_name pc g p h gr pr calls op :
  fs !! gaussian_file folder pc psf_name = Some g →
  fs !! pixelcnn_file folder pc psf_name = Some p →
  p ≠ [] →
  MeanPlot.load_photon_count fs folder psf_name pc
      (World (MeanPlot.Variables h gr pr calls) op) =
    (World (MeanPlot.Variables (h ++ [g; clipped p])
              (gr ++ [length h]) (pr ++ [S (length h)]) calls)
           (op ++ [gaussian_file folder pc psf_name;
                   pixelcnn_file folder pc psf_name]), Ok ()).
Proof.
  intros Hg Hp Hne. unfold MeanPlot.load_photon_count.
  rewrite gaussian_mi_path_Ok, bind_lift_Ok.
  rewrite (bind_Ok _ _ _ _ _ (np_load_Some fs _ g _ Hg)). cbn [vars opened].
  rewrite (bind_Ok _ _ _ _ _ (alloc_eq g h gr pr calls _)).
  rewrite pixelcnn_mi_path_Ok, bind_lift_Ok.
  rewrite (bind_Ok _ _ _ _ _ (np_load_Some fs _ p _ Hp)). cbn [vars opened].
  rewrite (bind_Ok _ _ _ _ _ (alloc_eq p (h ++ [g]) gr pr calls _)).
  rewrite (bind_Ok _ _ _ _ _ (deref_eq (length (h ++ [g])) p _ gr pr calls _
                                (list_lookup_middle (h ++ [g]) [] p _ eq_refl))).
  rewrite (pixelcnn_clip_nonempty p Hne), bind_lift_Ok.
  rewrite (bind_Ok _ _ _ _ _ (store_eq _ _ _ _ _ _ _)).
  rewrite bind_modify. unfold modify.
  cbn [vars opened MeanPlot.set_heap MeanPlot.heap
       MeanPlot.set_gaussian_across_photons MeanPlot.set_pixelcnn_across_photons
       MeanPlot.gaussian_across_photons MeanPlot.pixelcnn_across_photons
       MeanPlot.confidence_bars_calls].
  rewrite insert_last, length_app, <- !app_assoc. simpl.
  by rewrite Nat.add_1_r.
Qed.
Lemma mean_photons_ok psf_name (pcs : list Z) h gr pr calls op gs ps :
  (∀ pc, pc ∈ pcs →
     is_Some (fs !! gaussian_file folder pc psf_name) ∧
     ∃ p, fs !! pixelcnn_file folder pc psf_name = Some p ∧ p ≠ []) →
  Forall2 (λ ref a, h !! ref = Some a) gr gs →
  Forall2 (λ ref a, h !! ref = Some a) pr ps →
  ∃ h' gr' pr' op',
    for_each pcs (MeanPlot.load_photon_count fs folder psf_name)
             (World (MeanPlot.Variables h gr pr calls) op) =
      (World (MeanPlot.Variables h' gr' pr' calls) op', Ok ()) ∧
    Forall2 (λ ref a, h' !! ref = Some a) gr'
            (gs ++ gaussian_arrays fs folder psf_name pcs) ∧
    Forall2 (λ ref a, h' !! ref = Some a) pr'
            (ps ++ (clipped <$> pixelcnn_arrays fs folder psf_name pcs)).
Proof.
  revert h gr pr op gs ps.
  induction pcs as [|pc pcs IH]; intros h gr pr op gs ps Hall Hgr Hpr.
  { exists h, gr, pr, op. rewrite for_each_nil. simpl. by rewrite !app_nil_r. }
  destruct (Hall pc) as [[g Hg] (p & Hp & Hne)]; [by left|].
  rewrite for_each_cons, (mean_photon_ok psf_name pc g p h gr pr calls op Hg Hp Hne).
  assert (∀ ref a, h !! ref = Some a → (h ++ [g; clipped p]) !! ref = Some a)
    as Hold by (intros ref a; apply lookup_app_l_Some).
  destruct (IH (h ++ [g; clipped p]) (gr ++ [length h]) (pr ++ [S (length h)])
               (op ++ [gaussian_file folder pc psf_name;
                       pixelcnn_file folder pc psf_name])
               (gs ++ [g]) (ps ++ [clipped p]))
    as (h' & gr' & pr' & op' & Hrun & Hgr' & Hpr').
  { intros pc' Hpc'. apply Hall. by right. }
  { apply Forall2_app.
    - eapply Forall2_impl; [exact Hgr|]. apply Hold.
    - repeat constructor. by apply list_lookup_middle. }
  { apply Forall2_app.
    - eapply Forall2_impl; [exact Hpr|]. apply Hold.
    - repeat constructor.
      change (h ++ [g; clipped p]) with (h ++ [g] ++ [clipped p]).
      rewrite app_assoc. apply list_lookup_middle.
      rewrite length_app. simpl. lia. }
  exists h', gr', pr', op'. split; [exact Hrun|].
  unfold gaussian_arrays, pixelcnn_arrays in *. rewrite !fmap_cons.
  rewrite (stored_Some _ _ _ Hg), (stored_Some _ _ _ Hp).
  rewrite <- !app_assoc in Hgr', Hpr'. by split.
Qed.

Lemma call_confidence_bars_eq refs arrays num_trials h gr pr calls op :
  Forall2 (λ ref a, h !! ref = Some a) refs arrays →
  MeanPlot.call_confidence_bars confidence_bars refs num_trials
      (World (MeanPlot.Variables h gr pr calls) op) =
    (World (MeanPlot.Variables h gr pr (calls ++ [(arrays, num_trials)])) op,
     confidence_bars arrays num_trials).
Proof.
  intros Hrefs. unfold MeanPlot.call_confidence_bars.
  rewrite bind_get. cbn [vars MeanPlot.heap].
  unfold MeanPlot.snapshot. rewrite (mapM_Some_2 _ _ _ Hrefs).
  by rewrite bind_modify.
Qed.

Lemma mean_psf_calls psf_name (pcs : list Z) h gr pr calls op :
  (∀ pc, pc ∈ pcs →
     is_Some (fs !! gaussian_file folder pc psf_name) ∧
     ∃ p, fs !! pixelcnn_file folder pc psf_name = Some p ∧ p ≠ []) →
  ∃ h' gr' pr' op' r news,
    MeanPlot.plot_psf fs folder pcs confidence_bars psf_name
        (World (MeanPlot.Variables h gr pr calls) op) =
      (World (MeanPlot.Variables h' gr' pr' (calls ++ news)) op', r) ∧
    news `prefix_of` expected_calls fs folder [psf_name] pcs ∧
    (r = Ok () → news = expected_calls fs folder [psf_name] pcs).
Proof.
  intros Hall. unfold MeanPlot.plot_psf.
  rewrite !bind_modify. cbn [vars opened].
  destruct (mean_photons_ok psf_name pcs h [] [] calls op [] [] Hall)
    as (h' & gr' & pr' & op' & Hrun & Hgr' & Hpr'); [constructor..|].
  simpl in Hgr', Hpr'.
  rewrite (bind_Ok _ _ _ _ _ Hrun). rewrite bind_get.
  cbn [vars MeanPlot.gaussian_across_photons].
  pose proof (call_confidence_bars_eq gr' _ 9 h' gr' pr' calls op' Hgr') as Hcall.
  exists h', gr', pr', op'.
  destruct (confidence_bars (gaussian_arrays fs folder psf_name pcs) 9)
    as [bars|e] eqn:Hbars.
  - rewrite (bind_Ok _ _ _ _ _ Hcall). rewrite bind_get.
    cbn [vars MeanPlot.pixelcnn_across_photons].
    pose proof (call_confidence_bars_eq pr' _ 9 h' gr' pr'
                  (calls ++ [(gaussian_arrays fs folder psf_name pcs, 9%Z)])
                  op' Hpr') as Hcall2.
    rewrite <- app_assoc in Hcall2.
    destruct (confidence_bars (clipped <$> pixelcnn_arrays fs folder psf_name pcs) 9)
      as [bars2|e] eqn:Hbars2.
    + rewrite (bind_Ok _ _ _ _ _ Hcall2).
      eexists (Ok ()), _. split; [reflexivity|]. by split.
    + rewrite (bind_Raise _ _ _ _ _ Hcall2).
      eexists (Raise e), _. split; [reflexivity|]. by split.
  - rewrite (bind_Raise _ _ _ _ _ Hcall).
    eexists (Raise e), _. split; [reflexivity|]. split; [|done].
    by eexists [_].
Qed.

Lemma mean_run_calls (psfs : list string) (pcs : list Z) h gr pr calls op :
  (∀ psf_name pc, psf_name ∈ psfs → pc ∈ pcs →
     is_Some (fs !! gaussian_file folder pc psf_name) ∧
     ∃ p, fs !! pixelcnn_file folder pc psf_name = Some p ∧ p ≠ []) →
  ∃ w' r news,
    MeanPlot.run fs folder psfs pcs confidence_bars
        (World (MeanPlot.Variables h gr pr calls) op) = (w', r) ∧
    MeanPlot.confidence_bars_calls (vars w') = calls ++ news ∧
    news `prefix_of` expected_calls fs folder psfs pcs ∧
    (r = Ok () → news = expected_calls fs folder psfs pcs).
Proof.
  unfold MeanPlot.run. revert h gr pr calls op.
  induction psfs as [|psf_name psfs IH]; intros h gr pr calls op Hall.
  { eexists _, (Ok ()), []. rewrite for_each_nil. simpl. by rewrite app_nil_r. }
  destruct (mean_psf_calls psf_name pcs h gr pr calls op)
    as (h' & gr' & pr' & op' & r & news & Hpsf & Hpre & Hok).
  { intros pc Hpc. apply Hall; [by left|done]. }
  rewrite for_each_cons, Hpsf.
  change (expected_calls fs folder (psf_name :: psfs) pcs)
    with (expected_calls fs folder [psf_name] pcs ++ expected_calls fs folder psfs pcs).
  destruct r as [[]|e].
  - destruct (IH h' gr' pr' (calls ++ news) op')
      as (w' & r' & news' & Hrun & Hcalls & Hpre' & Hok').
    { intros p pc Hp Hpc. apply Hall; [by right|done]. }
    exists w', r', (news ++ news'). rewrite Hrun, Hcalls, app_assoc.
    rewrite (Hok eq_refl). split; [done|]. split; [done|]. split.
    + by apply prefix_app.
    + intros Hr'. by rewrite (Hok' Hr').
  - eexists _, (Raise e), news. split; [reflexivity|]. split; [done|]. split; [|done].
    by apply prefix_app_r.
Qed.
End MeanPlotLoads.

(** C10. In the mean-plot cell every call of [confidence_bars] is, in
    order, one of the expected calls: for each PSF the Gaussian arrays as
    they were saved, element for element, and then the PixelCNN arrays
    after the clipping.  When the cell ends normally all of them were
    made. *)
Theorem gaussian_estimates_not_clipped (fs : files) (folder : string)
    (psfs : list string) (pcs : list Z)
    (confidence_bars : list ndarray → Z → result (list Q * list Q * list Q))
    (w : world MeanPlot.variables) :
  (∀ psf_name pc, psf_name ∈ psfs → pc ∈ pcs →
     is_Some (fs !! gaussian_file folder pc psf_name) ∧
     ∃ p, fs !! pixelcnn_file folder pc psf_name = Some p ∧ p ≠ []) →
  (∃ w' r news,
     MeanPlot.run fs folder psfs pcs confidence_bars w = (w', r) ∧
     MeanPlot.confidence_bars_calls (vars w') =
       MeanPlot.confidence_bars_calls (vars w) ++ news ∧
     news `prefix_of` expected_calls fs folder psfs pcs ∧
     (r = Ok () → news = expected_calls fs folder psfs pcs)) ∧
  (∀ psf_name i pc g,
     pcs !! i = Some pc → fs !! gaussian_file folder pc psf_name = Some g →
     gaussian_arrays fs folder psf_name pcs !! i = Some g) ∧
  (∀ psf_name i pc p,
     pcs !! i = Some pc → fs !! pixelcnn_file folder pc psf_name = Some p →
     (clipped <$> pixelcnn_arrays fs folder psf_name pcs) !! i = Some (clipped p) ∧
     pixelcnn_clip p = Ok (clipped p) ∨ p = []).
Proof.
  intros Hall. split; [|split].
  - destruct w as [[h gr pr calls] op].
    apply (mean_run_calls fs folder confidence_bars psfs pcs h gr pr calls op Hall).
  - intros psf_name i pc g Hpc Hg. unfold gaussian_arrays.
    rewrite list_lookup_fmap, Hpc. simpl. by rewrite (stored_Some _ _ _ Hg).
  - intros psf_name i pc p Hpc Hp. destruct p as [|v p]; [by right|left].
    split; [|by apply pixelcnn_clip_nonempty].
    unfold pixelcnn_arrays. rewrite !list_lookup_fmap, Hpc. simpl.
    by rewrite (stored_Some _ _ _ Hp).
Qed.

Lemma gaussian_estimates_not_clipped_witness :
  ∃ w' r news,
    MeanPlot.run example_outlier_files "" ["one"] [20]%Z (λ _ _, Ok ([], [], []))
                 (World (MeanPlot.Variables [] [] [] []) []) = (w', r) ∧
    MeanPlot.confidence_bars_calls (vars w') = [] ++ news ∧
    news `prefix_of` expected_calls example_outlier_files "" ["one"] [20]%Z ∧
    (r = Ok () → news = expected_calls example_outlier_files "" ["one"] [20]%Z).
Proof.
  apply (gaussian_estimates_not_clipped example_outlier_files "" ["one"] [20]%Z
           (λ _ _, Ok ([], [], [])) (World (MeanPlot.Variables [] [] [] []) [])).
  intros psf_name pc [->|[]%elem_of_nil]%elem_of_cons
         [->|[]%elem_of_nil]%elem_of_cons.
  split; [eexists; vm_compute; reflexivity|].
  eexists. split; [vm_compute; reflexivity|discriminate].
Defined.

(** With an outlying trial in both files, the Gaussian array reaches
    [confidence_bars] as saved and the PixelCNN array clipped. *)
Example mean_plot_outlier_calls :
  MeanPlot.confidence_bars_calls
    (vars (MeanPlot.run example_outlier_files "" ["one"] [20]%Z
             (λ _ _, Ok ([], [], []))
             (World (MeanPlot.Variables [] [] [] []) [])).1) =
  [([[1; 5]%Q], 9%Z); ([[1; 1]%Q], 9%Z)].
Proof. vm_compute. reflexivity. Qed.

(** * Further properties of the modelled code *)

(** ** The clipping as an operation on arrays *)

Lemma outlier_clip_Ok_inv (t : Q) (x r : ndarray) :
  outlier_clip t x = Ok r →
  ∃ hi lo, np_max x = Ok hi ∧ np_min x = Ok lo ∧
    (r = x ∨
     (float64_gt (np_divide hi lo PosZero) t = true ∧
      r = map (λ v, if Qltb (t * lo) v then lo else v) x)).
Proof.
  intros Hclip. destruct x as [|v x]; [done|].
  destruct (np_max_nonempty (v :: x)) as [hi Hhi]; [done|].
  destruct (np_min_nonempty (v :: x)) as [lo Hlo]; [done|].
  exists hi, lo. split; [done|]. split; [done|].
  rewrite (outlier_clip_unfold _ _ _ _ Hhi Hlo) in Hclip.
  destruct (float64_gt _ _); injection Hclip as <-; [right|left]; done.
Qed.

Lemma float64_gt_divide_cases (hi lo t : Q) :
  (1 <= t)%Q → (lo <= hi)%Q →
  float64_gt (np_divide hi lo PosZero) t = true →
  ((lo == 0)%Q ∧ (0 < hi)%Q) ∨ ((0 < lo)%Q ∧ (t * lo < hi)%Q).
Proof.
  intros Ht Hle. unfold np_divide.
  Qcases (Qeq_bool lo 0).
  - Qcases (Qeq_bool hi 0); [done|].
    Qcases (Qltb 0 hi); [by left|done].
  - simpl. intros Hgt%Qltb_lt.
    destruct (Qlt_le_dec 0 lo) as [Hpos|Hneg].
    + right. split; [done|].
      apply (Qmult_lt_r _ _ lo) in Hgt; [|done].
      assert (hi / lo * lo == hi)%Q as Hq by (field; lra). lra.
    + assert (lo < 0)%Q as Hlt by lra.
      pose proof (Qdiv_le_1_neg hi lo Hlt Hle). lra.
Qed.

(** X1. Clipping an array that was already clipped changes nothing. *)
Theorem outlier_clip_idempotent (ratio_threshold : Q) (x r : ndarray) :
  (1 <= ratio_threshold)%Q →
  outlier_clip ratio_threshold x = Ok r →
  outlier_clip ratio_threshold r = Ok r.
Proof.
  intros Ht Hclip.
  destruct (outlier_clip_Ok_inv _ _ _ Hclip) as (hi & lo & Hhi & Hlo & [->|[Hgt ->]]);
    [done|].
  set (r := map _ x).
  pose proof (np_min_Ok _ _ Hlo) as [Hlo_in Hlo_le].
  pose proof (np_max_Ok _ _ Hhi) as [Hhi_in Hhi_le].
  assert (r ≠ []) as Hr by (subst r; by destruct x).
  destruct (np_max_nonempty r Hr) as [hi' Hhi'].
  destruct (np_min_nonempty r Hr) as [lo' Hlo'].
  rewrite (outlier_clip_unfold _ _ _ _ Hhi' Hlo').
  apply np_max_Ok in Hhi' as [Hin_hi _]. apply np_min_Ok in Hlo' as [Hin_lo _].
  destruct (float64_gt_divide_cases hi lo ratio_threshold Ht (Hlo_le _ Hhi_in) Hgt)
    as [[Hz Hpos]|[Hpos Hbig]].
  - assert (∀ w, w ∈ r → (w == 0)%Q) as Hzero.
    { intros w (u & -> & Hu)%list_elem_of_fmap. specialize (Hlo_le u Hu).
      Qcases (Qltb (ratio_threshold * lo) u); [done|].
      rewrite Hz in E. lra. }
    unfold np_divide.
    rewrite (proj2 (Qeq_bool_iff _ _) (Hzero _ Hin_lo)).
    by rewrite (proj2 (Qeq_bool_iff _ _) (Hzero _ Hin_hi)).
  - assert (∀ w, w ∈ r → (lo <= w ∧ w <= ratio_threshold * lo)%Q) as Hbounds.
    { intros w (u & -> & Hu)%list_elem_of_fmap. specialize (Hlo_le u Hu).
      Qcases (Qltb (ratio_threshold * lo) u); nra. }
    apply Hbounds in Hin_hi, Hin_lo.
    rewrite np_divide_nonzero by lra. simpl.
    rewrite (proj2 (Qltb_ge _ _)); [done|].
    apply Qle_shift_div_r; nra.
Qed.

Lemma outlier_clip_idempotent_witness :
  outlier_clip 2 [1; 1; 2; 1]%Q = Ok [1; 1; 2; 1]%Q.
Proof.
  apply (outlier_clip_idempotent 2 [1; 3; 2; 5]%Q); [lra|reflexivity].
Defined.

Lemma Qsum_le (x r : ndarray) :
  Forall2 Qle r x → (Qsum r <= Qsum x)%Q.
Proof.
  induction 1 as [|v w r x Hvw _ IH]; simpl; [lra|]. unfold Qsum in *. lra.
Qed.

(** X2. The clipping keeps the length of the array; every entry is left
    as it was or replaced by the minimum of the array, so no entry grows;
    the minimum stays the minimum, and the mean does not grow. *)
Theorem outlier_clip_entries (ratio_threshold : Q) (x r : ndarray) :
  outlier_clip ratio_threshold x = Ok r →
  ∃ lo lo',
    np_min x = Ok lo ∧ np_min r = Ok lo' ∧ (lo' == lo)%Q ∧
    length r = length x ∧
    (∀ i v, x !! i = Some v →
       ∃ v', r !! i = Some v' ∧ (v' = v ∨ v' = lo) ∧ (v' <= v)%Q) ∧
    ∃ m m', np_mean x = Fin m ∧ np_mean r = Fin m' ∧ (m' <= m)%Q.
Proof.
  intros Hclip.
  destruct (outlier_clip_Ok_inv _ _ _ Hclip) as (hi & lo & Hhi & Hlo & Hcase).
  pose proof (np_min_Ok _ _ Hlo) as [Hlo_in Hlo_le].
  assert (∃ f : Q → Q, r = map f x ∧ ∀ v, f v = v ∨ f v = lo) as (f & -> & Hf).
  { destruct Hcase as [->|[_ ->]].
    - exists id. split; [by rewrite map_id|]. by left.
    - eexists. split; [reflexivity|]. intros v. simpl.
      destruct (Qltb _ v); [by right|by left]. }
  assert (∀ v, v ∈ x → (lo <= f v ∧ f v <= v)%Q) as Hfv.
  { intros v Hv. specialize (Hlo_le v Hv). destruct (Hf v) as [->| ->]; lra. }
  assert (map f x ≠ []) as Hr by (apply np_min_Ok_nonempty in Hlo; by destruct x).
  destruct (np_min_nonempty _ Hr) as [lo' Hlo'].
  exists lo, lo'. split; [done|]. split; [done|].
  pose proof (np_min_Ok _ _ Hlo') as [Hlo'_in Hlo'_le]. split.
  { apply Qle_antisym.
    - apply Hlo'_le. apply list_elem_of_fmap. exists lo. split; [|done].
      destruct (Hf lo) as [->| ->]; done.
    - apply list_elem_of_fmap in Hlo'_in as (u & -> & Hu). by apply Hfv. }
  split; [by rewrite length_map|]. split.
  { intros i v Hv. exists (f v). split.
    - change (map f x) with (f <$> x). by rewrite list_lookup_fmap, Hv.
    - split; [apply Hf|]. apply Hfv. by eapply list_elem_of_lookup_2. }
  assert (Forall2 Qle (map f x) x) as Hle.
  { clear -Hfv. induction x as [|v x IH]; simpl; constructor.
    - apply Hfv. by left.
    - apply IH. intros u Hu. apply Hfv. by right. }
  apply Qsum_le in Hle.
  destruct x as [|v0 x]; [done|]. eexists _, _. split; [reflexivity|].
  split; [reflexivity|]. simpl length. rewrite length_map.
  apply Qmult_le_compat_r; [exact Hle|].
  apply Qinv_le_0_compat. change 0%Q with (inject_Z 0). rewrite <- Zle_Qle. lia.
Qed.

Lemma outlier_clip_entries_witness :
  ∃ lo lo',
    np_min [1; 3; 2; 5]%Q = Ok lo ∧ np_min [1; 1; 2; 1]%Q = Ok lo' ∧ (lo' == lo)%Q ∧
    length [1; 1; 2; 1]%Q = length [1; 3; 2; 5]%Q ∧
    (∀ i v, [1; 3; 2; 5]%Q !! i = Some v →
       ∃ v', [1; 1; 2; 1]%Q !! i = Some v' ∧ (v' = v ∨ v' = lo) ∧ (v' <= v)%Q) ∧
    ∃ m m', np_mean [1; 3; 2; 5]%Q = Fin m ∧ np_mean [1; 1; 2; 1]%Q = Fin m' ∧
            (m' <= m)%Q.
Proof.
  apply (outlier_clip_entries 2 [1; 3; 2; 5]%Q [1; 1; 2; 1]%Q). reflexivity.
Defined.

(** X3. The clipping raises on the empty array only, where [np.max] has
    nothing to reduce. *)
Theorem outlier_clip_raises_on_empty (ratio_threshold : Q) (x : ndarray) :
  (x = [] → outlier_clip ratio_threshold x = Raise (zero_size "maximum")) ∧
  (x ≠ [] → ∃ r, outlier_clip ratio_threshold x = Ok r).
Proof.
  split; [by intros ->|]. intros Hx.
  destruct (np_max_nonempty x Hx) as [hi Hhi].
  destruct (np_min_nonempty x Hx) as [lo Hlo].
  rewrite (outlier_clip_unfold _ _ _ _ Hhi Hlo).
  destruct (float64_gt _ _); eauto.
Qed.

Lemma outlier_clip_raises_on_empty_witness :
  outlier_clip 2 [] = Raise (zero_size "maximum") ∧
  ∃ r, outlier_clip 2 [0; 4]%Q = Ok r.
Proof.
  split.
  - by apply (proj1 (outlier_clip_raises_on_empty 2 [])).
  - by apply (proj2 (outlier_clip_raises_on_empty 2 [0; 4]%Q)).
Defined.

(** ** When the minimum across trials exists *)

Lemma same_length_true (rows : list ndarray) :
  same_length rows = true →
  ∃ n, Forall (λ row, length row = n) rows.
Proof.
  destruct rows as [|r rows]; simpl; [by exists 0%nat|].
  intros H. exists (length r). constructor; [done|].
  apply Forall_forall. intros r' Hr'.
  rewrite forallb_forall in H. apply Nat.eqb_eq, H. by apply list_elem_of_In.
Qed.

Lemma mapM_result_Ok_inv {A B} (f : A → result B) (l : list A) (ys : list B) :
  mapM (M := result) f l = Ok ys → Forall2 (λ x y, f x = Ok y) l ys.
Proof.
  revert ys. induction l as [|x l IH]; intros ys; simpl.
  - intros [= <-]. constructor.
  - destruct (f x) as [y|e] eqn:Hy; simpl; [|done].
    destruct (mapM f l) as [ys'|e]; simpl; [|done].
    intros [= <-]. constructor; [done|]. by apply IH.
Qed.

(** X4. [np.min(rows, axis=1)] returns minima exactly when there is at
    least one row, the rows have one length and that length is not zero;
    the result then holds the minimum of each row.  Rows of different
    lengths raise the [ValueError] of a ragged stack. *)
Theorem np_min_axis1_Ok_iff (rows : list ndarray) :
  (∀ mins,
     np_min_axis1 rows = Ok mins ↔
     rows ≠ [] ∧
     (∃ n, (0 < n)%nat ∧ Forall (λ row, length row = n) rows) ∧
     Forall2 (λ row m, np_min row = Ok m) rows mins) ∧
  (∀ r1 r2, r1 ∈ rows → r2 ∈ rows → length r1 ≠ length r2 →
     np_min_axis1 rows = Raise (ValueError "inhomogeneous shape")).
Proof.
  split.
  - intros mins. split.
    + unfold np_min_axis1. destruct rows as [|r rows]; [done|].
      destruct (same_length (r :: rows)) eqn:Hsame; [|done].
      intros Hmins%mapM_result_Ok_inv. split; [done|]. split; [|done].
      destruct (same_length_true _ Hsame) as [n Hn]. exists n. split; [|done].
      inversion Hmins as [|? m ? ? Hm _]; subst.
      inversion Hn as [|? ? Hr _]; subst.
      destruct r; [done|]. simpl. lia.
    + intros (Hne & (n & Hn & Hrect) & Hmins). unfold np_min_axis1.
      rewrite (same_length_Forall rows n Hrect).
      destruct rows as [|r rows]; [done|].
      destruct (mapM_result_Forall2 np_min (r :: rows)) as (ys & Hys & Hall).
      { eapply Forall_impl; [exact Hrect|]. intros row Hrow. simpl in Hrow.
        apply np_min_nonempty. destruct row; simpl in *; [lia|done]. }
      rewrite Hys. f_equal.
      clear -Hall Hmins. revert mins Hmins.
      induction Hall as [|x y l ys Hxy _ IH]; intros mins Hmins;
        inversion Hmins as [|? m ? ms Hm Hms]; subst; [done|].
      rewrite Hxy in Hm. injection Hm as <-. f_equal. by apply IH.
  - intros r1 r2 Hr1 Hr2 Hdiff. unfold np_min_axis1.
    destruct rows as [|r rows]; [by apply elem_of_nil in Hr1|].
    destruct (same_length (r :: rows)) eqn:Hsame; [|done].
    destruct (same_length_true _ Hsame) as [n Hn].
    rewrite Forall_forall in Hn.
    rewrite (Hn r1 Hr1), (Hn r2 Hr2) in Hdiff. done.
Qed.

(** ** Where the error bars lie *)


Lemma np_sort_elem (w : Q) (a : ndarray) : w ∈ np_sort a ↔ w ∈ a.
Proof.
  induction a as [|v a IH]; simpl; [done|].
  by rewrite insert_sorted_elem, elem_of_cons, IH.
Qed.

Lemma getitem_elem (a : ndarray) (i : Z) (x : Q) : getitem a i = Some x → x ∈ a.
Proof.
  unfold getitem. destruct (i <? 0)%Z; [destruct (_ <? 0)%Z; [done|]|];
    apply list_elem_of_lookup_2.
Qed.


Lemma lerp_between (a b t lo hi : Q) :
  (0 <= t <= 1)%Q → (lo <= a <= hi)%Q → (lo <= b <= hi)%Q →
  (lo <= lerp a b t <= hi)%Q.
Proof. intros Ht Ha Hb. rewrite lerp_eq. split; nra. Qed.

Lemma get_indexes_gamma (virtual_index : Q) (n : nat) :
  let '(previous_index, next_index) := get_indexes virtual_index n in
  previous_index = next_index ∨
  (0 <= virtual_index - inject_Z previous_index <= 1)%Q.
Proof.
  unfold get_indexes.
  destruct (Qle_bool _ _); [by left|]. destruct (Qltb _ _); [by left|].
  right. pose proof (Qfloor_le virtual_index).
  pose proof (Qlt_floor virtual_index) as Hu.
  rewrite inject_Z_plus in Hu. change (inject_Z 1) with 1%Q in Hu. lra.
Qed.

Lemma percentile_linear_range (a : ndarray) (q v lo hi : Q) :
  percentile_linear a q = Some v →
  np_min a = Ok lo → np_max a = Ok hi →
  (lo <= v <= hi)%Q.
Proof.
  intros Hv Hlo Hhi. unfold percentile_linear in Hv.
  pose proof (get_indexes_gamma
    ((inject_Z (Z.of_nat (length (np_sort a))) - 1) * (q / 100))
    (length (np_sort a))) as Hgamma.
  destruct (get_indexes _ _) as [previous_index next_index].
  destruct (getitem (np_sort a) previous_index) as [p|] eqn:Hp; [|done].
  destruct (getitem (np_sort a) next_index) as [x|] eqn:Hx; [|done].
  simpl in Hv. injection Hv as <-.
  pose proof (proj1 (np_sort_elem _ _) (getitem_elem _ _ _ Hp)) as Hp'.
  pose proof (proj1 (np_sort_elem _ _) (getitem_elem _ _ _ Hx)) as Hx'.
  apply np_min_Ok in Hlo as [_ Hlo]. apply np_max_Ok in Hhi as [_ Hhi].
  destruct Hgamma as [->|Hgamma].
  - rewrite Hp in Hx. injection Hx as <-.
    match goal with |- context [lerp p p ?t] => pose proof (lerp_same p t) as Hl end.
    specialize (Hlo p Hp'). specialize (Hhi p Hp'). lra.
  - apply lerp_between; auto.
Qed.


(** X5. Of trials that are not empty, the error-bar step computes a
    percentile for every rank within [0, 100], and every percentile it
    computes lies between the smallest and the largest trial. *)
Theorem error_bars_within_trials (pe : result float64) (trials : ndarray)
    (q lo hi : Q) :
  np_min trials = Ok lo → np_max trials = Ok hi →
  ((0 <= q <= 100)%Q → ∃ v, np_percentile pe trials q = Ok (Fin v)) ∧
  (∀ v, np_percentile pe trials q = Ok (Fin v) → (lo <= v <= hi)%Q).
Proof.
  intros Hlo Hhi. split.
  - intros Hq. apply np_min_Ok_nonempty in Hlo.
    destruct (np_percentile_Ok pe trials q Hlo Hq) as (v & _ & Hv). by exists v.
  - intros v Hv. unfold np_percentile in Hv.
    destruct (_ || _); [done|]. destruct trials as [|v0 trials]; [done|].
    destruct (percentile_linear (v0 :: trials) q) as [v'|] eqn:Hp; [|done].
    injection Hv as <-. by eapply percentile_linear_range.
Qed.

Lemma error_bars_within_trials_witness :
  ((0 <= 5 <= 100)%Q →
   ∃ v, np_percentile (Raise IndexError) [3; 1; 4]%Q 5 = Ok (Fin v)) ∧
  (∀ v, np_percentile (Raise IndexError) [3; 1; 4]%Q 5 = Ok (Fin v) →
        (1 <= v <= 4)%Q).
Proof.
  apply (error_bars_within_trials (Raise IndexError) [3; 1; 4]%Q 5 1 4);
    reflexivity.
Defined.

Lemma sorted_lookup_le (s : ndarray) (i j : nat) (x y : Q) :
  StronglySorted Qle s → (i ≤ j)%nat →
  s !! i = Some x → s !! j = Some y → (x <= y)%Q.
Proof.
  intros Hs. revert i j. induction Hs as [|w s Hs IH Hall]; intros i j Hij Hx Hy.
  { by rewrite lookup_nil in Hx. }
  destruct i as [|i], j as [|j]; simpl in *.
  - simplify_eq. lra.
  - injection Hx as ->. rewrite Forall_forall in Hall.
    apply Hall. by eapply list_elem_of_lookup_2.
  - lia.
  - apply (IH i j); [lia|done..].
Qed.

Lemma percentile_linear_bounded (a : ndarray) (q v lo hi : Q) :
  (∀ w, w ∈ a → (lo <= w <= hi)%Q) →
  percentile_linear a q = Some v → (lo <= v <= hi)%Q.
Proof.
  intros Hall Hv. unfold percentile_linear in Hv.
  pose proof (get_indexes_gamma
    ((inject_Z (Z.of_nat (length (np_sort a))) - 1) * (q / 100))
    (length (np_sort a))) as Hgamma.
  destruct (get_indexes _ _) as [previous_index next_index].
  destruct (getitem (np_sort a) previous_index) as [p|] eqn:Hp; [|done].
  destruct (getitem (np_sort a) next_index) as [x|] eqn:Hx; [|done].
  simpl in Hv. injection Hv as <-.
  pose proof (proj1 (np_sort_elem _ _) (getitem_elem _ _ _ Hp)) as Hp'.
  pose proof (proj1 (np_sort_elem _ _) (getitem_elem _ _ _ Hx)) as Hx'.
  destruct Hgamma as [->|Hgamma].
  - rewrite Hp in Hx. injection Hx as <-.
    match goal with |- context [lerp p p ?t] => pose proof (lerp_same p t) as Hl end.
    specialize (Hall p Hp'). lra.
  - apply lerp_between; auto.
Qed.



(** The percentile does not decrease when the rank grows. *)
Lemma percentile_linear_mono (a : ndarray) (q1 q2 v1 v2 : Q) :
  (0 <= q1)%Q → (q1 <= q2)%Q →
  percentile_linear a q1 = Some v1 → percentile_linear a q2 = Some v2 →
  (v1 <= v2)%Q.
Proof.
  intros Hq0 Hq12 Hv1 Hv2.
  pose proof (np_sort_sorted a) as Hsorted.
  assert (∀ w, w ∈ a → w ∈ np_sort a) as Hmem by (intros w; apply np_sort_elem).
  pose proof Hv1 as Hv1'. unfold percentile_linear in Hv1, Hv2.
  set (s := np_sort a) in *. set (n := length s) in *.
  set (N := inject_Z (Z.of_nat n)) in *.
  destruct (decide (n = 0%nat)) as [Hn0|Hn0].
  { assert (s = []) as Hs by (by apply nil_length_inv). exfalso.
    destruct (get_indexes _ n) as [p x]. rewrite Hs in Hv1.
    assert (getitem [] p = None) as Hnone.
    { unfold getitem. simpl. destruct (p <? 0)%Z; [by destruct (_ <? 0)%Z|done]. }
    by rewrite Hnone in Hv1. }
  assert (1 <= N)%Q as HN.
  { subst N. change 1%Q with (inject_Z 1). rewrite <- Zle_Qle. lia. }
  assert (0 <= q1 / 100 ∧ q1 / 100 <= q2 / 100)%Q as [Hd1 Hd12].
  { split; [apply Qle_shift_div_l; lra|].
    apply Qle_shift_div_l; [lra|].
    assert (q1 / 100 * 100 == q1)%Q as -> by field. done. }
  assert (0 <= (N - 1) * (q1 / 100))%Q as Hh1 by nra.
  assert ((N - 1) * (q1 / 100) <= (N - 1) * (q2 / 100))%Q as Hh12 by nra.
  set (h1 := ((N - 1) * (q1 / 100))%Q) in *.
  set (h2 := ((N - 1) * (q2 / 100))%Q) in *.
  assert (s ≠ []) as Hs by (intros Hs; apply Hn0; subst n; by rewrite Hs).
  assert (a ≠ []) as Ha.
  { intros ->. by apply Hs. }
  destruct (np_min_nonempty a Ha) as [lo Hlo].
  apply np_min_Ok in Hlo as [_ Hlo].
  unfold get_indexes in Hv2. fold N in Hv2.
  Qcases (Qle_bool (N - 1) h2).
  - (* the upper rank reaches the last element *)
    destruct (getitem s (-1)) as [y|] eqn:Hy; [|done]. simpl in Hv2.
    injection Hv2 as <-.
    apply getitem_last_lookup in Hy as [Hy _].
    pose proof (lerp_same y (h2 - inject_Z (-1))) as Hl.
    assert (v1 <= y)%Q; [|lra].
    refine (proj2 (percentile_linear_bounded a q1 v1 lo y _ Hv1')).
    intros w Hw. split; [by apply Hlo|].
    apply Hmem, list_elem_of_lookup in Hw as [i Hi].
    eapply (sorted_lookup_le s i (n - 1)); [done| |done..].
    apply lookup_lt_Some in Hi. subst n. lia.
  - (* both ranks fall between two neighbours *)
    assert (Qltb h2 0 = false) as Hb2 by (apply Qltb_ge; lra).
    rewrite Hb2 in Hv2.
    unfold get_indexes in Hv1. fold N in Hv1.
    assert (Qle_bool (N - 1) h1 = false) as Hb1.
    { apply not_true_iff_false. rewrite Qle_bool_iff. lra. }
    rewrite Hb1 in Hv1.
    assert (Qltb h1 0 = false) as Hb1' by (apply Qltb_ge; lra).
    rewrite Hb1' in Hv1.
    pose proof (Qfloor_le h1) as Hf1. pose proof (Qlt_floor h1) as Hf1'.
    pose proof (Qfloor_le h2) as Hf2. pose proof (Qlt_floor h2) as Hf2'.
    pose proof (Qfloor_resp_le _ _ Hh12) as Hk12.
    rewrite inject_Z_plus in Hf1', Hf2'. change (inject_Z 1) with 1%Q in Hf1', Hf2'.
    assert (0 ≤ Qfloor h1)%Z as Hk1.
    { assert (inject_Z 0 < inject_Z (Qfloor h1 + 1))%Q as H0.
      { rewrite inject_Z_plus. change (inject_Z 0) with 0%Q.
        change (inject_Z 1) with 1%Q. lra. }
      rewrite <- Zlt_Qlt in H0. lia. }
    rewrite !getitem_nonneg_lookup in Hv1, Hv2 by lia.
    destruct (s !! Z.to_nat (Qfloor h1)) as [p1|] eqn:Hp1; [|done].
    destruct (s !! Z.to_nat (Qfloor h1 + 1)) as [x1|] eqn:Hx1; [|done].
    destruct (s !! Z.to_nat (Qfloor h2)) as [p2|] eqn:Hp2; [|done].
    destruct (s !! Z.to_nat (Qfloor h2 + 1)) as [x2|] eqn:Hx2; [|done].
    assert (lerp p1 x1 (h1 - inject_Z (Qfloor h1)) = v1) as <-
      by (by injection Hv1).
    assert (lerp p2 x2 (h2 - inject_Z (Qfloor h2)) = v2) as <-
      by (by injection Hv2).
    rewrite !lerp_eq.
    assert (x1 >= p1 ∧ x2 >= p2)%Q as [Hpx1 Hpx2].
    { split; eapply sorted_lookup_le; [done| |done|done|done| |done|done]; lia. }
    destruct (decide (Qfloor h1 = Qfloor h2)) as [Hk|Hk].
    + rewrite Hk in Hp1, Hx1. rewrite Hp2 in Hp1. rewrite Hx2 in Hx1.
      injection Hp1 as <-. injection Hx1 as <-. rewrite Hk. nra.
    + assert (x1 <= p2)%Q as Hxp.
      { eapply sorted_lookup_le; [done| |done|done]. lia. }
      nra.
Qed.

(** X6. For a confidence level that is not negative, the lower bound of
    the error-bar step is at most its upper bound. *)
Theorem error_bars_ordered (pe : result float64) (cl : Q) (trials : ndarray)
    (lower upper : Q) :
  (0 <= cl)%Q →
  trials ≠ [] →
  np_percentile pe trials (lower_rank cl) = Ok (Fin lower) →
  np_percentile pe trials (upper_rank cl) = Ok (Fin upper) →
  (lower <= upper)%Q.
Proof.
  intros Hcl Hne Hlo Hup. unfold np_percentile in Hlo, Hup.
  destruct (Qltb (lower_rank cl) 0) eqn:Hrank; [done|]. apply Qltb_ge in Hrank.
  destruct (_ || _) in Hlo; [done|]. destruct (_ || _) in Hup; [done|].
  destruct trials as [|v0 trials]; [done|].
  destruct (percentile_linear (v0 :: trials) (lower_rank cl)) as [lo|] eqn:Hplo;
    [|done].
  destruct (percentile_linear (v0 :: trials) (upper_rank cl)) as [up|] eqn:Hpup;
    [|done].
  injection Hlo as <-. injection Hup as <-.
  apply (percentile_linear_mono (v0 :: trials) (lower_rank cl) (upper_rank cl));
    [done| |done..].
  rewrite lower_rank_eq, upper_rank_eq. lra.
Qed.

Lemma error_bars_ordered_witness :
  ∃ lower upper,
    np_percentile (Raise IndexError) [3; 1; 4; 1]%Q (lower_rank (9 # 10)) =
      Ok (Fin lower) ∧
    np_percentile (Raise IndexError) [3; 1; 4; 1]%Q (upper_rank (9 # 10)) =
      Ok (Fin upper) ∧
    (lower <= upper)%Q.
Proof.
  eexists _, _. split; [vm_compute; reflexivity|].
  split; [vm_compute; reflexivity|].
  apply (error_bars_ordered (Raise IndexError) (9 # 10) [3; 1; 4; 1]%Q).
  - lra.
  - discriminate.
  - vm_compute. reflexivity.
  - vm_compute. reflexivity.
Defined.

(** ** What the error-bar cell hands to the plot *)

Lemma photon_step_Ok_inv pe cl mi grid valid psf_idx psf_name i pc w w' :
  ErrorBars.photon_step pe cl mi grid valid psf_idx psf_name (i, pc) w = (w', Ok ()) →
  ((pc ∉ valid) ∧ w' = w) ∨
  (pc ∈ valid ∧ ∃ mv t lo up,
     getitem2 mi psf_idx i = Ok mv ∧ getitem2 grid psf_idx i = Ok t ∧
     opened w' = opened w ∧
     vars w' =
       ErrorBars.Variables
         (ErrorBars.mi_means_across_photons (vars w) ++ [mv])
         (ErrorBars.classifier_means_across_photons (vars w) ++ [np_mean t])
         (ErrorBars.classifier_lower_across_photons (vars w) ++ [lo])
         (ErrorBars.classifier_upper_across_photons (vars w) ++ [up])
         (ErrorBars.plotted (vars w))).
Proof.
  destruct (decide (pc ∈ valid)) as [Hin|Hout].
  2:{ rewrite photon_step_skipped by done. intros [= <-]. by left. }
  intros Hstep. right. split; [done|].
  destruct (getitem2 mi psf_idx i) as [mv|e] eqn:Hmv.
  2:{ unfold ErrorBars.photon_step in Hstep.
      rewrite bool_decide_true, Hmv, bind_lift_Raise in Hstep by done. done. }
  destruct (getitem2 grid psf_idx i) as [t|e] eqn:Ht.
  2:{ unfold ErrorBars.photon_step in Hstep.
      rewrite bool_decide_true, Hmv, bind_lift_Ok, Ht, bind_lift_Raise in Hstep
        by done. done. }
  destruct (marker_for_psf psf_name) as [mk|e] eqn:Hmk.
  2:{ unfold ErrorBars.photon_step in Hstep.
      rewrite bool_decide_true, Hmv, bind_lift_Ok, Ht, bind_lift_Ok in Hstep by done.
      cbv zeta in Hstep. rewrite Hmk, bind_lift_Raise in Hstep. done. }
  rewrite (photon_step_selected pe cl mi grid valid psf_idx psf_name i pc mv t mk w
             Hin Hmv Ht Hmk) in Hstep.
  cbv zeta in Hstep.
  destruct (np_percentile pe t (lower_rank cl)) as [lo|e]; [|done].
  destruct (np_percentile pe t (upper_rank cl)) as [up|e]; [|done].
  injection Hstep as <-. by exists mv, t, lo, up.
Qed.

Lemma photon_loop_aligned pe cl mi grid valid psf_idx psf_name
    (items : list (nat * Z)) w w' :
  for_each items (ErrorBars.photon_step pe cl mi grid valid psf_idx psf_name) w
    = (w', Ok ()) →
  let k := length (filter (λ p, p.2 ∈ valid) items) in
  length (ErrorBars.mi_means_across_photons (vars w')) =
    (length (ErrorBars.mi_means_across_photons (vars w)) + k)%nat ∧
  length (ErrorBars.classifier_means_across_photons (vars w')) =
    (length (ErrorBars.classifier_means_across_photons (vars w)) + k)%nat ∧
  length (ErrorBars.classifier_lower_across_photons (vars w')) =
    (length (ErrorBars.classifier_lower_across_photons (vars w)) + k)%nat ∧
  length (ErrorBars.classifier_upper_across_photons (vars w')) =
    (length (ErrorBars.classifier_upper_across_photons (vars w)) + k)%nat ∧
  ErrorBars.plotted (vars w') = ErrorBars.plotted (vars w).
Proof.
  revert w. induction items as [|[i pc] items IH]; intros w.
  { rewrite for_each_nil. intros [= <-]. simpl. by rewrite !Nat.add_0_r. }
  rewrite for_each_cons.
  destruct (ErrorBars.photon_step _ _ _ _ _ _ _ (i, pc) w) as [w1 [[]|e]] eqn:Hstep;
    [|done].
  intros Hrest. specialize (IH w1 Hrest). cbv zeta in *.
  destruct IH as (H1 & H2 & H3 & H4 & H5).
  apply photon_step_Ok_inv in Hstep
    as [[Hout ->]|(Hin & mv & t & lo & up & _ & _ & _ & Hvars)].
  - rewrite filter_cons_False by done. done.
  - rewrite filter_cons_True by done. rewrite Hvars in *. simpl in *.
    rewrite !length_app in *. simpl in *. repeat split; [lia..|done].
Qed.

Lemma length_filter_enumerate (valid : list Z) (idx : list nat) (pcs : list Z) :
  length idx = length pcs →
  length (filter (λ p : nat * Z, p.2 ∈ valid) (zip idx pcs)) =
  length (filter (λ pc, pc ∈ valid) pcs).
Proof.
  revert pcs. induction idx as [|i idx IH]; intros [|pc pcs] Hlen;
    simplify_eq/=; [done|].
  destruct (decide (pc ∈ valid)).
  - rewrite !filter_cons_True by done. simpl. f_equal. by apply IH.
  - rewrite !filter_cons_False by done. by apply IH.
Qed.

Lemma psf_step_Ok_inv pe cl mi grid pcs valid_psfs valid psf_idx psf_name w w' :
  ErrorBars.psf_step pe cl mi grid pcs valid_psfs valid (psf_idx, psf_name) w
    = (w', Ok ()) →
  ((psf_idx ∉ valid_psfs) ∧ w' = w) ∨
  (psf_idx ∈ valid_psfs ∧ ∃ xs means los ups,
     ErrorBars.plotted (vars w') =
       ErrorBars.plotted (vars w) ++ [(xs, means, los, ups)] ∧
     let k := length (filter (λ pc, pc ∈ valid) pcs) in
     length xs = k ∧ length means = k ∧ length los = k ∧ length ups = k).
Proof.
  unfold ErrorBars.psf_step. case_bool_decide as Hvalid.
  2:{ intros [= <-]. by left. }
  intros Hstep. right. split; [done|].
  rewrite !bind_modify in Hstep.
  match type of Hstep with
  | (for_each ?items ?body ≫= _) ?w0 = _ =>
    destruct (for_each items body w0) as [w1 [[]|e]] eqn:Hloop
  end.
  2:{ by rewrite (bind_Raise _ _ _ _ _ Hloop) in Hstep. }
  rewrite (bind_Ok _ _ _ _ _ Hloop) in Hstep. unfold modify in Hstep.
  injection Hstep as <-.
  apply photon_loop_aligned in Hloop. cbv zeta in Hloop.
  unfold enumerate in Hloop.
  rewrite length_filter_enumerate in Hloop by (by rewrite length_seq).
  destruct Hloop as (H1 & H2 & H3 & H4 & H5). simpl in *.
  eexists _, _, _, _. split; [by rewrite H5|]. by repeat split.
Qed.

(** X7. When the error-bar cell ends normally, it has plotted one band
    for each selected PSF, and the four sequences of a band (MI values,
    means, lower and upper bounds) have one length: the number of photon
    counts that are selected. *)
Theorem error_bar_cell_aligned pe cl mi grid (psf_names : list string)
    (pcs : list Z) (valid_psfs : list nat) (valid : list Z)
    (w w' : world ErrorBars.variables) :
  ErrorBars.run pe cl mi grid psf_names pcs valid_psfs valid w = (w', Ok ()) →
  ∃ bands,
    ErrorBars.plotted (vars w') = ErrorBars.plotted (vars w) ++ bands ∧
    length bands =
      length (filter (λ p : nat * string, p.1 ∈ valid_psfs) (enumerate psf_names)) ∧
    Forall (λ '(xs, means, los, ups),
              let k := length (filter (λ pc, pc ∈ valid) pcs) in
              length xs = k ∧ length means = k ∧
              length los = k ∧ length ups = k) bands.
Proof.
  unfold ErrorBars.run. generalize (enumerate psf_names). intros psfs. revert w.
  induction psfs as [|[psf_idx psf_name] psfs IH]; intros w.
  { rewrite for_each_nil. intros [= <-]. exists []. by rewrite app_nil_r. }
  rewrite for_each_cons.
  destruct (ErrorBars.psf_step _ _ _ _ _ _ _ (psf_idx, psf_name) w)
    as [w1 [[]|e]] eqn:Hstep; [|done].
  intros Hrest. destruct (IH w1 Hrest) as (bands & Hplot & Hlen & Hall).
  apply psf_step_Ok_inv in Hstep
    as [[Hout ->]|(Hin & xs & means & los & ups & Hband & Hk)].
  - exists bands. rewrite filter_cons_False by done. done.
  - exists ((xs, means, los, ups) :: bands). rewrite filter_cons_True by done.
    rewrite Hplot, Hband, <- app_assoc. simpl. split; [done|].
    split; [by rewrite Hlen|]. by constructor.
Qed.

Lemma error_bar_cell_aligned_witness :
  ∃ w',
    ErrorBars.run (Raise IndexError) (9 # 10) [[1; 2]]%Q [[[3; 5]; [7]]]%Q
      ["one"; "four"] [20; 40]%Z [0%nat] [20; 40]%Z
      (World (ErrorBars.Variables [] [] [] [] []) []) = (w', Ok ()) ∧
    ∃ bands,
      ErrorBars.plotted (vars w') = [] ++ bands ∧
      length bands =
        length (filter (λ p : nat * string, p.1 ∈ [0%nat])
                       (enumerate ["one"; "four"])) ∧
      Forall (λ '(xs, means, los, ups),
                let k := length (filter (λ pc, pc ∈ [20; 40]%Z) [20; 40]%Z) in
                length xs = k ∧ length means = k ∧
                length los = k ∧ length ups = k) bands.
Proof.
  eexists. split; [vm_compute; reflexivity|].
  apply (error_bar_cell_aligned (Raise IndexError) (9 # 10) [[1; 2]]%Q
           [[[3; 5]; [7]]]%Q ["one"; "four"] [20; 40]%Z [0%nat] [20; 40]%Z
           (World (ErrorBars.Variables [] [] [] [] []) [])).
  vm_compute. reflexivity.
Defined.

(** ** The minimum-plot cell on complete data *)

Lemma np_min_axis1_rectangular (rows : list ndarray) (n : nat) :
  rows ≠ [] → (0 < n)%nat → Forall (λ row, length row = n) rows →
  ∃ mins, np_min_axis1 rows = Ok mins ∧
          Forall2 (λ row m, np_min row = Ok m) rows mins.
Proof.
  intros Hne Hn Hrect.
  destruct (mapM_result_Forall2 np_min rows) as (mins & Hmins & Hall).
  { eapply Forall_impl; [exact Hrect|]. intros row Hrow. simpl in Hrow.
    apply np_min_nonempty. destruct row; simpl in *; [lia|done]. }
  exists mins. split; [|done]. unfold np_min_axis1.
  rewrite (same_length_Forall rows n Hrect). by destruct rows.
Qed.

Lemma np_min_axis1_Ok_inv (rows : list ndarray) (mins : ndarray) :
  np_min_axis1 rows = Ok mins → Forall2 (λ row m, np_min row = Ok m) rows mins.
Proof.
  unfold np_min_axis1. destruct rows as [|r rows]; [done|].
  destruct (same_length _); [|done]. apply mapM_result_Ok_inv.
Qed.

(** X8. When every MI file of every PSF and photon count is there and
    the arrays have one length that is not zero, the minimum-plot cell
    ends normally, opens each file once in the order of the loops, and
    holds per PSF and photon count the smallest trial of the file. *)
Theorem minimum_plot_complete (fs : files) (folder : string)
    (psfs : list string) (pcs : list Z) (n : nat)
    (w : world MinimumPlot.variables) :
  pcs ≠ [] → (0 < n)%nat →
  (∀ psf_name pc, psf_name ∈ psfs → pc ∈ pcs →
     ∃ g p, fs !! gaussian_file folder pc psf_name = Some g ∧ length g = n ∧
            fs !! pixelcnn_file folder pc psf_name = Some p ∧ length p = n) →
  ∃ w',
    MinimumPlot.run fs folder psfs pcs w = (w', Ok ()) ∧
    opened w' = opened w ++ (psfs ≫= λ psf_name, mi_files folder psf_name pcs) ∧
    Forall2 (λ psf_name mins,
               Forall2 (λ pc m,
                          ∃ g, fs !! gaussian_file folder pc psf_name = Some g ∧
                               m ∈ g ∧ ∀ v, v ∈ g → (m <= v)%Q) pcs mins)
            psfs (MinimumPlot.gaussian_mi_estimates_across_psfs (vars w')) ∧
    Forall2 (λ psf_name mins,
               Forall2 (λ pc m,
                          ∃ p, fs !! pixelcnn_file folder pc psf_name = Some p ∧
                               m ∈ p ∧ ∀ v, v ∈ p → (m <= v)%Q) pcs mins)
            psfs (MinimumPlot.pixelcnn_mi_estimates_across_psfs (vars w')).
Proof.
  intros Hpcs Hn Hall. destruct w as [[ga pa eg ep] op].
  assert (∀ psf_name, psf_name ∈ psfs →
            Forall (λ row, length row = n) (gaussian_arrays fs folder psf_name pcs) ∧
            Forall (λ row, length row = n) (pixelcnn_arrays fs folder psf_name pcs))
    as Hrect.
  { intros psf_name Hpsf. unfold gaussian_arrays, pixelcnn_arrays.
    split; apply Forall_fmap, Forall_forall; intros pc Hpc;
      destruct (Hall psf_name pc Hpsf Hpc) as (g & p & Hg & Hgn & Hp & Hpn); simpl.
    - by rewrite (stored_Some _ _ _ Hg).
    - by rewrite (stored_Some _ _ _ Hp). }
  destruct (minimum_psfs_ok fs folder pcs psfs ga pa [] [] op)
    as (ga' & pa' & mgs & mps & Hrun & Hgs & Hps).
  { intros psf_name path Hpsf Hpath. unfold mi_files in Hpath.
    apply list_elem_of_bind in Hpath as (pc & Hpath & Hpc).
    destruct (Hall psf_name pc Hpsf Hpc) as (g & p & Hg & _ & Hp & _).
    apply elem_of_cons in Hpath as [->|Hpath]; [by exists g|].
    apply list_elem_of_singleton in Hpath as ->. by exists p. }
  { intros psf_name Hpsf. destruct (Hrect psf_name Hpsf) as [Hg Hp].
    destruct (np_min_axis1_rectangular (gaussian_arrays fs folder psf_name pcs) n)
      as (mg & Hmg & _); [unfold gaussian_arrays; by destruct pcs|done..|].
    destruct (np_min_axis1_rectangular (pixelcnn_arrays fs folder psf_name pcs) n)
      as (mp & Hmp & _); [unfold pixelcnn_arrays; by destruct pcs|done..|].
    by exists mg, mp. }
  unfold MinimumPlot.run. rewrite !bind_modify. cbn [vars opened].
  change (MinimumPlot.set_pixelcnn_mi_estimates_across_psfs [] _)
    with (MinimumPlot.Variables ga pa [] []).
  rewrite Hrun. eexists. split; [reflexivity|]. cbn [vars opened].
  split; [done|]. simpl.
  split.
  - clear Hrun Hps. induction Hgs as [|psf_name mins psfs' mgs' Hmins _ IH];
      constructor.
    + apply np_min_axis1_Ok_inv in Hmins. unfold gaussian_arrays in Hmins.
      apply Forall2_fmap_l in Hmins.
      apply Forall2_same_length_lookup. split; [by eapply Forall2_length|].
      intros i pc m Hpc Hm.
      destruct (Hall psf_name pc) as (g & _ & Hg & _); [by left| |].
      { by eapply list_elem_of_lookup_2. }
      exists g. split; [done|].
      pose proof (Forall2_lookup_lr _ _ _ _ _ _ Hmins Hpc Hm) as Hmin.
      simpl in Hmin. rewrite (stored_Some _ _ _ Hg) in Hmin. by apply np_min_Ok.
    + apply IH; intros; [apply Hall|apply Hrect]; by try right.
  - clear Hrun Hgs. induction Hps as [|psf_name mins psfs' mps' Hmins _ IH];
      constructor.
    + apply np_min_axis1_Ok_inv in Hmins. unfold pixelcnn_arrays in Hmins.
      apply Forall2_fmap_l in Hmins.
      apply Forall2_same_length_lookup. split; [by eapply Forall2_length|].
      intros i pc m Hpc Hm.
      destruct (Hall psf_name pc) as (_ & p & _ & _ & Hp & _); [by left| |].
      { by eapply list_elem_of_lookup_2. }
      exists p. split; [done|].
      pose proof (Forall2_lookup_lr _ _ _ _ _ _ Hmins Hpc Hm) as Hmin.
      simpl in Hmin. rewrite (stored_Some _ _ _ Hp) in Hmin. by apply np_min_Ok.
    + apply IH; intros; [apply Hall|apply Hrect]; by try right.
Qed.

Lemma minimum_plot_complete_witness :
  ∃ w',
    MinimumPlot.run example_files "" ["one"] [20; 40]%Z
                    (World (MinimumPlot.Variables [] [] [] []) []) = (w', Ok ()) ∧
    opened w' = [] ++ (["one"] ≫= λ psf_name, mi_files "" psf_name [20; 40]%Z) ∧
    Forall2 (λ psf_name mins,
               Forall2 (λ pc m,
                          ∃ g, example_files !! gaussian_file "" pc psf_name = Some g ∧
                               m ∈ g ∧ ∀ v, v ∈ g → (m <= v)%Q) [20; 40]%Z mins)
            ["one"] (MinimumPlot.gaussian_mi_estimates_across_psfs (vars w')) ∧
    Forall2 (λ psf_name mins,
               Forall2 (λ pc m,
                          ∃ p, example_files !! pixelcnn_file "" pc psf_name = Some p ∧
                               m ∈ p ∧ ∀ v, v ∈ p → (m <= v)%Q) [20; 40]%Z mins)
            ["one"] (MinimumPlot.pixelcnn_mi_estimates_across_psfs (vars w')).
Proof.
  apply (minimum_plot_complete example_files "" ["one"] [20; 40]%Z 2).
  - discriminate.
  - lia.
  - intros psf_name pc [->|[]%elem_of_nil]%elem_of_cons Hpc.
    repeat (apply elem_of_cons in Hpc as [->|Hpc]);
      [eexists _, _; repeat split; vm_compute; reflexivity..
      |by apply elem_of_nil in Hpc].
Defined.

(** X9. With no photon count to loop over, the first PSF of the
    minimum-plot cell has nothing to stack: [np.min] of the empty list
    has no axis 1, and the cell raises before opening a file. *)
Theorem minimum_plot_no_photon_counts (fs : files) (folder psf_name : string)
    (psfs : list string) (w : world MinimumPlot.variables) :
  ∃ w',
    MinimumPlot.run fs folder (psf_name :: psfs) [] w = (w', Raise AxisError) ∧
    opened w' = opened w ∧
    MinimumPlot.gaussian_mi_estimates_across_psfs (vars w') = [] ∧
    MinimumPlot.pixelcnn_mi_estimates_across_psfs (vars w') = [].
Proof.
  destruct w as [[ga pa eg ep] op]. unfold MinimumPlot.run.
  rewrite !bind_modify, for_each_cons. unfold MinimumPlot.load_psf.
  rewrite !bind_modify. rewrite (bind_Ok _ _ _ _ _ (for_each_nil _ _)).
  rewrite bind_get. cbn. eexists. by split.
Qed.

(** X10. What an earlier run has left in the variables of the two
    loading cells does not matter: with at least one PSF to loop over,
    each cell starts by emptying every list it fills. *)
Theorem loading_cells_reset (fs : files) (folder : string) (bias : Z)
    (psfs : list string) (pcs : list Z) (op : list string) :
  psfs ≠ [] →
  (∀ v1 v2 : MinimumPlot.variables,
     MinimumPlot.run fs folder psfs pcs (World v1 op) =
     MinimumPlot.run fs folder psfs pcs (World v2 op)) ∧
  (∀ v1 v2 : Classifier.variables,
     Classifier.run fs folder psfs pcs bias (World v1 op) =
     Classifier.run fs folder psfs pcs bias (World v2 op)).
Proof.
  intros Hpsfs. destruct psfs as [|psf_name psfs]; [done|]. split.
  - intros [ga1 pa1 eg1 ep1] [ga2 pa2 eg2 ep2]. unfold MinimumPlot.run.
    rewrite !bind_modify, !for_each_cons. unfold MinimumPlot.load_psf at 1 3.
    by rewrite !bind_modify.
  - intros [ca1 all1] [ca2 all2]. unfold Classifier.run.
    rewrite !bind_modify.
    unfold mbind at 1 4, cell_bind at 1 4.
    rewrite !for_each_cons. unfold Classifier.load_psf at 1 3.
    by rewrite !bind_modify.
Qed.

Lemma loading_cells_reset_witness :
  (∀ v1 v2 : MinimumPlot.variables,
     MinimumPlot.run example_files "" ["one"] [20]%Z (World v1 []) =
     MinimumPlot.run example_files "" ["one"] [20]%Z (World v2 [])) ∧
  (∀ v1 v2 : Classifier.variables,
     Classifier.run example_files "" ["one"] [20]%Z 10 (World v1 []) =
     Classifier.run example_files "" ["one"] [20]%Z 10 (World v2 [])).
Proof.
  apply (loading_cells_reset example_files "" 10 ["one"] [20]%Z []). discriminate.
Defined.

(** ** Classifier results of different lengths *)

Lemma same_length_false (rows : list ndarray) (r1 r2 : ndarray) :
  r1 ∈ rows → r2 ∈ rows → length r1 ≠ length r2 → same_length rows = false.
Proof.
  intros Hr1 Hr2 Hdiff. destruct (same_length rows) eqn:Hsame; [|done].
  destruct (same_length_true _ Hsame) as [n Hn]. rewrite Forall_forall in Hn.
  by rewrite (Hn r1 Hr1), (Hn r2 Hr2) in Hdiff.
Qed.

(** X11. When the files of a PSF hold different numbers of trials at two
    photon counts, the classifier cell reads all the files of that PSF
    and then raises the [ValueError] of a ragged stack; it keeps the
    grids of the PSFs stacked before. *)
Theorem classifier_ragged_trials (fs : files) (folder : string) (bias : Z)
    (psfs_done : list string) (psf_name : string) (psfs_rest : list string)
    (pcs : list Z) (n : nat) (pc1 pc2 : Z) (a1 a2 : ndarray)
    (w : world Classifier.variables) :
  (∀ p pc, p ∈ psfs_done → pc ∈ pcs →
     ∃ a, fs !! classifier_file folder pc p bias "cnn" = Some a ∧ length a = n) →
  (∀ pc, pc ∈ pcs → is_Some (fs !! classifier_file folder pc psf_name bias "cnn")) →
  pc1 ∈ pcs → pc2 ∈ pcs →
  fs !! classifier_file folder pc1 psf_name bias "cnn" = Some a1 →
  fs !! classifier_file folder pc2 psf_name bias "cnn" = Some a2 →
  length a1 ≠ length a2 →
  ∃ w',
    Classifier.run fs folder (psfs_done ++ psf_name :: psfs_rest) pcs bias w =
      (w', Raise (ValueError "inhomogeneous shape")) ∧
    Classifier.classifier_across_photons (vars w') =
      classifier_arrays fs folder bias psf_name pcs ∧
    Classifier.classifier_all_trials_across_psfs (vars w') =
      (λ p, classifier_arrays fs folder bias p pcs) <$> psfs_done.
Proof.
  intros Hdone Hpres Hpc1 Hpc2 Ha1 Ha2 Hdiff. destruct w as [[ca all] op].
  unfold Classifier.run. rewrite bind_modify. cbn [vars opened].
  change (Classifier.set_classifier_all_trials_across_psfs [] _)
    with (Classifier.Variables ca []).
  destruct (classifier_psfs_ok fs folder bias psfs_done pcs n ca [] op Hdone)
    as (ca' & op' & Hrun).
  set (all' := [] ++ ((λ p, classifier_arrays fs folder bias p pcs) <$> psfs_done))
    in *.
  assert (Classifier.load_psf fs folder pcs bias psf_name
            (World (Classifier.Variables ca' all') op') =
          (World (Classifier.Variables
                    (classifier_arrays fs folder bias psf_name pcs) all')
                 (op' ++ ((λ pc, classifier_file folder pc psf_name bias "cnn")
                            <$> pcs)),
           Raise (ValueError "inhomogeneous shape"))) as Hpsf.
  { unfold Classifier.load_psf. rewrite bind_modify. cbn [vars opened].
    rewrite (bind_Ok _ _ _ _ _
               (classifier_photons_ok fs folder bias psf_name pcs [] all' op' Hpres)).
    rewrite bind_get. cbn [vars Classifier.classifier_across_photons app].
    unfold Classifier.np_array.
    rewrite (same_length_false _ a1 a2); [reflexivity| | |done].
    - unfold classifier_arrays. apply list_elem_of_fmap. exists pc1.
      by rewrite (stored_Some _ _ _ Ha1).
    - unfold classifier_arrays. apply list_elem_of_fmap. exists pc2.
      by rewrite (stored_Some _ _ _ Ha2). }
  eexists. split.
  - apply bind_Raise. rewrite (for_each_app _ _ _ _ _ Hrun).
    apply for_each_raise. exact Hpsf.
  - done.
Qed.

Lemma classifier_ragged_trials_witness :
  ∃ w',
    Classifier.run
      (<[classifier_file "" 40 "one" 10 "cnn" := [1; 2]%Q]> example_classifier_files)
      "" ([] ++ "one" :: ["four"]) [20; 40]%Z 10
      (World (Classifier.Variables [] []) []) =
      (w', Raise (ValueError "inhomogeneous shape")) ∧
    Classifier.classifier_across_photons (vars w') =
      classifier_arrays
        (<[classifier_file "" 40 "one" 10 "cnn" := [1; 2]%Q]> example_classifier_files)
        "" 10 "one" [20; 40]%Z ∧
    Classifier.classifier_all_trials_across_psfs (vars w') =
      (λ p, classifier_arrays
              (<[classifier_file "" 40 "one" 10 "cnn" := [1; 2]%Q]>
                 example_classifier_files) "" 10 p [20; 40]%Z) <$> [].
Proof.
  apply (classifier_ragged_trials
           (<[classifier_file "" 40 "one" 10 "cnn" := [1; 2]%Q]> example_classifier_files)
           "" 10 [] "one" ["four"] [20; 40]%Z 0 20 40 [1; 2; 3]%Q [1; 2]%Q).
  - intros p pc []%elem_of_nil.
  - intros pc Hpc.
    repeat (apply elem_of_cons in Hpc as [->|Hpc]);
      [eexists; vm_compute; reflexivity..|by apply elem_of_nil in Hpc].
  - by left.
  - right. by left.
  - vm_compute. reflexivity.
  - vm_compute. reflexivity.
  - simpl. lia.
Defined.

(** ** Array objects in the mean-plot cell *)

Lemma for_each_preserves {V X} (R : relation (world V)) `{!PreOrder R}
    (xs : list X) (body : X → cell V unit) (w : world V) :
  (∀ x w0, R w0 (body x w0).1) → R w (for_each xs body w).1.
Proof.
  intros Hbody. revert w. induction xs as [|x xs IH]; intros w.
  - rewrite for_each_nil. done.
  - rewrite for_each_cons. specialize (Hbody x w).
    destruct (body x w) as [w1 [[]|e]]; simpl in *; [|done].
    by etrans.
Qed.

Section MeanPlotHeap.
Variables (fs : files) (folder : string).
Variable confidence_bars : list ndarray → Z → result (list Q * list Q * list Q).

Let grows (w w' : world MeanPlot.variables) : Prop :=
  MeanPlot.heap (vars w) `prefix_of` MeanPlot.heap (vars w').

Local Instance grows_preorder : PreOrder grows.
Proof.
  split; [intros w; unfold grows; reflexivity|].
  intros w1 w2 w3. unfold grows. apply transitivity.
Qed.

Lemma mean_photon_grows psf_name pc w :
  grows w (MeanPlot.load_photon_count fs folder psf_name pc w).1.
Proof.
  destruct w as [[h gr pr calls] op]. unfold grows, MeanPlot.load_photon_count.
  rewrite gaussian_mi_path_Ok, bind_lift_Ok.
  destruct (fs !! gaussian_file folder pc psf_name) as [g|] eqn:Hg.
  2:{ rewrite (bind_Raise _ _ _ _ _ (np_load_None fs _ _ Hg)). simpl.
      reflexivity. }
  rewrite (bind_Ok _ _ _ _ _ (np_load_Some fs _ g _ Hg)). cbn [vars opened].
  rewrite (bind_Ok _ _ _ _ _ (alloc_eq g h gr pr calls _)).
  rewrite pixelcnn_mi_path_Ok, bind_lift_Ok.
  destruct (fs !! pixelcnn_file folder pc psf_name) as [p|] eqn:Hp.
  2:{ rewrite (bind_Raise _ _ _ _ _ (np_load_None fs _ _ Hp)). simpl.
      by apply prefix_app_r. }
  rewrite (bind_Ok _ _ _ _ _ (np_load_Some fs _ p _ Hp)). cbn [vars opened].
  rewrite (bind_Ok _ _ _ _ _ (alloc_eq p (h ++ [g]) gr pr calls _)).
  rewrite (bind_Ok _ _ _ _ _ (deref_eq (length (h ++ [g])) p _ gr pr calls _
                                (list_lookup_middle (h ++ [g]) [] p _ eq_refl))).
  destruct (pixelcnn_clip p) as [c|e].
  - rewrite bind_lift_Ok.
    rewrite (bind_Ok _ _ _ _ _ (store_eq _ _ _ _ _ _ _)).
    rewrite bind_modify. unfold modify. simpl.
    rewrite insert_last, <- app_assoc. by apply prefix_app_r.
  - rewrite bind_lift_Raise. simpl. rewrite <- app_assoc. by apply prefix_app_r.
Qed.

Lemma call_confidence_bars_heap refs num_trials w :
  MeanPlot.heap (vars (MeanPlot.call_confidence_bars confidence_bars refs
                         num_trials w).1) = MeanPlot.heap (vars w).
Proof.
  destruct w as [[h gr pr calls] op]. unfold MeanPlot.call_confidence_bars.
  rewrite bind_get. cbn [vars MeanPlot.heap].
  destruct (MeanPlot.snapshot h refs); [by rewrite bind_modify|done].
Qed.

Lemma mean_psf_grows (pcs : list Z) psf_name w :
  grows w (MeanPlot.plot_psf fs folder pcs confidence_bars psf_name w).1.
Proof.
  destruct w as [[h gr pr calls] op]. unfold MeanPlot.plot_psf.
  rewrite !bind_modify. cbn [vars opened].
  pose proof (for_each_preserves grows pcs
                (MeanPlot.load_photon_count fs folder psf_name)
                (World (MeanPlot.Variables h [] [] calls) op)
                (mean_photon_grows psf_name)) as Hloop.
  change (MeanPlot.set_pixelcnn_across_photons [] _)
    with (MeanPlot.Variables h [] [] calls).
  destruct (for_each pcs _ _) as [w1 [[]|e]] eqn:Hrun; simpl in Hloop.
  2:{ by rewrite (bind_Raise _ _ _ _ _ Hrun). }
  rewrite (bind_Ok _ _ _ _ _ Hrun), bind_get.
  pose proof (call_confidence_bars_heap
                (MeanPlot.gaussian_across_photons (vars w1)) 9 w1) as Hc1.
  destruct (MeanPlot.call_confidence_bars _ _ _ w1) as [w2 [r|e]] eqn:Hcall1;
    simpl in Hc1.
  2:{ rewrite (bind_Raise _ _ _ _ _ Hcall1). unfold grows in *. simpl.
      by rewrite Hc1. }
  rewrite (bind_Ok _ _ _ _ _ Hcall1), bind_get.
  pose proof (call_confidence_bars_heap
                (MeanPlot.pixelcnn_across_photons (vars w2)) 9 w2) as Hc2.
  destruct (MeanPlot.call_confidence_bars _ _ _ w2) as [w3 [r2|e]] eqn:Hcall2;
    simpl in Hc2.
  - rewrite (bind_Ok _ _ _ _ _ Hcall2). unfold grows in *. simpl.
    by rewrite Hc2, Hc1.
  - rewrite (bind_Raise _ _ _ _ _ Hcall2). unfold grows in *. simpl.
    by rewrite Hc2, Hc1.
Qed.

Lemma mean_run_grows (psfs : list string) (pcs : list Z) w :
  grows w (MeanPlot.run fs folder psfs pcs confidence_bars w).1.
Proof.
  unfold MeanPlot.run. apply for_each_preserves; [apply _|].
  intros psf_name w0. apply mean_psf_grows.
Qed.
End MeanPlotHeap.

(** X12. Whatever the mean-plot cell meets (missing files, empty
    arrays, a failing [confidence_bars]), the array objects that existed
    before it ran are as they were afterwards: the clipping writes only
    into arrays that the cell has loaded itself. *)
Theorem mean_plot_keeps_earlier_arrays (fs : files) (folder : string)
    (psfs : list string) (pcs : list Z)
    (confidence_bars : list ndarray → Z → result (list Q * list Q * list Q))
    (w : world MeanPlot.variables) (ref : nat) (a : ndarray) :
  MeanPlot.heap (vars w) !! ref = Some a →
  MeanPlot.heap (vars (MeanPlot.run fs folder psfs pcs confidence_bars w).1) !! ref
    = Some a.
Proof.
  intros Href.
  destruct (mean_run_grows fs folder confidence_bars psfs pcs w) as [k ->].
  by apply lookup_app_l_Some.
Qed.

Lemma mean_plot_keeps_earlier_arrays_witness :
  MeanPlot.heap
    (vars (MeanPlot.run example_outlier_files "" ["one"] [20]%Z
             (λ _ _, Ok ([], [], []))
             (World (MeanPlot.Variables [[1; 5]%Q] [] [] []) [])).1) !! 0%nat
    = Some [1; 5]%Q.
Proof.
  by apply (mean_plot_keeps_earlier_arrays example_outlier_files "" ["one"]
              [20]%Z (λ _ _, Ok ([], [], []))
              (World (MeanPlot.Variables [[1; 5]%Q] [] [] []) []) 0 [1; 5]%Q).
Defined.

(** ** One file per condition *)

Lemma append_cons (c : ascii) (s t : string) :
  String c s +:+ t = String c (s +:+ t).
Proof. reflexivity. Qed.

Lemma append_inj_l (p s t : string) : p +:+ s = p +:+ t → s = t.
Proof.
  induction p as [|c p IH]; [done|]. rewrite !append_cons. intros [= H]. auto.
Qed.

Lemma length_append (s t : string) :
  String.length (s +:+ t) = (String.length s + String.length t)%nat.
Proof.
  induction s as [|c s IH]; [done|]. rewrite append_cons. simpl. by rewrite IH.
Qed.

Lemma append_inj_r (s1 s2 t : string) : s1 +:+ t = s2 +:+ t → s1 = s2.
Proof.
  revert s2. induction s1 as [|c1 s1 IH]; intros [|c2 s2] H.
  - done.
  - apply (f_equal String.length) in H. change ("" +:+ t) with t in H.
    rewrite append_cons in H. simpl in H. rewrite length_append in H. lia.
  - apply (f_equal String.length) in H. change ("" +:+ t) with t in H.
    rewrite append_cons in H. simpl in H. rewrite length_append in H. lia.
  - rewrite !append_cons in H. injection H as -> H. f_equal. by apply IH.
Qed.

Lemma char_free_append_cons (c : ascii) (s t : string) :
  ¬ char_free c (s +:+ String c t).
Proof.
  induction s as [|c' s IH]; [by intros [? _]|].
  rewrite append_cons. intros [_ ?]. auto.
Qed.

(** A string is cut in one way only at the first occurrence of a
    character, and at the last one. *)
Lemma split_first (c : ascii) (s1 s2 t1 t2 : string) :
  char_free c s1 → char_free c s2 →
  s1 +:+ String c t1 = s2 +:+ String c t2 → s1 = s2 ∧ t1 = t2.
Proof.
  revert s2. induction s1 as [|c1 s1 IH]; intros [|c2 s2] H1 H2 H.
  - by injection H.
  - rewrite append_cons in H. injection H as <- _. by destruct H2.
  - rewrite append_cons in H. injection H as -> _. by destruct H1.
  - rewrite !append_cons in H. injection H as -> H.
    destruct H1 as [_ H1], H2 as [_ H2].
    destruct (IH s2 H1 H2 H) as [-> ->]. done.
Qed.

Lemma split_last (c : ascii) (s1 s2 t1 t2 : string) :
  char_free c t1 → char_free c t2 →
  s1 +:+ String c t1 = s2 +:+ String c t2 → s1 = s2 ∧ t1 = t2.
Proof.
  revert s2. induction s1 as [|c1 s1 IH]; intros [|c2 s2] H1 H2 H.
  - by injection H.
  - rewrite append_cons in H. injection H as _ ->.
    by apply char_free_append_cons in H1.
  - rewrite append_cons in H. injection H as _ <-.
    by apply char_free_append_cons in H2.
  - rewrite !append_cons in H. injection H as -> H.
    destruct (IH s2 H1 H2 H) as [-> ->]. done.
Qed.

Lemma string_of_uint_free (d : Decimal.uint) :
  char_free "_" (NilZero.string_of_uint d).
Proof.
  assert (char_free "_" (NilEmpty.string_of_uint d)) as H.
  { induction d; simpl; [done|split; [discriminate|assumption]..]. }
  destruct d; try exact H. by split.
Qed.

(** The decimal form of an integer holds no underscore, and tells the
    integer. *)
Lemma str_int_free (z : Z) : char_free "_" (str (PyInt z)).
Proof.
  unfold str. destruct (Z.to_int z) as [d|d]; simpl.
  - apply string_of_uint_free.
  - split; [discriminate|]. apply string_of_uint_free.
Qed.

Lemma str_int_inj (z z' : Z) : str (PyInt z) = str (PyInt z') → z = z'.
Proof.
  unfold str. intros H. apply DecimalZ.to_int_inj.
  assert (∀ z, Z.to_int z ≠ Decimal.Pos Decimal.Nil ∧
               Z.to_int z ≠ Decimal.Neg Decimal.Nil) as Hnil.
  { intros [|p|p]; simpl; split; try discriminate;
      intros [= H']; by apply Unsigned.to_uint_nonnil in H'. }
  apply (f_equal NilZero.int_of_string) in H.
  rewrite !NilZero.isi in H by apply Hnil. by injection H.
Qed.

Lemma mi_tail_inj (pc pc' : Z) (psf psf' : string) :
  str (PyInt pc) +:+ "_photon_count_" +:+ psf +:+ "_psf.npy" =
  str (PyInt pc') +:+ "_photon_count_" +:+ psf' +:+ "_psf.npy" →
  pc = pc' ∧ psf = psf'.
Proof.
  intros H.
  change ("_photon_count_" +:+ psf +:+ "_psf.npy")
    with (String "_" ("photon_count_" +:+ psf +:+ "_psf.npy")) in H.
  change ("_photon_count_" +:+ psf' +:+ "_psf.npy")
    with (String "_" ("photon_count_" +:+ psf' +:+ "_psf.npy")) in H.
  apply split_first in H as [Hpc H]; [|apply str_int_free..].
  split; [by apply str_int_inj|].
  apply append_inj_l in H. by apply append_inj_r in H.
Qed.

Lemma classifier_file_inj folder pc pc' psf psf' bias bias' :
  classifier_file folder pc psf bias "cnn" =
  classifier_file folder pc' psf' bias' "cnn" →
  pc = pc' ∧ psf = psf' ∧ bias = bias'.
Proof.
  unfold classifier_file. intros H. do 2 apply append_inj_l in H.
  change ("_mean_photon_count_" +:+ ?x)
    with (String "_" ("mean_photon_count_" +:+ x)) in H.
  apply split_first in H as [Hpc H]; [|apply str_int_free..].
  split; [by apply str_int_inj|].
  apply append_inj_l in H.
  assert (∀ p b, p +:+ "_psf_" +:+ str (PyInt b) +:+ "_bias_" +:+ "cnn" +:+
                 "_model.npy" =
                 ((p +:+ "_psf") +:+ String "_" (str (PyInt b))) +:+
                 "_bias_cnn_model.npy") as Heq.
  { intros p b. by rewrite !string_app_assoc. }
  rewrite !Heq in H. apply append_inj_r in H.
  apply split_last in H as [H Hb]; [|apply str_int_free..].
  split; [by apply append_inj_r in H|by apply str_int_inj].
Qed.

(** X13. The paths tell the conditions apart: under one folder, two
    Gaussian paths, two PixelCNN paths or two classifier paths of the
    model [cnn] are equal only for the same photon count and PSF name
    (and bias), and no path of one family is a path of another. *)
Theorem artifact_paths_distinct (folder : string) (pc pc' : Z)
    (psf psf' : string) (b b' : Z) (model : string) :
  (gaussian_mi_path folder pc psf = gaussian_mi_path folder pc' psf' →
   pc = pc' ∧ psf = psf') ∧
  (pixelcnn_mi_path folder pc psf = pixelcnn_mi_path folder pc' psf' →
   pc = pc' ∧ psf = psf') ∧
  (classifier_path folder pc psf b "cnn" =
     classifier_path folder pc' psf' b' "cnn" →
   pc = pc' ∧ psf = psf' ∧ b = b') ∧
  gaussian_mi_path folder pc psf ≠ pixelcnn_mi_path folder pc' psf' ∧
  classifier_path folder pc psf b model ≠ gaussian_mi_path folder pc' psf' ∧
  classifier_path folder pc psf b model ≠ pixelcnn_mi_path folder pc' psf'.
Proof.
  pose proof (gaussian_mi_path_Ok folder) as Hg.
  pose proof (pixelcnn_mi_path_Ok folder) as Hp.
  pose proof (classifier_path_Ok folder) as Hc.
  split_and!.
  - rewrite !Hg. intros [= H]. unfold gaussian_file in H.
    do 2 apply append_inj_l in H. by apply mi_tail_inj.
  - rewrite !Hp. intros [= H]. unfold pixelcnn_file in H.
    do 2 apply append_inj_l in H. by apply mi_tail_inj.
  - rewrite !Hc. intros [= H]. exact (classifier_file_inj _ _ _ _ _ _ _ H).
  - rewrite Hg, Hp. intros [= H]. unfold gaussian_file, pixelcnn_file in H.
    apply append_inj_l in H. discriminate H.
  - rewrite Hg, Hc. intros [= H]. unfold gaussian_file, classifier_file in H.
    apply append_inj_l in H. discriminate H.
  - rewrite Hp, Hc. intros [= H]. unfold pixelcnn_file, classifier_file in H.
    apply append_inj_l in H. discriminate H.
Qed.

(** ** The bar charts *)

Lemma argwhere_first_Ok (xs : list Z) (x : Z) (j : nat) :
  argwhere_first xs x = Ok j ↔ xs !! j = Some x ∧ x ∉ take j xs.
Proof.
  revert j. induction xs as [|y xs IH]; intros j; simpl.
  - split; [done|]. by intros [? _].
  - case_bool_decide as Hy.
    + subst y. split.
      * intros [= <-]. split; [done|]. simpl. apply not_elem_of_nil.
      * intros [Hj Hnot]. destruct j as [|j]; [done|].
        exfalso. apply Hnot. simpl. by left.
    + destruct (argwhere_first xs x) as [k|e]; simpl.
      * split.
        -- intros [= <-]. destruct (proj1 (IH k) eq_refl) as [Hk Hnot].
           split; [done|]. simpl. by intros [?|?]%elem_of_cons.
        -- intros [Hj Hnot]. destruct j as [|j]; [by injection Hj|].
           simpl in Hj, Hnot.
           assert (Ok k = Ok j) as [= ->]; [|done].
           apply IH. split; [done|]. intros ?. apply Hnot. by right.
      * split; [done|]. intros [Hj Hnot]. destruct j as [|j]; [by injection Hj|].
        simpl in Hj, Hnot.
        assert (Raise e = Ok j) as [=].
        apply IH. split; [done|]. intros ?. apply Hnot. by right.
Qed.

Lemma argwhere_first_elem (xs : list Z) (x : Z) :
  x ∈ xs → ∃ j, argwhere_first xs x = Ok j.
Proof.
  induction xs as [|y xs IH]; [by intros ?%elem_of_nil|]. simpl.
  case_bool_decide; [by eexists|].
  intros [?|Hx]%elem_of_cons; [done|].
  destruct (IH Hx) as [j ->]. by eexists.
Qed.

Lemma argwhere_first_not_elem (xs : list Z) (x : Z) :
  x ∉ xs → argwhere_first xs x = Raise IndexError.
Proof.
  induction xs as [|y xs IH]; [done|]. simpl.
  intros Hx. case_bool_decide as Hy.
  - subst. exfalso. apply Hx. by left.
  - rewrite IH; [done|]. intros ?. apply Hx. by right.
Qed.

Lemma column_Ok_inv (a : list ndarray) (j : nat) (col : ndarray) :
  column a j = Ok col → Forall2 (λ row x, row !! j = Some x) a col.
Proof.
  unfold column. destruct a as [|r a]; [done|].
  intros H%mapM_result_Ok_inv.
  eapply Forall2_impl; [exact H|]. intros row x. unfold getitem1.
  by destruct (row !! j); [intros [= ->]|].
Qed.

Lemma column_Ok (a : list ndarray) (j : nat) :
  a ≠ [] → Forall (λ row, (j < length row)%nat) a →
  ∃ col, column a j = Ok col ∧ Forall2 (λ row x, row !! j = Some x) a col.
Proof.
  intros Ha Hj.
  destruct (mapM_result_Forall2 (λ row : ndarray, getitem1 row j) a)
    as (col & Hcol & _).
  { eapply Forall_impl; [exact Hj|]. intros row Hrow. simpl in Hrow.
    apply lookup_lt_is_Some_2 in Hrow as [x Hx]. exists x.
    unfold getitem1. by rewrite Hx. }
  assert (column a j = Ok col) as Hc by (by destruct a).
  exists col. split; [done|]. by apply column_Ok_inv.
Qed.

Lemma minimum_run_pixelcnn (fs : files) (folder : string)
    (psfs : list string) (pcs : list Z) (n : nat)
    (w : world MinimumPlot.variables) :
  pcs ≠ [] → (0 < n)%nat →
  (∀ psf_name pc, psf_name ∈ psfs → pc ∈ pcs →
     ∃ g p, fs !! gaussian_file folder pc psf_name = Some g ∧ length g = n ∧
            fs !! pixelcnn_file folder pc psf_name = Some p ∧ length p = n) →
  ∃ w',
    MinimumPlot.run fs folder psfs pcs w = (w', Ok ()) ∧
    Forall2 (λ psf_name mins,
               Forall2 (λ pc m,
                          ∃ p, fs !! pixelcnn_file folder pc psf_name = Some p ∧
                               m ∈ p ∧ ∀ v, v ∈ p → (m <= v)%Q) pcs mins)
            psfs (MinimumPlot.pixelcnn_mi_estimates_across_psfs (vars w')).
Proof.
  intros Hpcs Hn Hall. destruct w as [[ga pa eg ep] op].
  assert (∀ psf_name, psf_name ∈ psfs →
            Forall (λ row, length row = n) (gaussian_arrays fs folder psf_name pcs) ∧
            Forall (λ row, length row = n) (pixelcnn_arrays fs folder psf_name pcs))
    as Hrect.
  { intros psf_name Hpsf. unfold gaussian_arrays, pixelcnn_arrays.
    split; apply Forall_fmap, Forall_forall; intros pc Hpc;
      destruct (Hall psf_name pc Hpsf Hpc) as (g & p & Hg & Hgn & Hp & Hpn); simpl.
    - by rewrite (stored_Some _ _ _ Hg).
    - by rewrite (stored_Some _ _ _ Hp). }
  destruct (minimum_psfs_ok fs folder pcs psfs ga pa [] [] op)
    as (ga' & pa' & mgs & mps & Hrun & _ & Hps).
  { intros psf_name path Hpsf Hpath. unfold mi_files in Hpath.
    apply list_elem_of_bind in Hpath as (pc & Hpath & Hpc).
    destruct (Hall psf_name pc Hpsf Hpc) as (g & p & Hg & _ & Hp & _).
    apply elem_of_cons in Hpath as [->|Hpath]; [by exists g|].
    apply list_elem_of_singleton in Hpath as ->. by exists p. }
  { intros psf_name Hpsf. destruct (Hrect psf_name Hpsf) as [Hg Hp].
    destruct (np_min_axis1_rectangular (gaussian_arrays fs folder psf_name pcs) n)
      as (mg & Hmg & _); [unfold gaussian_arrays; by destruct pcs|done..|].
    destruct (np_min_axis1_rectangular (pixelcnn_arrays fs folder psf_name pcs) n)
      as (mp & Hmp & _); [unfold pixelcnn_arrays; by destruct pcs|done..|].
    by exists mg, mp. }
  unfold MinimumPlot.run. rewrite !bind_modify. cbn [vars opened].
  change (MinimumPlot.set_pixelcnn_mi_estimates_across_psfs [] _)
    with (MinimumPlot.Variables ga pa [] []).
  rewrite Hrun. eexists. split; [reflexivity|]. cbn [vars opened]. simpl.
  clear Hrun Hrect. induction Hps as [|psf_name mins psfs' mps' Hmins _ IH];
    constructor.
  - apply np_min_axis1_Ok_inv in Hmins. unfold pixelcnn_arrays in Hmins.
    apply Forall2_fmap_l in Hmins.
    apply Forall2_same_length_lookup. split; [by eapply Forall2_length|].
    intros i pc m Hpc Hm.
    destruct (Hall psf_name pc) as (_ & p & _ & _ & Hp & _); [by left| |].
    { by eapply list_elem_of_lookup_2. }
    exists p. split; [done|].
    pose proof (Forall2_lookup_lr _ _ _ _ _ _ Hmins Hpc Hm) as Hmin.
    simpl in Hmin. rewrite (stored_Some _ _ _ Hp) in Hmin. by apply np_min_Ok.
  - apply IH; intros; apply Hall; by try right.
Qed.

(** X14. On complete data the bar chart of a photon level on the list
    shows, for each PSF in order, the smallest trial of its PixelCNN
    file at that level; a level that is not on the list raises
    [IndexError]. *)
Theorem bar_chart_heights (fs : files) (folder : string)
    (psfs : list string) (pcs : list Z) (n : nat) (photon_level : Z)
    (w : world MinimumPlot.variables) :
  psfs ≠ [] → pcs ≠ [] → (0 < n)%nat →
  (∀ psf_name pc, psf_name ∈ psfs → pc ∈ pcs →
     ∃ g p, fs !! gaussian_file folder pc psf_name = Some g ∧ length g = n ∧
            fs !! pixelcnn_file folder pc psf_name = Some p ∧ length p = n) →
  ∃ w',
    MinimumPlot.run fs folder psfs pcs w = (w', Ok ()) ∧
    (photon_level ∈ pcs →
     ∃ heights,
       mi_photon_val pcs (MinimumPlot.pixelcnn_mi_estimates_across_psfs (vars w'))
                     photon_level = Ok heights ∧
       Forall2 (λ psf_name h,
                  ∃ p, fs !! pixelcnn_file folder photon_level psf_name = Some p ∧
                       h ∈ p ∧ ∀ v, v ∈ p → (h <= v)%Q) psfs heights) ∧
    (photon_level ∉ pcs →
     mi_photon_val pcs (MinimumPlot.pixelcnn_mi_estimates_across_psfs (vars w'))
                   photon_level = Raise IndexError).
Proof.
  intros Hpsfs Hpcs Hn Hall.
  destruct (minimum_run_pixelcnn fs folder psfs pcs n w Hpcs Hn Hall)
    as (w' & Hrun & Hgrid).
  exists w'. split; [done|]. unfold mi_photon_val. split.
  - intros Hlevel. destruct (argwhere_first_elem pcs photon_level Hlevel) as [j Hj].
    rewrite Hj. simpl. apply argwhere_first_Ok in Hj as [Hj _].
    set (grid := MinimumPlot.pixelcnn_mi_estimates_across_psfs (vars w')) in *.
    destruct (column_Ok grid j) as (col & Hcol & Hcols).
    { intros ->. apply Forall2_nil_inv_r in Hgrid. done. }
    { apply Forall_forall. intros row Hrow.
      apply list_elem_of_lookup in Hrow as [i Hrow].
      destruct (Forall2_lookup_r _ _ _ _ _ Hgrid Hrow) as (psf_name & _ & Hmins).
      apply Forall2_length in Hmins. rewrite <- Hmins.
      by eapply lookup_lt_Some. }
    exists col. split; [done|].
    apply Forall2_same_length_lookup. split.
    { apply Forall2_length in Hgrid, Hcols. congruence. }
    intros i psf_name h Hpsf Hh.
    destruct (Forall2_lookup_l _ _ _ _ _ Hgrid Hpsf) as (row & Hrow & Hmins).
    pose proof (Forall2_lookup_lr _ _ _ _ _ _ Hcols Hrow Hh) as Hrowj.
    simpl in Hrowj.
    exact (Forall2_lookup_lr _ _ _ _ _ _ Hmins Hj Hrowj).
  - intros Hlevel. by rewrite argwhere_first_not_elem.
Qed.

Lemma bar_chart_heights_witness :
  ∃ w',
    MinimumPlot.run example_files "" ["one"] [20; 40]%Z
                    (World (MinimumPlot.Variables [] [] [] []) []) = (w', Ok ()) ∧
    (40%Z ∈ [20; 40]%Z →
     ∃ heights,
       mi_photon_val [20; 40]%Z
                     (MinimumPlot.pixelcnn_mi_estimates_across_psfs (vars w'))
                     40 = Ok heights ∧
       Forall2 (λ psf_name h,
                  ∃ p, example_files !! pixelcnn_file "" 40 psf_name = Some p ∧
                       h ∈ p ∧ ∀ v, v ∈ p → (h <= v)%Q) ["one"] heights) ∧
    (40%Z ∉ [20; 40]%Z →
     mi_photon_val [20; 40]%Z
                   (MinimumPlot.pixelcnn_mi_estimates_across_psfs (vars w'))
                   40 = Raise IndexError).
Proof.
  apply (bar_chart_heights example_files "" ["one"] [20; 40]%Z 2 40).
  - discriminate.
  - discriminate.
  - lia.
  - intros psf_name pc [->|[]%elem_of_nil]%elem_of_cons Hpc.
    repeat (apply elem_of_cons in Hpc as [->|Hpc]);
      [eexists _, _; repeat split; vm_compute; reflexivity..
      |by apply elem_of_nil in Hpc].
Defined.

(** ** The scatter plots *)

Lemma length_omap_total {A B} (f : A → option B) (l : list A) :
  Forall (λ x, is_Some (f x)) l → length (omap f l) = length l.
Proof.
  induction 1 as [|x l [y Hy] _ IH]; [done|]. cbn. rewrite Hy. cbn.
  f_equal. exact IH.
Qed.

Lemma zip_omap_total {A B C} (f : A → option B) (g : A → option C) (l : list A) :
  Forall (λ x, is_Some (f x) ∧ is_Some (g x)) l →
  zip (omap f l) (omap g l) = omap (λ x, y ← f x; z ← g x; Some (y, z)) l.
Proof.
  induction 1 as [|x l [[y Hy] [z Hz]] _ IH]; [done|]. cbn.
  rewrite Hy, Hz. cbn. f_equal. exact IH.
Qed.

Lemma select_indices_lookups (m : positive) (s : nat) (a : ndarray) :
  Forall (λ i, is_Some (a !! i))
         (filter (λ i, i mod Pos.to_nat m = s) (seq 0 (length a))).
Proof.
  apply Forall_forall. intros i [_ Hi]%list_elem_of_filter.
  apply elem_of_seq in Hi. apply lookup_lt_is_Some_2. lia.
Qed.

Lemma length_select_indices (m : positive) (s : nat) (a b : ndarray) :
  length a = length b →
  length (select_indices m s a) = length (select_indices m s b).
Proof.
  intros Hab. unfold select_indices.
  rewrite !length_omap_total by apply select_indices_lookups.
  by rewrite Hab.
Qed.

Section Scatter.
Variables (m : positive) (s : nat).
Variable pcs : list Z.
Variables (acc mi : list ndarray).

Let P (j : nat) : Prop := j mod Pos.to_nat m = s.
Let select : ndarray → ndarray := select_indices m s.

Lemma legend_loop (l : list (string * string)) mk ln op :
  for_each (seq 0 (length psf_name_labels)) ScatterPlot.legend_step
           (World (ScatterPlot.Variables l mk ln) op) =
  (World (ScatterPlot.Variables (l ++ zip marker_list psf_name_labels) mk ln) op,
   Ok ()).
Proof.
  cbv -[app]. rewrite <- !(assoc_L (++)). reflexivity.
Qed.

Lemma marker_loop (idx : nat) (pc : Z) x0 x1 x2 xs y0 y1 y2 ys l mk ln op :
  pcs !! idx = Some pc →
  for_each (enumerate psf_name_labels)
           (ScatterPlot.marker_step pcs idx (x0 :: x1 :: x2 :: xs)
                                    (y0 :: y1 :: y2 :: ys))
           (World (ScatterPlot.Variables l mk ln) op) =
  (World (ScatterPlot.Variables l
            (mk ++ [(x0, y0, "^", pc); (x1, y1, "s", pc); (x2, y2, "D", pc)])
            ln) op, Ok ()).
Proof.
  intros Hpc. unfold ScatterPlot.marker_step, getitem1.
  rewrite Hpc. cbv -[app]. rewrite <- !(assoc_L (++)). reflexivity.
Qed.

Lemma column_three (a : list ndarray) (j : nat) :
  (3 ≤ length a)%nat → Forall (λ row, length row = length pcs) a →
  (j < length pcs)%nat →
  ∃ x0 x1 x2 xs,
    column a j = Ok (x0 :: x1 :: x2 :: xs) ∧
    Forall2 (λ row x, row !! j = Some x) a (x0 :: x1 :: x2 :: xs).
Proof.
  intros Ha Hrect Hj.
  destruct (column_Ok a j) as (col & Hcol & Hcols).
  { intros ->. simpl in Ha. lia. }
  { eapply Forall_impl; [exact Hrect|]. intros row Hrow. simpl in Hrow. lia. }
  pose proof (Forall2_length _ _ _ Hcols) as Hlen.
  destruct col as [|x0 [|x1 [|x2 xs]]]; simpl in Hlen; try lia.
  by exists x0, x1, x2, xs.
Qed.

Hypothesis pcs_NoDup : NoDup pcs.
Hypothesis mi_rows : (3 ≤ length mi)%nat.
Hypothesis acc_rows : length acc = length mi.
Hypothesis mi_rect : Forall (λ row, length row = length pcs) mi.
Hypothesis acc_rect : Forall (λ row, length row = length pcs) acc.

Let point (p : Q * Q * string * Z) : Q * Q := (p.1.1.1, p.1.1.2).
Let vertex (mi_row acc_row : ndarray) (j : nat) : option (Q * Q) :=
  x ← mi_row !! j; y ← acc_row !! j; Some (x, y).

Lemma photon_level_step_markers (t : nat) (pc : Z) l mk ln op :
  pcs !! t = Some pc → pc ∉ take t pcs →
  ∃ new,
    ScatterPlot.photon_level_step m s pcs acc mi pc
      (World (ScatterPlot.Variables l mk ln) op) =
      (World (ScatterPlot.Variables l (mk ++ new) ln) op, Ok ()) ∧
    ∀ i fmt mi_row acc_row,
      marker_list !! i = Some fmt → mi !! i = Some mi_row →
      acc !! i = Some acc_row →
      point <$> filter (λ p, p.1.2 = fmt) new =
      omap (vertex mi_row acc_row) (filter P [t]).
Proof using All.
  intros Hpc Hfirst.
  assert (argwhere_first pcs pc = Ok t) as Harg by (by apply argwhere_first_Ok).
  assert (t < length pcs)%nat as Ht by (by eapply lookup_lt_Some).
  destruct (column_three mi t) as (x0 & x1 & x2 & xs & Hmi & Hmis); [done..|].
  unfold ScatterPlot.photon_level_step.
  rewrite Harg, bind_lift_Ok, Hmi, bind_lift_Ok.
  case_bool_decide as Hsel.
  - destruct (column_three acc t) as (y0 & y1 & y2 & ys & Hacc & Haccs);
      [lia|done..|].
    rewrite Hacc, bind_lift_Ok, (marker_loop t pc) by done.
    eexists. split; [reflexivity|].
    intros i fmt mi_row acc_row Hfmt Hmi_row Hacc_row.
    rewrite (filter_cons_True P t []), (filter_nil P) by exact Hsel.
    cbn [omap list_omap].
    assert (∀ x y, mi !! i = Some mi_row → acc !! i = Some acc_row →
                   (x0 :: x1 :: x2 :: xs) !! i = Some x →
                   (y0 :: y1 :: y2 :: ys) !! i = Some y →
                   vertex mi_row acc_row t = Some (x, y)) as Hv.
    { intros x y H1 H2 Hx Hy. unfold vertex.
      rewrite (Forall2_lookup_lr _ _ _ _ _ _ Hmis H1 Hx).
      rewrite (Forall2_lookup_lr _ _ _ _ _ _ Haccs H2 Hy). done. }
    destruct i as [|[|[|i]]]; simpl in Hfmt; [| | |done];
      injection Hfmt as <-;
      rewrite (Hv _ _ Hmi_row Hacc_row eq_refl eq_refl); reflexivity.
  - exists []. rewrite app_nil_r. split; [done|].
    intros i fmt mi_row acc_row _ _ _.
    by rewrite (filter_cons_False P t []), !filter_nil by exact Hsel.
Qed.

Lemma photon_levels_markers (rest : list Z) :
  ∀ (done : list Z) l mk ln op,
    pcs = done ++ rest →
    ∃ new,
      for_each rest (ScatterPlot.photon_level_step m s pcs acc mi)
        (World (ScatterPlot.Variables l mk ln) op) =
        (World (ScatterPlot.Variables l (mk ++ new) ln) op, Ok ()) ∧
      ∀ i fmt mi_row acc_row,
        marker_list !! i = Some fmt → mi !! i = Some mi_row →
        acc !! i = Some acc_row →
        point <$> filter (λ p, p.1.2 = fmt) new =
        omap (vertex mi_row acc_row)
             (filter P (seq (length done) (length rest))).
Proof using All.
  induction rest as [|pc rest IH]; intros done l mk ln op Hpcs.
  - exists []. rewrite for_each_nil, app_nil_r. split; [done|]. done.
  - destruct (photon_level_step_markers (length done) pc l mk ln op)
      as (new1 & Hstep & Hnew1).
    { rewrite Hpcs. by apply list_lookup_middle. }
    { rewrite Hpcs, take_app_length. pose proof pcs_NoDup as Hnd.
      rewrite Hpcs in Hnd. apply NoDup_app in Hnd as (_ & Hnd & _).
      intros Hin. apply (Hnd pc Hin). by left. }
    destruct (IH (done ++ [pc]) l (mk ++ new1) ln op) as (new2 & Hloop & Hnew2).
    { by rewrite <- (assoc_L (++)). }
    exists (new1 ++ new2). rewrite for_each_cons, Hstep, Hloop.
    split; [by rewrite (assoc_L (++))|].
    intros i fmt mi_row acc_row Hfmt Hmi_row Hacc_row.
    rewrite filter_app, fmap_app.
    rewrite (Hnew1 i fmt mi_row acc_row), (Hnew2 i fmt mi_row acc_row) by done.
    rewrite length_app. simpl length.
    replace (length done + 1)%nat with (S (length done)) by lia.
    change (seq (length done) (S (length rest)))
      with ([length done] ++ seq (S (length done)) (length rest)).
    by rewrite filter_app, omap_app.
Qed.

Lemma line_loop (ps : list string) :
  ∀ (k : nat) (accR miR : list ndarray) l mk ln op,
    length accR = length ps → length miR = length ps →
    drop k acc = accR → drop k mi = miR →
    for_each (zip (seq k (length ps)) ps)
             (ScatterPlot.line_step m s acc mi)
             (World (ScatterPlot.Variables l mk ln) op) =
    (World (ScatterPlot.Variables l mk
              (ln ++ zip_with (λ mi_row acc_row,
                                 (select mi_row, select acc_row)) miR accR))
           op, Ok ()).
Proof using All.
  induction ps as [|p ps IH]; intros k accR miR l mk ln op Hacc Hmi Hdacc Hdmi.
  - destruct accR, miR; try done.
    change (zip (seq k (length (@nil string))) []) with (@nil (nat * string)).
    rewrite for_each_nil. simpl zip_with. by rewrite app_nil_r.
  - destruct accR as [|a accR], miR as [|b miR]; try done.
    simpl in Hacc, Hmi.
    assert (acc !! k = Some a) as Ha.
    { rewrite <- (Nat.add_0_r k), <- lookup_drop, Hdacc. done. }
    assert (mi !! k = Some b) as Hb.
    { rewrite <- (Nat.add_0_r k), <- lookup_drop, Hdmi. done. }
    assert (length b = length a) as Hab.
    { rewrite Forall_forall in mi_rect, acc_rect.
      rewrite (mi_rect b), (acc_rect a); [done|..]; by eapply list_elem_of_lookup_2. }
    simpl length. simpl seq. simpl zip. rewrite for_each_cons.
    unfold ScatterPlot.line_step at 1. unfold getitem1.
    rewrite Ha, Hb, !bind_lift_Ok.
    rewrite bool_decide_eq_true_2 by (by apply length_select_indices).
    cbn [modify vars opened ScatterPlot.set_lines ScatterPlot.lines
         ScatterPlot.psf_label_list ScatterPlot.markers].
    unfold ScatterPlot.set_lines.
    cbn [ScatterPlot.lines ScatterPlot.psf_label_list ScatterPlot.markers].
    rewrite (IH (S k) accR miR); [|lia|lia|..].
    + simpl. by rewrite <- (assoc_L (++)).
    + replace (S k) with (k + 1)%nat by lia.
      by rewrite <- drop_drop, Hdacc.
    + replace (S k) with (k + 1)%nat by lia.
      by rewrite <- drop_drop, Hdmi.
Qed.
End Scatter.

(** X15. In a scatter plot over distinct photon counts, with three or
    more PSFs and one row per PSF and one column per photon count in
    both grids, the figure is drawn without error; its dashed lines
    join, per PSF, the selected entries of the two rows, and the markers
    of a PSF are exactly the vertices of its dashed line, in order. *)
Theorem scatter_markers_on_lines (mod_idx_plot : positive) (mod_idx_shift : nat)
    (psfs : list string) (pcs : list Z) (acc mi : list ndarray)
    (w : world ScatterPlot.variables) :
  NoDup pcs →
  (3 ≤ length psfs)%nat → length acc = length psfs → length mi = length psfs →
  Forall (λ row, length row = length pcs) acc →
  Forall (λ row, length row = length pcs) mi →
  ∃ w' new_markers,
    ScatterPlot.figure mod_idx_plot mod_idx_shift psfs pcs acc mi w = (w', Ok ()) ∧
    ScatterPlot.psf_label_list (vars w') = zip marker_list psf_name_labels ∧
    ScatterPlot.markers (vars w') = ScatterPlot.markers (vars w) ++ new_markers ∧
    ScatterPlot.lines (vars w') =
      ScatterPlot.lines (vars w) ++
      zip_with (λ mi_row acc_row,
                  (select_indices mod_idx_plot mod_idx_shift mi_row,
                   select_indices mod_idx_plot mod_idx_shift acc_row)) mi acc ∧
    ∀ i fmt mi_row acc_row,
      marker_list !! i = Some fmt → mi !! i = Some mi_row →
      acc !! i = Some acc_row →
      (λ p : Q * Q * string * Z, (p.1.1.1, p.1.1.2)) <$>
        filter (λ p, p.1.2 = fmt) new_markers =
      zip (select_indices mod_idx_plot mod_idx_shift mi_row)
          (select_indices mod_idx_plot mod_idx_shift acc_row).
Proof.
  intros Hnd Hpsfs Hacc Hmi Hacc_rect Hmi_rect.
  destruct w as [[l mk ln] op]. unfold ScatterPlot.figure.
  rewrite bind_modify. unfold ScatterPlot.set_psf_label_list.
  cbn [vars opened ScatterPlot.markers ScatterPlot.lines].
  rewrite (bind_Ok _ _ _ _ _ (legend_loop _ _ _ _)).
  destruct (photon_levels_markers mod_idx_plot mod_idx_shift pcs acc mi Hnd
              ltac:(lia) ltac:(lia) Hmi_rect Hacc_rect pcs [] 
              ([] ++ zip marker_list psf_name_labels) mk ln op eq_refl)
    as (new & Hloop & Hnew).
  rewrite (bind_Ok _ _ _ _ _ Hloop).
  unfold enumerate.
  rewrite (line_loop mod_idx_plot mod_idx_shift pcs acc mi Hnd
             ltac:(lia) ltac:(lia) Hmi_rect Hacc_rect psfs 0 acc mi) by done.
  eexists _, new. split; [reflexivity|]. cbn [vars ScatterPlot.psf_label_list
                               ScatterPlot.markers ScatterPlot.lines].
  split; [done|]. split; [done|]. split; [done|].
  intros i fmt mi_row acc_row Hfmt Hmi_row Hacc_row.
  rewrite (Hnew i fmt mi_row acc_row Hfmt Hmi_row Hacc_row).
  assert (length mi_row = length pcs) as Hlm.
  { rewrite Forall_forall in Hmi_rect. apply Hmi_rect.
    by eapply list_elem_of_lookup_2. }
  assert (length acc_row = length pcs) as Hla.
  { rewrite Forall_forall in Hacc_rect. apply Hacc_rect.
    by eapply list_elem_of_lookup_2. }
  unfold select_indices. rewrite Hlm, Hla. simpl length.
  symmetry. apply zip_omap_total.
  apply Forall_forall. intros j [_ Hj]%list_elem_of_filter.
  apply elem_of_seq in Hj.
  split; apply lookup_lt_is_Some_2; lia.
Qed.

Lemma scatter_markers_on_lines_witness :
  ∃ w' new_markers,
    ScatterPlot.figure 3 2 psf_names [20; 40; 60]%Z
      [[1; 2; 3]; [4; 5; 6]; [7; 8; 9]]%Q
      [[10; 20; 30]; [40; 50; 60]; [70; 80; 90]]%Q
      (World (ScatterPlot.Variables [] [] []) []) = (w', Ok ()) ∧
    ScatterPlot.psf_label_list (vars w') = zip marker_list psf_name_labels ∧
    ScatterPlot.markers (vars w') = [] ++ new_markers ∧
    ScatterPlot.lines (vars w') =
      [] ++
      zip_with (λ mi_row acc_row,
                  (select_indices 3 2 mi_row, select_indices 3 2 acc_row))
               [[10; 20; 30]; [40; 50; 60]; [70; 80; 90]]%Q
               [[1; 2; 3]; [4; 5; 6]; [7; 8; 9]]%Q ∧
    ∀ i fmt mi_row acc_row,
      marker_list !! i = Some fmt →
      [[10; 20; 30]; [40; 50; 60]; [70; 80; 90]]%Q !! i = Some mi_row →
      [[1; 2; 3]; [4; 5; 6]; [7; 8; 9]]%Q !! i = Some acc_row →
      (λ p : Q * Q * string * Z, (p.1.1.1, p.1.1.2)) <$>
        filter (λ p, p.1.2 = fmt) new_markers =
      zip (select_indices 3 2 mi_row) (select_indices 3 2 acc_row).
Proof.
  apply (scatter_markers_on_lines 3 2 psf_names [20; 40; 60]%Z
           [[1; 2; 3]; [4; 5; 6]; [7; 8; 9]]%Q
           [[10; 20; 30]; [40; 50; 60]; [70; 80; 90]]%Q
           (World (ScatterPlot.Variables [] [] []) [])).
  - apply (bool_decide_unpack _). vm_compute. reflexivity.
  - simpl. lia.
  - reflexivity.
  - reflexivity.
  - repeat constructor.
  - repeat constructor.
Defined.

(** ** Which entries the scatter plots select *)

Lemma filter_mod_seq (m s n : nat) :
  (s < m)%nat →
  filter (λ i, i mod m = s) (seq 0 n) =
  (λ k, k * m + s)%nat <$> seq 0 ((n + (m - 1 - s)) / m).
Proof.
  intros Hs. induction n as [|n IH].
  - simpl. rewrite Nat.div_small by lia. done.
  - rewrite seq_S, filter_app, IH. simpl "+".
    change (S n + (m - 1 - s))%nat with (S (n + (m - 1 - s))).
    pose proof (Nat.div_mod_eq n m) as Hn.
    pose proof (Nat.mod_upper_bound n m ltac:(lia)) as Hr.
    set (q := (n / m)%nat) in *. set (r := (n mod m)%nat) in *.
    destruct (decide (r = s)) as [Heq|Hne].
    + rewrite filter_cons_True, filter_nil by done.
      assert ((n + (m - 1 - s)) / m = q)%nat as ->.
      { symmetry. apply (Nat.div_unique _ _ _ (m - 1)); lia. }
      assert ((S (n + (m - 1 - s))) / m = S q)%nat as ->.
      { symmetry. apply (Nat.div_unique _ _ _ 0); lia. }
      rewrite seq_S, fmap_app. simpl. do 2 f_equal. lia.
    + rewrite filter_cons_False, filter_nil, app_nil_r by done.
      destruct (decide (r < s)%nat).
      * assert ((n + (m - 1 - s)) / m = q)%nat as ->.
        { symmetry. apply (Nat.div_unique _ _ _ (r + m - 1 - s)); lia. }
        assert ((S (n + (m - 1 - s))) / m = q)%nat as ->; [|done].
        symmetry. apply (Nat.div_unique _ _ _ (r + m - s)); lia.
      * assert ((n + (m - 1 - s)) / m = S q)%nat as ->.
        { symmetry. apply (Nat.div_unique _ _ _ (r - 1 - s)); lia. }
        assert ((S (n + (m - 1 - s))) / m = S q)%nat as ->; [|done].
        symmetry. apply (Nat.div_unique _ _ _ (r - s)); lia.
Qed.

Lemma omap_lookup_total {A B} (f : A → option B) (l : list A) (k : nat) :
  Forall (λ x, is_Some (f x)) l → omap f l !! k = l !! k ≫= f.
Proof.
  intros H. revert k. induction H as [|x l [y Hy] _ IH]; intros k; [done|].
  cbn. rewrite Hy. destruct k as [|k]; cbn; [done|]. apply IH.
Qed.

(** X16. The selection of the scatter plots keeps the entries at the
    indices [mod_idx_shift], [mod_idx_shift + mod_idx_plot],
    [mod_idx_shift + 2 * mod_idx_plot], ... in order: entry [k] of the
    selection is entry [k * mod_idx_plot + mod_idx_shift] of the array.
    With the settings 1 and 0 of the second scatter cell every entry is
    kept. *)
Theorem select_indices_lookup (mod_idx_plot : positive) (mod_idx_shift : nat)
    (a : ndarray) (k : nat) :
  (mod_idx_shift < Pos.to_nat mod_idx_plot)%nat →
  select_indices mod_idx_plot mod_idx_shift a !! k =
    a !! (k * Pos.to_nat mod_idx_plot + mod_idx_shift)%nat ∧
  select_indices 1 0 a = a.
Proof.
  intros Hs.
  assert (∀ m s, (s < Pos.to_nat m)%nat → ∀ j,
            select_indices m s a !! j = a !! (j * Pos.to_nat m + s)%nat) as Hlk.
  { clear. intros m s Hs j. unfold select_indices.
    rewrite omap_lookup_total by apply select_indices_lookups.
    rewrite filter_mod_seq by done. rewrite list_lookup_fmap.
    set (c := ((length a + (Pos.to_nat m - 1 - s)) / Pos.to_nat m)%nat).
    destruct (decide (j < c)%nat) as [Hj|Hj].
    - rewrite lookup_seq_lt by done. done.
    - rewrite lookup_seq_ge by lia. simpl. symmetry.
      apply lookup_ge_None_2.
      assert (length a + (Pos.to_nat m - 1 - s) < Pos.to_nat m * S c)%nat.
      { subst c. pose proof (Nat.div_mod_eq (length a + (Pos.to_nat m - 1 - s))
                               (Pos.to_nat m)).
        pose proof (Nat.mod_upper_bound (length a + (Pos.to_nat m - 1 - s))
                      (Pos.to_nat m) ltac:(lia)). lia. }
      nia. }
  split; [by apply Hlk|].
  apply list_eq. intros j. rewrite Hlk by (simpl; lia). f_equal. simpl. lia.
Qed.

Lemma select_indices_lookup_witness :
  select_indices 3 2 [1; 2; 3; 4; 5; 6]%Q !! 1%nat =
    [1; 2; 3; 4; 5; 6]%Q !! (1 * Pos.to_nat 3 + 2)%nat ∧
  select_indices 1 0 [1; 2; 3; 4; 5; 6]%Q = [1; 2; 3; 4; 5; 6]%Q.
Proof.
  apply (select_indices_lookup 3 2 [1; 2; 3; 4; 5; 6]%Q 1). simpl. lia.
Defined.

(** ** What a normal end of the error-bar cell tells *)

Lemma for_each_Ok_inv {V X} (xs : list X) (body : X → cell V unit)
    (w w' : world V) :
  for_each xs body w = (w', Ok ()) →
  ∀ x, x ∈ xs → ∃ w0 w1, body x w0 = (w1, Ok ()).
Proof.
  revert w. induction xs as [|x0 xs IH]; intros w Hrun x Hx.
  { by apply elem_of_nil in Hx. }
  rewrite for_each_cons in Hrun.
  destruct (body x0 w) as [w1 [[]|e]] eqn:Hbody; [|done].
  apply elem_of_cons in Hx as [->|Hx]; [by exists w, w1|].
  by apply (IH w1).
Qed.

Lemma marker_for_psf_Ok_inv (psf_name marker : string) :
  marker_for_psf psf_name = Ok marker → psf_name ∈ psf_label_set.
Proof.
  unfold marker_for_psf. intros H. apply psf_label_set_elem.
  destruct (String.eqb_spec psf_name "one") as [->|_]; [tauto|].
  destruct (String.eqb_spec psf_name "four") as [->|_]; [tauto|].
  destruct (String.eqb_spec psf_name "diffuser") as [->|_]; [tauto|].
  destruct (String.eqb_spec psf_name "uc") as [->|_]; [tauto|].
  destruct (String.eqb_spec psf_name "two") as [->|_]; [tauto|].
  done.
Qed.

Lemma photon_step_Ok_selected pe cl mi grid valid psf_idx psf_name i pc w w' :
  ErrorBars.photon_step pe cl mi grid valid psf_idx psf_name (i, pc) w = (w', Ok ()) →
  pc ∈ valid →
  psf_name ∈ psf_label_set ∧
  ∃ mv t lo up,
    getitem2 mi psf_idx i = Ok mv ∧ getitem2 grid psf_idx i = Ok t ∧
    np_percentile pe t (lower_rank cl) = Ok lo ∧
    np_percentile pe t (upper_rank cl) = Ok up.
Proof.
  intros Hstep Hin.
  destruct (getitem2 mi psf_idx i) as [mv|e] eqn:Hmv.
  2:{ unfold ErrorBars.photon_step in Hstep.
      rewrite bool_decide_true, Hmv, bind_lift_Raise in Hstep by done. done. }
  destruct (getitem2 grid psf_idx i) as [t|e] eqn:Ht.
  2:{ unfold ErrorBars.photon_step in Hstep.
      rewrite bool_decide_true, Hmv, bind_lift_Ok, Ht, bind_lift_Raise in Hstep
        by done. done. }
  destruct (marker_for_psf psf_name) as [mk|e] eqn:Hmk.
  2:{ unfold ErrorBars.photon_step in Hstep.
      rewrite bool_decide_true, Hmv, bind_lift_Ok, Ht, bind_lift_Ok in Hstep by done.
      cbv zeta in Hstep. rewrite Hmk, bind_lift_Raise in Hstep. done. }
  rewrite (photon_step_selected pe cl mi grid valid psf_idx psf_name i pc mv t mk w
             Hin Hmv Ht Hmk) in Hstep.
  cbv zeta in Hstep.
  destruct (np_percentile pe t (lower_rank cl)) as [lo|e] eqn:Hlo; [|done].
  destruct (np_percentile pe t (upper_rank cl)) as [up|e] eqn:Hup; [|done].
  split; [exact (marker_for_psf_Ok_inv _ _ Hmk)|]. by exists mv, t, lo, up.
Qed.

(** X17. The error-bar cell passes over no selected condition in
    silence: when it ends normally, every selected PSF that meets a
    selected photon count bears one of the five PSF labels, both grids
    hold an entry for the pair, and both percentiles of its trials were
    computed. *)
Theorem error_bar_cell_covers pe cl mi grid (psf_names : list string)
    (pcs : list Z) (valid_psfs : list nat) (valid : list Z)
    (w w' : world ErrorBars.variables)
    (psf_idx : nat) (psf_name : string) (photon_idx : nat) (photon_count : Z) :
  ErrorBars.run pe cl mi grid psf_names pcs valid_psfs valid w = (w', Ok ()) →
  psf_names !! psf_idx = Some psf_name → psf_idx ∈ valid_psfs →
  pcs !! photon_idx = Some photon_count → photon_count ∈ valid →
  psf_name ∈ psf_label_set ∧
  ∃ mi_value trials lower upper,
    getitem2 mi psf_idx photon_idx = Ok mi_value ∧
    getitem2 grid psf_idx photon_idx = Ok trials ∧
    np_percentile pe trials (lower_rank cl) = Ok lower ∧
    np_percentile pe trials (upper_rank cl) = Ok upper.
Proof.
  intros Hrun Hpsf Hsel Hpc Hvalid. unfold ErrorBars.run in Hrun.
  destruct (for_each_Ok_inv _ _ _ _ Hrun (psf_idx, psf_name)) as (w0 & w1 & Hstep).
  { unfold enumerate. apply list_elem_of_lookup. exists psf_idx.
    apply lookup_zip_with_Some. exists psf_idx, psf_name. split; [done|].
    split; [|done]. apply lookup_seq. split; [done|]. by eapply lookup_lt_Some. }
  unfold ErrorBars.psf_step in Hstep.
  rewrite bool_decide_true, !bind_modify in Hstep by done.
  match type of Hstep with
  | (for_each ?items ?body ≫= _) ?w2 = _ =>
    destruct (for_each items body w2) as [w3 [[]|e]] eqn:Hloop
  end.
  2:{ by rewrite (bind_Raise _ _ _ _ _ Hloop) in Hstep. }
  destruct (for_each_Ok_inv _ _ _ _ Hloop (photon_idx, photon_count))
    as (w4 & w5 & Hphoton).
  { unfold enumerate. apply list_elem_of_lookup. exists photon_idx.
    apply lookup_zip_with_Some. exists photon_idx, photon_count. split; [done|].
    split; [|done]. apply lookup_seq. split; [done|]. by eapply lookup_lt_Some. }
  by eapply photon_step_Ok_selected.
Qed.

Lemma error_bar_cell_covers_witness :
  "one" ∈ psf_label_set ∧
  ∃ mi_value trials lower upper,
    getitem2 [[1; 2]]%Q 0 1 = Ok mi_value ∧
    getitem2 [[[3; 5]; [7]]]%Q 0 1 = Ok trials ∧
    np_percentile (Raise IndexError) trials (lower_rank (9 # 10)) = Ok lower ∧
    np_percentile (Raise IndexError) trials (upper_rank (9 # 10)) = Ok upper.
Proof.
  eapply (error_bar_cell_covers (Raise IndexError) (9 # 10) [[1; 2]]%Q
            [[[3; 5]; [7]]]%Q ["one"; "four"] [20; 40]%Z [0%nat] [20; 40]%Z
            (World (ErrorBars.Variables [] [] [] [] []) []) _ 0 "one" 1 40%Z).
  - vm_compute. reflexivity.
  - reflexivity.
  - apply list_elem_of_here.
  - reflexivity.
  - apply list_elem_of_further, list_elem_of_here.
Defined.

(** ** What the error-bar cell draws *)

Section ErrorBarBands.
Variables (pe : result float64) (cl : Q).
Variables (mi : list ndarray) (grid : list (list ndarray)).
Variables (valid_psfs : list nat) (valid : list Z).
Hypothesis cl_range : (0 < cl)%Q ∧ (cl < 1)%Q.

Lemma photon_loop_band (psf_idx : nat) (psf_name : string)
    (mi_row : ndarray) (row : list ndarray) (pcsR : list Z) :
  psf_name ∈ psf_label_set →
  mi !! psf_idx = Some mi_row → grid !! psf_idx = Some row →
  ∀ (k : nat) (miR : ndarray) (rowR : list ndarray) xs ms ls us pl op,
    drop k mi_row = miR → drop k row = rowR →
    length miR = length pcsR → length rowR = length pcsR →
    Forall (λ t, t ≠ []) rowR →
    for_each (zip (seq k (length pcsR)) pcsR)
             (ErrorBars.photon_step pe cl mi grid valid psf_idx psf_name)
             (World (ErrorBars.Variables xs ms ls us pl) op) =
    (let '(xs', ms', ls', us') := expected_band cl valid pcsR miR rowR in
     World (ErrorBars.Variables (xs ++ xs') (ms ++ ms') (ls ++ ls') (us ++ us') pl)
           op, Ok ()).
Proof using cl_range.
  intros Hlabel Hmi Hgrid.
  destruct (marker_for_psf_Ok psf_name Hlabel) as [mk Hmk].
  destruct (rank_bounds cl (proj1 cl_range) (proj2 cl_range)) as [Hlo Hhi].
  induction pcsR as [|pc pcsR IH];
    intros k miR rowR xs ms ls us pl op Hdmi Hdrow Hlmi Hlrow Hne.
  { destruct miR, rowR; try done.
    change (zip (seq k (length (@nil Z))) []) with (@nil (nat * Z)).
    rewrite for_each_nil. unfold expected_band. simpl. by rewrite !app_nil_r. }
  destruct miR as [|mv miR], rowR as [|t rowR]; try done.
  simpl in Hlmi, Hlrow. apply Forall_cons in Hne as [Ht Hne].
  assert (getitem2 mi psf_idx k = Ok mv) as Hmv.
  { unfold getitem2. rewrite Hmi.
    rewrite <- (Nat.add_0_r k), <- lookup_drop, Hdmi. done. }
  assert (getitem2 grid psf_idx k = Ok t) as Htr.
  { unfold getitem2. rewrite Hgrid.
    rewrite <- (Nat.add_0_r k), <- lookup_drop, Hdrow. done. }
  simpl length. simpl seq. simpl zip. rewrite for_each_cons.
  assert (drop (S k) mi_row = miR) as Hdmi'.
  { replace (S k) with (k + 1)%nat by lia. by rewrite <- drop_drop, Hdmi. }
  assert (drop (S k) row = rowR) as Hdrow'.
  { replace (S k) with (k + 1)%nat by lia. by rewrite <- drop_drop, Hdrow. }
  destruct (decide (pc ∈ valid)) as [Hin|Hout].
  - rewrite (photon_step_selected _ _ _ _ _ _ _ _ _ mv t mk _ Hin Hmv Htr Hmk).
    destruct (np_percentile_Ok pe t _ Ht Hlo) as (lo & Hplo & ->).
    destruct (np_percentile_Ok pe t _ Ht Hhi) as (hi & Hphi & ->).
    cbv beta iota zeta.
    unfold ErrorBars.set_classifier_upper_across_photons,
      ErrorBars.set_classifier_lower_across_photons,
      ErrorBars.set_classifier_means_across_photons,
      ErrorBars.set_mi_means_across_photons.
    cbn [vars opened ErrorBars.mi_means_across_photons
         ErrorBars.classifier_means_across_photons
         ErrorBars.classifier_lower_across_photons
         ErrorBars.classifier_upper_across_photons ErrorBars.plotted].
    rewrite (IH (S k) miR rowR) by (done || lia).
    unfold expected_band. simpl zip. rewrite filter_cons_True by done.
    cbn [fmap list_fmap fst snd].
    assert (percentile_value t (lower_rank cl) = Fin lo) as ->
      by (unfold percentile_value; by rewrite Hplo).
    assert (percentile_value t (upper_rank cl) = Fin hi) as ->
      by (unfold percentile_value; by rewrite Hphi).
    by rewrite <- !(assoc_L (++)).
  - rewrite photon_step_skipped by done.
    rewrite (IH (S k) miR rowR) by (done || lia).
    unfold expected_band. simpl zip. by rewrite filter_cons_False by done.
Qed.

Lemma psf_step_band (pcs : list Z) (psf_idx : nat) (psf_name : string)
    (mi_row : ndarray) (row : list ndarray) xs ms ls us pl op :
  psf_idx ∈ valid_psfs → psf_name ∈ psf_label_set →
  mi !! psf_idx = Some mi_row → grid !! psf_idx = Some row →
  length mi_row = length pcs → length row = length pcs →
  Forall (λ t, t ≠ []) row →
  ∃ xs' ms' ls' us',
    ErrorBars.psf_step pe cl mi grid pcs valid_psfs valid (psf_idx, psf_name)
      (World (ErrorBars.Variables xs ms ls us pl) op) =
    (World (ErrorBars.Variables xs' ms' ls' us'
              (pl ++ [expected_band cl valid pcs mi_row row])) op, Ok ()).
Proof using cl_range.
  intros Hsel Hlabel Hmi Hgrid Hlmi Hlrow Hne. unfold ErrorBars.psf_step.
  rewrite bool_decide_true, !bind_modify by done.
  unfold ErrorBars.set_classifier_upper_across_photons,
    ErrorBars.set_classifier_lower_across_photons,
    ErrorBars.set_classifier_means_across_photons,
    ErrorBars.set_mi_means_across_photons.
  cbn [vars opened ErrorBars.mi_means_across_photons
       ErrorBars.classifier_means_across_photons
       ErrorBars.classifier_lower_across_photons
       ErrorBars.classifier_upper_across_photons ErrorBars.plotted].
  unfold enumerate.
  rewrite (bind_Ok _ _ _ _ _
             (photon_loop_band psf_idx psf_name mi_row row pcs Hlabel Hmi Hgrid
                0 mi_row row [] [] [] [] pl op eq_refl eq_refl Hlmi Hlrow Hne)).
  eexists _, _, _, _. reflexivity.
Qed.

Lemma psf_loop_bands (pcs : list Z) (names : list string) :
  ∀ (k : nat) (miR : list ndarray) (gridR : list (list ndarray)) xs ms ls us pl op,
    drop k mi = miR → drop k grid = gridR →
    length miR = length names → length gridR = length names →
    Forall (λ name, name ∈ psf_label_set) names →
    Forall (λ mi_row, length mi_row = length pcs) miR →
    Forall (λ row, length row = length pcs ∧ Forall (λ t, t ≠ []) row) gridR →
    ∃ xs' ms' ls' us',
      for_each (zip (seq k (length names)) names)
               (ErrorBars.psf_step pe cl mi grid pcs valid_psfs valid)
               (World (ErrorBars.Variables xs ms ls us pl) op) =
      (World (ErrorBars.Variables xs' ms' ls' us'
                (pl ++ ((λ c, expected_band cl valid pcs c.2.1 c.2.2) <$>
                        filter (λ c, c.1 ∈ valid_psfs)
                               (zip (seq k (length names)) (zip miR gridR)))))
             op, Ok ()).
Proof using cl_range.
  induction names as [|name names IH];
    intros k miR gridR xs ms ls us pl op Hdmi Hdgrid Hlmi Hlgrid Hlabels Hmi Hgrid.
  { destruct miR, gridR; try done.
    change (zip (seq k (length (@nil string))) []) with (@nil (nat * string)).
    rewrite for_each_nil. simpl. rewrite app_nil_r. by eexists _, _, _, _. }
  destruct miR as [|mi_row miR], gridR as [|row gridR]; try done.
  simpl in Hlmi, Hlgrid.
  apply Forall_cons in Hlabels as [Hlabel Hlabels].
  apply Forall_cons in Hmi as [Hlmi_row Hmi].
  apply Forall_cons in Hgrid as [[Hlrow Hne] Hgrid].
  assert (mi !! k = Some mi_row) as Hmi_row.
  { rewrite <- (Nat.add_0_r k), <- lookup_drop, Hdmi. done. }
  assert (grid !! k = Some row) as Hrow.
  { rewrite <- (Nat.add_0_r k), <- lookup_drop, Hdgrid. done. }
  assert (drop (S k) mi = miR) as Hdmi'.
  { replace (S k) with (k + 1)%nat by lia. by rewrite <- drop_drop, Hdmi. }
  assert (drop (S k) grid = gridR) as Hdgrid'.
  { replace (S k) with (k + 1)%nat by lia. by rewrite <- drop_drop, Hdgrid. }
  simpl length. simpl seq. simpl zip. rewrite for_each_cons.
  destruct (decide (k ∈ valid_psfs)) as [Hsel|Hout].
  - destruct (psf_step_band pcs k name mi_row row xs ms ls us pl op)
      as (xs1 & ms1 & ls1 & us1 & ->); [done..|].
    destruct (IH (S k) miR gridR xs1 ms1 ls1 us1
                 (pl ++ [expected_band cl valid pcs mi_row row]) op)
      as (xs' & ms' & ls' & us' & ->); [done || lia..|].
    exists xs', ms', ls', us'. rewrite filter_cons_True by done.
    by rewrite fmap_cons, <- (assoc_L (++)).
  - unfold ErrorBars.psf_step at 1. rewrite bool_decide_false by done.
    unfold mret, cell_ret.
    destruct (IH (S k) miR gridR xs ms ls us pl op)
      as (xs' & ms' & ls' & us' & ->); [done || lia..|].
    exists xs', ms', ls', us'. by rewrite filter_cons_False by done.
Qed.
End ErrorBarBands.

(** X18. On well-formed grids (a row per PSF, an entry per photon count,
    trials that are not empty), PSF names among the five labels and a
    confidence level strictly between 0 and 1, the error-bar cell ends
    normally and has drawn, for each selected PSF in order, the band of
    the MI estimates, the means and the two percentiles of the selected
    photon counts. *)
Theorem error_bar_cell_bands (pe : result float64) (cl : Q)
    (mi : list ndarray) (grid : list (list ndarray))
    (psf_names : list string) (pcs : list Z)
    (valid_psfs : list nat) (valid : list Z)
    (w : world ErrorBars.variables) :
  (0 < cl)%Q → (cl < 1)%Q →
  length mi = length psf_names → length grid = length psf_names →
  Forall (λ name, name ∈ psf_label_set) psf_names →
  Forall (λ mi_row, length mi_row = length pcs) mi →
  Forall (λ row, length row = length pcs ∧ Forall (λ t, t ≠ []) row) grid →
  ∃ w',
    ErrorBars.run pe cl mi grid psf_names pcs valid_psfs valid w = (w', Ok ()) ∧
    opened w' = opened w ∧
    ErrorBars.plotted (vars w') =
      ErrorBars.plotted (vars w) ++
      ((λ c, expected_band cl valid pcs c.2.1 c.2.2) <$>
       filter (λ c, c.1 ∈ valid_psfs)
              (zip (seq 0 (length psf_names)) (zip mi grid))).
Proof.
  intros Hcl0 Hcl1 Hlmi Hlgrid Hlabels Hmi Hgrid.
  destruct w as [[xs ms ls us pl] op]. unfold ErrorBars.run, enumerate.
  destruct (psf_loop_bands pe cl mi grid valid_psfs valid (conj Hcl0 Hcl1)
              pcs psf_names 0 mi grid xs ms ls us pl op)
    as (xs' & ms' & ls' & us' & ->); [done..|].
  by eexists.
Qed.

Lemma error_bar_cell_bands_witness :
  ∃ w',
    ErrorBars.run (Raise IndexError) (9 # 10) [[1; 2]; [3; 4]]%Q
      [[[3; 5]; [7]]; [[1]; [2; 4]]]%Q
      ["one"; "four"] [20; 40]%Z [1%nat] [40]%Z
      (World (ErrorBars.Variables [] [] [] [] []) []) = (w', Ok ()) ∧
    opened w' = [] ∧
    ErrorBars.plotted (vars w') =
      [] ++
      ((λ c, expected_band (9 # 10) [40]%Z [20; 40]%Z c.2.1 c.2.2) <$>
       filter (λ c, c.1 ∈ [1%nat])
              (zip (seq 0 (length ["one"; "four"]))
                   (zip [[1; 2]; [3; 4]]%Q [[[3; 5]; [7]]; [[1]; [2; 4]]]%Q))).
Proof.
  apply (error_bar_cell_bands (Raise IndexError) (9 # 10) [[1; 2]; [3; 4]]%Q
           [[[3; 5]; [7]]; [[1]; [2; 4]]]%Q ["one"; "four"] [20; 40]%Z
           [1%nat] [40]%Z (World (ErrorBars.Variables [] [] [] [] []) [])).
  - reflexivity.
  - reflexivity.
  - reflexivity.
  - reflexivity.
  - repeat constructor; apply psf_label_set_elem; tauto.
  - repeat constructor.
  - repeat constructor; discriminate.
Defined.
